(** * LipReading: the encoder/decoder core of [better_model.py]

    A shallow embedding of [src/models/lipreader/better_model.py]:
    the [VideoEncoder] and [CharDecodingStep] modules, their [forward]
    passes, [_cat_directions] and [save_best_model].

    Tensors are nested lists of real numbers, indices and lengths are
    integers, a raised Python exception is [None] (or an explicit
    exception value where the state reached at the raise matters).  The
    recurrent layers of torch are fields of the two modules; the two
    utilities imported from allennlp, which the sources do not contain,
    are modelled from the specification.

    Part I holds the definitions, Part II the properties. *)

From Stdlib Require Import String Ascii.
From Stdlib Require Import List Bool Arith ZArith QArith Reals Lra Lia.
From Stdlib Require Import Permutation Sorted.
Import ListNotations.

Close Scope Q_scope.
Close Scope R_scope.
Close Scope Z_scope.

Set Implicit Arguments.

(** ** Exceptions as [option] *)

Definition bind {A B : Type} (m : option A) (k : A -> option B) : option B :=
  match m with
  | Some a => k a
  | None => None
  end.

Notation "x <- m ;; k" := (bind m (fun x => k))
  (at level 61, m at next level, right associativity).
Notation "' p <- m ;; k" := (bind m (fun x => let p := x in k))
  (at level 61, p pattern, m at next level, right associativity).

(** * Part I: the program *)

(** ** Tensors *)

Module Tensor.

Abbreviation vec := (list R) (only parsing).
Abbreviation tensor2 := (list (list R)) (only parsing).
Abbreviation tensor3 := (list (list (list R))) (only parsing).
Abbreviation tensor4 := (list (list (list (list R)))) (only parsing).

(** [mapM f l]: apply a raising function to every element, raising at
    the first failure. *)
Fixpoint mapM {A B : Type} (f : A -> option B) (l : list A) : option (list B) :=
  match l with
  | [] => Some []
  | a :: l' => b <- f a ;; bs <- mapM f l' ;; Some (b :: bs)
  end.

(** [zip_strict f l1 l2]: an elementwise operation on two tensors whose
    sizes along the zipped axis must agree (torch raises otherwise). *)
Fixpoint zip_strict {A B C : Type} (f : A -> B -> option C)
    (l1 : list A) (l2 : list B) : option (list C) :=
  match l1, l2 with
  | [], [] => Some []
  | a :: l1', b :: l2' =>
      c <- f a b ;; cs <- zip_strict f l1' l2' ;; Some (c :: cs)
  | _, _ => None
  end.

(** [t.index_select(0, idx)]: rows of [t] picked by [idx]; an index
    outside the tensor raises. *)
Definition index_select {A : Type} (t : list A) (idx : list nat) : option (list A) :=
  mapM (nth_error t) idx.

(** [t.index_select(1, idx)] on a tensor whose axis 1 is the batch. *)
Definition index_select1 {A : Type} (t : list (list A)) (idx : list nat)
  : option (list (list A)) :=
  mapM (fun layer => index_select layer idx) t.

(** [s[start:len(s):2]] for [start] 0 and 1. *)
Fixpoint evens {A : Type} (l : list A) : list A :=
  match l with
  | [] => []
  | a :: l' => a :: odds l'
  end
with odds {A : Type} (l : list A) : list A :=
  match l with
  | [] => []
  | _ :: l' => evens l'
  end.

(** [torch.cat([a, b], dim=2)] on rank-3 tensors: the sizes along
    axes 0 and 1 must agree. *)
Definition cat_dim2 {A : Type} (a b : list (list (list A)))
  : option (list (list (list A))) :=
  zip_strict (zip_strict (fun u v => Some (u ++ v))) a b.

(** A rank-2 tensor of shape [(n, w)] and a rank-3 one of shape
    [(n, m, w)]. *)
Definition shape2 {A : Type} (n w : nat) (t : list (list A)) : Prop :=
  length t = n /\ Forall (fun r => length r = w) t.

Definition shape3 {A : Type} (n m w : nat) (t : list (list (list A))) : Prop :=
  length t = n /\ Forall (shape2 m w) t.

Definition rsum (l : list R) : R := fold_right Rplus 0%R l.

Definition dot (u v : vec) : R := rsum (map (fun p => (fst p * snd p)%R) (combine u v)).

Definition append_rows {A : Type} (x y : list (list A)) : list (list A) :=
  map (fun q => fst q ++ snd q) (combine x y).

End Tensor.

(** ** Masked normalization ([masked_softmax], [masked_log_softmax]) *)

Module MaskedNorm.
Import Tensor.
Local Open Scope R_scope.

(** Modelled from the spec: the large negative sentinel that stands for
    a negative-infinite log-probability (section 4.4 and section 8 of the
    specification; [masked_log_softmax] is imported from allennlp and is
    not part of the sources). *)
Definition neg_sentinel : R := - 10 ^ 32.

(** The entries of a row at the unmasked positions of [m]. *)
Definition unmasked {A : Type} (m : list bool) (x : list A) : list A :=
  map snd (filter fst (combine m x)).

(** The row has at least one unmasked position. *)
Definition has_unmasked (m : list bool) : bool := existsb (fun b => b) m.

(** Modelled from the spec: the shift that keeps the exponentials of the
    unmasked scores from overflowing (the largest unmasked score). *)
Definition row_shift (x : vec) (m : list bool) : R :=
  let u := unmasked m x in fold_right Rmax (hd 0 u) u.

Definition masked_exp (c : R) (mi : bool) (xi : R) : R :=
  if mi then exp (xi - c) else 0.

Definition masked_exps (c : R) (m : list bool) (x : vec) : vec :=
  map (fun p => masked_exp c (fst p) (snd p)) (combine m x).

(** Modelled from the spec: softmax over one row restricted to the
    unmasked positions; masked positions get probability zero
    ([masked_softmax] is imported from allennlp and is not part of the
    sources).  In a row with no unmasked position every exponential
    and their sum are zero and the row comes out all zero, the fallback
    the contract allows for that case. *)
Definition masked_softmax_row (x : vec) (m : list bool) : vec :=
  let c := row_shift x m in
  let e := masked_exps c m x in
  let s := rsum e in
  map (fun ei => ei / s) e.

(** Modelled from the spec: log-softmax over one row restricted to the
    unmasked positions; masked positions get the sentinel. *)
Definition masked_log_softmax_row (x : vec) (m : list bool) : vec :=
  let c := row_shift x m in
  let lse := ln (rsum (masked_exps c m x)) in
  map (fun p : bool * R => if fst p then snd p - c - lse else neg_sentinel)
    (combine m x).

(** A row and its mask must have one size. *)
Definition checked_row (f : vec -> list bool -> vec) (x : vec) (m : list bool)
  : option vec :=
  if Nat.eqb (length x) (length m) then Some (f x m) else None.

(** Modelled from the spec: the primitive on a [(rows, n)] score array
    with a same-shaped mask, normalizing over the last axis. *)
Definition masked_softmax (x : tensor2) (mask : list (list bool)) : option tensor2 :=
  zip_strict (checked_row masked_softmax_row) x mask.

(** Modelled from the spec: the log-softmax variant of the primitive on
    a [(rows, n)] score array with a same-shaped mask. *)
Definition masked_log_softmax (x : tensor2) (mask : list (list bool)) : option tensor2 :=
  zip_strict (checked_row masked_log_softmax_row) x mask.

(** Modelled from the spec: the log-softmax primitive on a
    [(batch, time, n)] score array with a [(batch, n)] mask broadcast
    over the time axis. *)
Definition masked_log_softmax3 (x : tensor3) (mask : list (list bool)) : option tensor3 :=
  zip_strict (fun xb mr => mapM (fun xr => checked_row masked_log_softmax_row xr mr) xb)
    x mask.

End MaskedNorm.

(** ** Sequence reordering ([sort_batch_by_length]) *)

Module Reorder.
Import Tensor.

(** Sorting with positions, as [torch.sort] returns them: by insertion,
    on the keys paired with their positions. *)
Section Argsort.
Variable K : Type.
Variable le : K -> K -> bool.

(** Insertion of a (key, position) pair before the first pair whose
    key it precedes: equal keys keep their order. *)
Fixpoint insert_key (p : K * nat) (l : list (K * nat)) : list (K * nat) :=
  match l with
  | [] => [p]
  | q :: l' => if le (fst p) (fst q) then p :: l else q :: insert_key p l'
  end.

Definition sort_keys (l : list (K * nat)) : list (K * nat) :=
  fold_right insert_key [] l.

Definition enumerate (keys : list K) : list (K * nat) :=
  combine keys (seq 0 (length keys)).

(** [keys.sort(0)]: the sorted values and, for each, the position it
    came from. *)
Definition tensor_sort (keys : list K) : list K * list nat :=
  let s := sort_keys (enumerate keys) in (map fst s, map snd s).
End Argsort.

(** Modelled from the spec: the Sequence Reordering Utility
    ([sort_batch_by_length] is imported from allennlp and is not part of
    the sources).  It returns the batch permuted into descending order of
    length, the permuted lengths, the restoration permutation and the
    sorting permutation; the restoration permutation is the sorting
    permutation's inverse, computed by sorting it in ascending order and
    reading the positions off. *)
Definition sort_batch_by_length {A : Type} (tensor : list A) (sequence_lengths : list Z)
  : option (list A * list Z * list nat * list nat) :=
  let '(sorted_sequence_lengths, permutation_index) :=
    tensor_sort Z.geb sequence_lengths in
  sorted_tensor <- index_select tensor permutation_index ;;
  let index_range := seq 0 (length sequence_lengths) in
  let '(_, reverse_mapping) := tensor_sort Nat.leb permutation_index in
  restoration_indices <- index_select index_range reverse_mapping ;;
  Some (sorted_tensor, sorted_sequence_lengths, restoration_indices, permutation_index).

(** The sorting permutation of a length vector. *)
Definition sorting_permutation (lens : list Z) : list nat :=
  snd (tensor_sort Z.geb lens).

(** The restoration permutation of a length vector. *)
Definition restoration_permutation (lens : list Z) : list nat :=
  snd (tensor_sort Nat.leb (sorting_permutation lens)).

End Reorder.

(** ** Checkpointing ([save_best_model]) *)

Module Checkpoint.

(** *** [os.path.dirname] *)

Definition sep : ascii := "/"%char.

Fixpoint drop_until_sep (l : list ascii) : list ascii :=
  match l with
  | [] => []
  | c :: l' => if Ascii.eqb c sep then l else drop_until_sep l'
  end.

Fixpoint strip_sep (l : list ascii) : list ascii :=
  match l with
  | [] => []
  | c :: l' => if Ascii.eqb c sep then strip_sep l' else l
  end.

(** [posixpath.dirname]: the part of [p] up to its last separator,
    without trailing separators unless it consists of separators only.
    The characters are handled in reverse order. *)
Definition dirname (p : string) : string :=
  let head := drop_until_sep (rev (list_ascii_of_string p)) in
  if forallb (Ascii.eqb sep) head
  then string_of_list_ascii (rev head)
  else string_of_list_ascii (rev (strip_sep head)).

(** *** Paths in normal form *)

(** The components of a path, between its separators. *)
Fixpoint split_sep (l : list ascii) : list (list ascii) :=
  match l with
  | [] => [[]]
  | c :: l' =>
      if Ascii.eqb c sep then [] :: split_sep l'
      else match split_sep l' with
           | comp :: comps => (c :: comp) :: comps
           | [] => [[c]]
           end
  end.

(** A component that names a directory entry: not empty, not [.] or
    [..], and without the null character. *)
Definition plain (comp : list ascii) : bool :=
  match comp with
  | [] => false
  | _ =>
      negb (String.eqb (string_of_list_ascii comp) ".")
      && negb (String.eqb (string_of_list_ascii comp) "..")
      && forallb (fun c => negb (Ascii.eqb c Ascii.zero)) comp
  end.

(** A path of plain components, relative or with one leading separator:
    the one spelling of its file that uses no empty, [.] or [..]
    component and no trailing separator. *)
Definition normal_path (p : string) : bool :=
  match split_sep (list_ascii_of_string p) with
  | [] => false
  | first :: rest =>
      (plain first
       || (match first with [] => true | _ => false end
           && negb (Nat.eqb (length rest) 0)))
      && forallb plain rest
  end.

(** [os.path.isabs]. *)
Definition absolute (p : string) : bool :=
  match p with
  | String c _ => Ascii.eqb c sep
  | EmptyString => false
  end.

(** *** Strict comparison of errors *)

Definition Qltb (a b : Q) : bool := negb (Qle_bool b a).

(** *** The module object, the file system and the console *)

Inductive exn : Type :=
| FileNotFoundError
| FileExistsError
| NotADirectoryError
| IsADirectoryError.

Section Policy.

(** What [state_dict()] returns: the parameters of the module. *)
Variable P : Type.

(** An [nn.Module] with a [best_error] attribute. *)
Record component : Type := Component {
  best_error : Q;
  state_dict : P
}.

(** The part of the environment [save_best_model] touches: the
    directories and files that exist, by path, and the lines printed.
    A directory or file is listed under one spelling of its path and the
    operations below compare paths as they are written; links,
    permissions and limits of the file system are not represented.  The
    facts that tell two paths apart, or that need a path to be found
    under the spelling given, take the paths in normal form. *)
Record world : Type := World {
  dirs : list string;
  files : list (string * P);
  stdout : list (Q * string)
}.

(** [__init__] sets [self.best_error = 1]. *)
Definition init (parameters : P) : component :=
  {| best_error := 1; state_dict := parameters |}.

(** The file listed under the path [p], the path compared as it is
    written. *)
Definition lookup (p : string) (fs : list (string * P)) : option P :=
  option_map snd (find (fun f => String.eqb p (fst f)) fs).

Definition is_root (p : string) : bool :=
  negb (String.eqb p "") && forallb (Ascii.eqb sep) (list_ascii_of_string p).

(** The root, or a directory listed under the path [p], the path
    compared as it is written: another spelling of a listed directory
    (a trailing separator, an empty, [.] or [..] component) is not
    resolved. *)
Definition is_dir (w : world) (p : string) : bool :=
  is_root p || existsb (String.eqb p) (dirs w).

Definition is_file (w : world) (p : string) : bool :=
  existsb (fun f => String.eqb p (fst f)) (files w).

(** [os.path.exists]: false on the empty path. *)
Definition path_exists (w : world) (p : string) : bool :=
  negb (String.eqb p "") && (is_dir w p || is_file w p).

(** The proper ancestors of a path, nearest first. *)
Fixpoint ancestors (fuel : nat) (p : string) : list string :=
  match fuel with
  | O => []
  | S fuel' =>
      let d := dirname p in
      if String.eqb d "" || String.eqb d p then [] else d :: ancestors fuel' d
  end.

(** [os.makedirs(name)]: creates [name] and its missing ancestors; raises
    on the empty path, on an existing path and below a regular file. *)
Definition makedirs (w : world) (name : string) : exn + world :=
  if String.eqb name "" then inl FileNotFoundError
  else if path_exists w name then inl FileExistsError
  else if existsb (is_file w) (ancestors (String.length name) name)
  then inl NotADirectoryError
  else inr {| dirs := name :: ancestors (String.length name) name ++ dirs w;
              files := files w;
              stdout := stdout w |}.

(** [torch.save(obj, f)]: writes [obj] at path [f], replacing a file
    already there; the directory of [f] must exist. *)
Definition torch_save (w : world) (obj : P) (f : string) : exn + world :=
  let d := dirname f in
  if String.eqb f "" then inl FileNotFoundError
  else if is_dir w f then inl IsADirectoryError
  else if String.eqb d "" || is_dir w d then
    inr {| dirs := dirs w;
           files := (f, obj) :: filter (fun g => negb (String.eqb f (fst g))) (files w);
           stdout := stdout w |}
  else if is_file w d then inl NotADirectoryError
  else inl FileNotFoundError.

(** *** A state and exception monad over the object and the world *)

Definition M (A : Type) : Type :=
  component * world -> (exn + A) * (component * world).

Definition ret {A : Type} (a : A) : M A := fun s => (inr a, s).

Definition bindM {A B : Type} (m : M A) (k : A -> M B) : M B :=
  fun s =>
    match m s with
    | (inl e, s') => (inl e, s')
    | (inr a, s') => k a s'
    end.

Definition read {A : Type} (f : component -> A) : M A :=
  fun s => (inr (f (fst s)), s).

Definition assign_best_error (e : Q) : M unit :=
  fun s => (inr tt, ({| best_error := e; state_dict := state_dict (fst s) |}, snd s)).

Definition os_path_exists (p : string) : M bool :=
  fun s => (inr (path_exists (snd s) p), s).

Definition os_effect (f : world -> exn + world) : M unit :=
  fun s =>
    match f (snd s) with
    | inl e => (inl e, s)
    | inr w' => (inr tt, (fst s, w'))
    end.

Definition print (line : Q * string) : M unit :=
  fun s => (inr tt, (fst s, {| dirs := dirs (snd s);
                               files := files (snd s);
                               stdout := stdout (snd s) ++ [line] |})).

Notation "x <~ m ;; k" := (bindM m (fun x => k))
  (at level 61, m at next level, right associativity).
Notation "m ;;; k" := (bindM m (fun _ => k))
  (at level 61, right associativity).

(** [save_best_model], the same text in [VideoEncoder] and in
    [CharDecodingStep]. *)
Definition save_best_model (error : Q) (file_path : string) : M unit :=
  best <~ read best_error ;;
  if Qltb error best then
    assign_best_error error ;;;
    let folder := dirname file_path in
    found <~ os_path_exists folder ;;
    (if negb found then os_effect (fun w => makedirs w folder) else ret tt) ;;;
    parameters <~ read state_dict ;;
    os_effect (fun w => torch_save w parameters file_path) ;;;
    recorded <~ read best_error ;;
    print (recorded, file_path)
  else ret tt.

(** The object and the world after a series of calls, each exception
    caught by the caller. *)
Fixpoint after_calls (calls : list (Q * string)) (s : component * world)
  : component * world :=
  match calls with
  | [] => s
  | (e, p) :: calls' => after_calls calls' (snd (save_best_model e p s))
  end.

(** The directory step of [save_best_model]. *)
Definition ensure_folder (w : world) (folder : string) : exn + world :=
  if negb (path_exists w folder) then makedirs w folder else inr w.


End Policy.

(** A world in which the path [ckpt] is a regular file. *)
Definition world_with_file : world nat :=
  {| dirs := []; files := [("ckpt"%string, 0)]; stdout := [] |}.

End Checkpoint.

(** ** Layers and containers shared by the encoder and the decoder *)

Module NN.
Import Tensor.

(** The state of a recurrent layer: one tensor for RNN and GRU, the
    tuple [(h, c)] for LSTM. *)
Inductive rnn_state : Type :=
| StateTensor (h : tensor3)
| StateTuple (h c : tensor3).

(** [nn.Linear]: [weight] has one row per output feature. *)
Record Linear : Type := {
  weight : tensor2;
  bias : vec
}.

Definition linear (l : Linear) (x : vec) : option vec :=
  ys <- mapM (fun w => if Nat.eqb (length w) (length x)
                       then Some (dot w x) else None) (weight l) ;;
  zip_strict (fun y b => Some (y + b)%R) ys (bias l).

Definition linear2 (l : Linear) (x : tensor2) : option tensor2 :=
  mapM (linear l) x.

Definition linear3 (l : Linear) (x : tensor3) : option tensor3 :=
  mapM (linear2 l) x.

(** A Python [dict] from symbols to indices; a missing key raises. *)
Definition dict : Type := list (string * Z).

Definition getitem (d : dict) (k : string) : option Z :=
  option_map snd (find (fun e => String.eqb k (fst e)) d).

(** The position an integer index denotes in a tensor of [n] entries:
    negative indices count from the end, anything else raises. *)
Definition wrap_index (n : nat) (i : Z) : option nat :=
  if ((0 <=? i) && (i <? Z.of_nat n))%Z then Some (Z.to_nat i)
  else if ((- Z.of_nat n <=? i) && (i <? 0))%Z then Some (Z.to_nat (i + Z.of_nat n))
  else None.

Fixpoint update {A : Type} (k : nat) (v : A) (l : list A) : list A :=
  match l, k with
  | [], _ => []
  | _ :: l', O => v :: l'
  | a :: l', S k' => a :: update k' v l'
  end.

(** [t[i] = v] on a rank-1 tensor. *)
Definition setitem {A : Type} (t : list A) (i : Z) (v : A) : option (list A) :=
  k <- wrap_index (length t) i ;; Some (update k v t).

(** [torch.ones(n)] as a mask: every position allowed. *)
Definition ones (n : Z) : option (list bool) :=
  if (n <? 0)%Z then None else Some (repeat true (Z.to_nat n)).

(** [row.expand(n)] on a rank-1 tensor: the size must be [n], or 1 to be
    repeated, and [-1] keeps the size. *)
Definition expand_to {A : Type} (n : Z) (row : list A) : option (list A) :=
  if ((Z.of_nat (length row) =? n) || (n =? -1))%Z then Some row
  else match row with
       | [a] => if (0 <=? n)%Z then Some (repeat a (Z.to_nat n)) else None
       | _ => None
       end.

(** [mask.expand(batch, n)]: the same row for every batch element. *)
Definition expand_rows {A : Type} (batch : nat) (n : Z) (row : list A)
  : option (list (list A)) :=
  r <- expand_to n row ;; Some (repeat r batch).

Definition _ALLOWED_RNN_TYPES : list string := ["LSTM"; "GRU"; "RNN"]%string.
Definition _ALLOWED_FRAME_PROCESSING : list string := ["flatten"]%string.
Definition _ALLOWED_ATTENTION_TYPES : list string :=
  ["none"; "dot"; "general"; "1_layer_nn"; "concat"]%string.

Definition mem (s : string) (l : list string) : bool := existsb (String.eqb s) l.

(** [assert b]. *)
Definition assert (b : bool) : option unit := if b then Some tt else None.

End NN.

(** ** The video encoder *)

Module VideoEncoder.
Import Tensor NN.

(** The attributes set when [enable_ctc] holds. *)
Record CTCHead : Type := {
  vocab_size : Z;
  adj_vocab_size : Z;
  char2idx : dict;
  num_dirs : nat;
  output_mask : list bool;
  output_proj : Linear
}.

(** The attributes of a [VideoEncoder] other than [best_error].  The
    recurrent layer [rnn] is torch's: it maps the packed batch (one
    sequence of frames per batch element, each cut to its length) to the
    packed hidden states and the final state.  It is a function of its
    input: the state of the random generator that dropout reads in
    training mode is taken as fixed. *)
Record t : Type := {
  frame_dim : nat;
  hidden_size : nat;
  frame_processing : string;
  rnn_type : string;
  num_layers : nat;
  bidirectional : bool;
  rnn_dropout : Q;
  enable_ctc : bool;
  ctc : option CTCHead;
  rnn : list tensor2 -> list tensor2 * rnn_state
}.

Section Tokens.

(** The reserved symbols, imported from [src.data.data_loader]. *)
Variables PAD BOS : string.

(** The CTC attributes of [__init__]: index 0 is kept for the blank
    symbol, so the reserved symbols are masked one position up. *)
Definition ctc_attributes (hidden_size : nat) (bidirectional : bool)
    (vocab_size : Z) (char2idx : dict) (proj : Linear) : option CTCHead :=
  let adj_vocab_size := (vocab_size + 1)%Z in
  let num_dirs := if bidirectional then 2 else 1 in
  output_mask <- ones adj_vocab_size ;;
  pad <- getitem char2idx PAD ;;
  output_mask <- setitem output_mask (pad + 1)%Z false ;;
  bos <- getitem char2idx BOS ;;
  output_mask <- setitem output_mask (bos + 1)%Z false ;;
  Some {| vocab_size := vocab_size;
          adj_vocab_size := adj_vocab_size;
          char2idx := char2idx;
          num_dirs := num_dirs;
          output_mask := output_mask;
          output_proj := proj |}.

(** [VideoEncoder.__init__].  [rnn_layer] and [proj] stand for the
    freshly initialized [nn.LSTM]/[nn.GRU]/[nn.RNN] and [nn.Linear]. *)
Definition __init__ (frame_dim hidden_size : nat) (frame_processing rnn_type : string)
    (num_layers : nat) (bidirectional : bool) (rnn_dropout : Q) (enable_ctc : bool)
    (vocab_size : Z) (char2idx : option dict)
    (rnn_layer : list tensor2 -> list tensor2 * rnn_state) (proj : Linear)
  : option (Checkpoint.component t) :=
  _ <- assert (mem frame_processing _ALLOWED_FRAME_PROCESSING) ;;
  _ <- assert (mem rnn_type _ALLOWED_RNN_TYPES) ;;
  _ <- (if enable_ctc
        then assert ((0 <? vocab_size)%Z
                    && match char2idx with Some _ => true | None => false end)
        else Some tt) ;;
  head <- (if enable_ctc
           then match char2idx with
                | Some d => h <- ctc_attributes hidden_size bidirectional
                                   vocab_size d proj ;; Some (Some h)
                | None => None
                end
           else Some None) ;;
  Some (Checkpoint.init
          {| frame_dim := frame_dim;
             hidden_size := hidden_size;
             frame_processing := frame_processing;
             rnn_type := rnn_type;
             num_layers := num_layers;
             bidirectional := bidirectional;
             rnn_dropout := rnn_dropout;
             enable_ctc := enable_ctc;
             ctc := head;
             rnn := rnn_layer |}).

End Tokens.

(** Cutting a sequence to its length; a length beyond the sequence
    raises. *)
Definition cut (s : tensor2) (l : Z) : option tensor2 :=
  if (l <=? Z.of_nat (length s))%Z then Some (firstn (Z.to_nat l) s) else None.

Definition descending (lengths : list Z) : bool :=
  forallb (fun p => (snd p <=? fst p)%Z) (combine lengths (tl lengths)).

(** [nn.utils.rnn.pack_padded_sequence(input, lengths, batch_first=True)]
    on a batch sorted by decreasing length: a non-empty batch, one length
    per sequence, every length positive, the lengths in decreasing order,
    and each sequence cut to its length.  torch does not compare a length
    with the padded dimension itself: the packed data then comes out
    shorter than its batch sizes announce and the recurrent layer fails on
    it; the model raises at this step. *)
Definition pack_padded_sequence (input : tensor3) (lengths : list Z)
  : option (list tensor2) :=
  _ <- assert (negb (Nat.eqb (length input) 0)) ;;
  _ <- assert (Nat.eqb (length lengths) (length input)) ;;
  _ <- assert (forallb (fun l => (0 <? l)%Z) lengths) ;;
  _ <- assert (descending lengths) ;;
  zip_strict cut input lengths.

(** The pad row: zeros, as wide as the hidden states. *)
Definition zero_row (packed : list tensor2) : vec :=
  match packed with
  | (r :: _) :: _ => repeat 0%R (length r)
  | _ => []
  end.

Definition max_length (packed : list tensor2) : nat :=
  fold_right Nat.max 0 (map (@length vec) packed).

(** [nn.utils.rnn.pad_packed_sequence(packed, batch_first=True)]: every
    sequence padded with zero rows up to the longest one. *)
Definition pad_packed_sequence (packed : list tensor2) : tensor3 :=
  map (fun s => s ++ repeat (zero_row packed) (max_length packed - length s)) packed.

(** [_cat]: the even slots next to the odd slots along the feature axis. *)
Definition _cat (s : tensor3) : option tensor3 :=
  cat_dim2 (evens s) (odds s).

Definition _cat_directions (final_state : rnn_state) : option rnn_state :=
  match final_state with
  | StateTuple h c => h' <- _cat h ;; c' <- _cat c ;; Some (StateTuple h' c')
  | StateTensor s => s' <- _cat s ;; Some (StateTensor s')
  end.

(** [final_state.index_select(1, restoration_indices)], on both members
    of an LSTM state. *)
Definition restore_state (final_state : rnn_state) (restoration_indices : list nat)
  : option rnn_state :=
  match final_state with
  | StateTuple h c =>
      h' <- index_select1 h restoration_indices ;;
      c' <- index_select1 c restoration_indices ;;
      Some (StateTuple h' c')
  | StateTensor s =>
      s' <- index_select1 s restoration_indices ;; Some (StateTensor s')
  end.

(** The return statement of [forward]: with CTC, the masked
    log-probabilities come first. *)
Definition ctc_head (self : t) (hidden_states : tensor3) (final_state : rnn_state)
  : option (option tensor3 * tensor3 * rnn_state) :=
  if enable_ctc self then
    head <- ctc self ;;
    output_logits <- linear3 (output_proj head) hidden_states ;;
    mask <- expand_rows (length output_logits) (adj_vocab_size head)
              (output_mask head) ;;
    output_log_probs <- MaskedNorm.masked_log_softmax3 output_logits mask ;;
    Some (Some output_log_probs, hidden_states, final_state)
  else Some (None, hidden_states, final_state).

(** [frames.reshape(frames.shape[0], frames.shape[1], -1)]. *)
Definition flatten (frames : tensor4) : tensor3 :=
  map (map (@concat R)) frames.

(** [VideoEncoder.forward].  [__init__] admits no frame processing but
    [flatten]; frames left with four axes are not an input of the
    recurrent layer. *)
Definition forward (self : t) (frames : tensor4) (frame_lens : list Z)
  : option (option tensor3 * tensor3 * rnn_state) :=
  frames <- (if String.eqb (frame_processing self) "flatten"
             then Some (flatten frames) else None) ;;
  ' (sorted_frames, sorted_frame_lens, restoration_indices, _) <-
    Reorder.sort_batch_by_length frames frame_lens ;;
  packed_frames <- pack_padded_sequence sorted_frames sorted_frame_lens ;;
  let (packed_hidden_states, final_state) := rnn self packed_frames in
  let hidden_states := pad_packed_sequence packed_hidden_states in
  final_state <- (if bidirectional self
                  then _cat_directions final_state else Some final_state) ;;
  hidden_states <- index_select hidden_states restoration_indices ;;
  final_state <- restore_state final_state restoration_indices ;;
  ctc_head self hidden_states final_state.

(** *** Notions used in the statements *)

(** [forward] from the recurrent layer on. *)
Definition encode_packed (self : t) (packed_frames : list tensor2)
    (restoration_indices : list nat)
  : option (option tensor3 * tensor3 * rnn_state) :=
  let (packed_hidden_states, final_state) := rnn self packed_frames in
  let hidden_states := pad_packed_sequence packed_hidden_states in
  final_state <- (if bidirectional self
                  then _cat_directions final_state else Some final_state) ;;
  hidden_states <- index_select hidden_states restoration_indices ;;
  final_state <- restore_state final_state restoration_indices ;;
  ctc_head self hidden_states final_state.

(** The sorted lengths of a batch. *)
Definition sorted_lengths (lens : list Z) : list Z :=
  fst (Reorder.tensor_sort Z.geb lens).

(** Two batches of the same shape that carry the same frames up to each
    sequence's length. *)
Definition same_valid_frames (frames frames' : tensor4) (lens : list Z) : Prop :=
  forall i len s s',
    nth_error lens i = Some len ->
    nth_error frames i = Some s -> nth_error frames' i = Some s' ->
    length s = length s' /\ firstn (Z.to_nat len) s = firstn (Z.to_nat len) s'.

(** A recurrent state of shape [(n, b, h)], in both members for an
    LSTM. *)
Definition state_shape (n b h : nat) (st : rnn_state) : Prop :=
  match st with
  | StateTensor s => shape3 n b h s
  | StateTuple hh c => shape3 n b h hh /\ shape3 n b h c
  end.

(** The state vector of a layer slot and a batch position. *)
Definition entry (s : tensor3) (slot batch : nat) : option vec :=
  x <- nth_error s slot ;; nth_error x batch.

(** [out] holds, for each layer and batch element, the state of the even
    slot followed by the state of the odd slot of [raw], the batch element
    at sorted position [k] placed at [perm[k]]. *)
Definition directions_joined (perm : list nat) (raw out : tensor3) : Prop :=
  forall l k i u v,
    nth_error perm k = Some i ->
    entry raw (2 * l) k = Some u -> entry raw (2 * l + 1) k = Some v ->
    entry out l i = Some (u ++ v).

Definition state_joined (perm : list nat) (raw out : rnn_state) : Prop :=
  match raw, out with
  | StateTensor r, StateTensor o => directions_joined perm r o
  | StateTuple rh rc, StateTuple oh oc =>
      directions_joined perm rh oh /\ directions_joined perm rc oc
  | _, _ => False
  end.

(** One positive length per sequence, none beyond the padded length. *)
Definition valid_lengths (frames : tensor4) (lens : list Z) : Prop :=
  Forall2 (fun s l => (0 < l <= Z.of_nat (length s))%Z) frames lens.

(** *** An encoder instance *)

(** A recurrent layer that echoes its input as hidden states and marks
    the two direction slots of its final state with 0 and 1, next to the
    length of each sequence. *)
Definition example_rnn (p : list tensor2) : list tensor2 * rnn_state :=
  (p, StateTensor [map (fun s => [0; INR (length s)]%R) p;
                   map (fun s => [1; INR (length s)]%R) p]).

Definition example_encoder : t :=
  {| frame_dim := 2;
     hidden_size := 2;
     frame_processing := "flatten";
     rnn_type := "RNN";
     num_layers := 1;
     bidirectional := true;
     rnn_dropout := 0;
     enable_ctc := false;
     ctc := None;
     rnn := example_rnn |}.

(** Two sequences of two frames, one landmark of two coordinates each;
    the first sequence has one valid frame. *)
Definition example_frames : tensor4 :=
  [ [ [[1; 2]]; [[3; 4]] ]; [ [[5; 6]]; [[7; 8]] ] ]%R.

(** The same batch with other padding. *)
Definition example_frames' : tensor4 :=
  [ [ [[1; 2]]; [[9; 9]] ]; [ [[5; 6]]; [[7; 8]] ] ]%R.

Definition example_lens : list Z := [1; 2]%Z.

(** An encoder with the CTC head over the vocabulary of four symbols. *)
Definition example_ctc_proj : Linear :=
  {| weight := [[1; 0]; [0; 1]; [1; 1]; [1; -1]; [0; 0]]%R;
     bias := [0; 0; 0; 0; 0]%R |}.

Definition example_ctc_dict : dict :=
  [("<pad>", 0); ("<bos>", 1); ("a", 2); ("b", 3)]%string%Z.

Definition example_ctc_encoder : t :=
  {| frame_dim := 2;
     hidden_size := 2;
     frame_processing := "flatten";
     rnn_type := "RNN";
     num_layers := 1;
     bidirectional := true;
     rnn_dropout := 0;
     enable_ctc := true;
     ctc := Some {| vocab_size := 4;
                    adj_vocab_size := 5;
                    char2idx := example_ctc_dict;
                    num_dirs := 2;
                    output_mask := [true; false; false; true; true];
                    output_proj := example_ctc_proj |};
     rnn := example_rnn |}.

(** *** Notions for the shapes and the unidirectional case *)

(** The longest length of a batch. *)
Definition longest (lens : list Z) : Z := fold_right Z.max 0%Z lens.

(** [out] holds the states of [raw] layer by layer, the batch element at
    sorted position [k] placed at [perm[k]]. *)
Definition layers_restored (perm : list nat) (raw out : tensor3) : Prop :=
  forall l k i,
    nth_error perm k = Some i -> entry out l i = entry raw l k.

Definition state_restored (perm : list nat) (raw out : rnn_state) : Prop :=
  match raw, out with
  | StateTensor r, StateTensor o => layers_restored perm r o
  | StateTuple rh rc, StateTuple oh oc =>
      layers_restored perm rh oh /\ layers_restored perm rc oc
  | _, _ => False
  end.

(** The number of layer and direction slots of a state is odd, in one
    member at least for an LSTM. *)
Definition odd_slots (st : rnn_state) : bool :=
  match st with
  | StateTensor s => Nat.odd (length s)
  | StateTuple h c => Nat.odd (length h) || Nat.odd (length c)
  end.

(** A unidirectional encoder of two layers around the same recurrent
    layer. *)
Definition example_encoder_uni : t :=
  {| frame_dim := 2;
     hidden_size := 2;
     frame_processing := "flatten";
     rnn_type := "RNN";
     num_layers := 2;
     bidirectional := false;
     rnn_dropout := 0;
     enable_ctc := false;
     ctc := None;
     rnn := example_rnn |}.

End VideoEncoder.

(** ** The character decoding step *)

Module CharDecodingStep.
Import Tensor NN.

(** The attributes of a [CharDecodingStep] other than [best_error].  The
    recurrent layer [rnn] is torch's: it maps the embedded characters,
    of shape [(batch, 1, char_dim)], and the previous state to the hidden
    state of the step and the new state, and raises on mismatched
    shapes; the state of the random generator that dropout reads in
    training mode is taken as fixed.  An attention projection that was
    not created is [None]. *)
Record t : Type := {
  hidden_size : nat;
  rnn_type : string;
  num_layers : nat;
  rnn_dropout : Q;
  char_dim : nat;
  vocab_size : Z;
  char2idx : dict;
  attention_type : string;
  output_mask : list bool;
  embedding : tensor2;
  rnn : tensor3 -> rnn_state -> option (tensor3 * rnn_state);
  attn_proj_1_layer_nn : option Linear;
  attn_proj_general : option Linear;
  attn_proj_layer1 : option Linear;
  attn_proj_layer2 : option Linear;
  concat_layer : Linear;
  output_proj : Linear
}.

Section Tokens.

(** The reserved symbols, imported from [src.data.data_loader]. *)
Variables PAD BOS : string.

(** The output mask of [__init__]: every symbol allowed but [PAD] and
    [BOS]. *)
Definition reserved_mask (vocab_size : Z) (char2idx : dict) : option (list bool) :=
  output_mask <- ones vocab_size ;;
  pad <- getitem char2idx PAD ;;
  output_mask <- setitem output_mask pad false ;;
  bos <- getitem char2idx BOS ;;
  setitem output_mask bos false.

(** [CharDecodingStep.__init__].  The weights and layers stand for the
    freshly initialized [nn.Embedding], recurrent layer and [nn.Linear]
    layers. *)
Definition __init__ (encoder : VideoEncoder.t) (char_dim : nat) (vocab_size : Z)
    (char2idx : dict) (rnn_dropout : Q) (attention_type : string)
    (attn_hidden_size : Z) (embedding_weight : tensor2)
    (rnn_layer : tensor3 -> rnn_state -> option (tensor3 * rnn_state))
    (proj_1_layer_nn proj_general proj_layer1 proj_layer2 concat_l output_l : Linear)
  : option (Checkpoint.component t) :=
  _ <- assert (mem attention_type _ALLOWED_ATTENTION_TYPES) ;;
  _ <- (if String.eqb attention_type "concat"
        then assert (0 <? attn_hidden_size)%Z else Some tt) ;;
  output_mask <- reserved_mask vocab_size char2idx ;;
  Some (Checkpoint.init
          {| hidden_size := VideoEncoder.hidden_size encoder
                            * (if VideoEncoder.bidirectional encoder then 2 else 1);
             rnn_type := VideoEncoder.rnn_type encoder;
             num_layers := VideoEncoder.num_layers encoder;
             rnn_dropout := rnn_dropout;
             char_dim := char_dim;
             vocab_size := vocab_size;
             char2idx := char2idx;
             attention_type := attention_type;
             output_mask := output_mask;
             embedding := embedding_weight;
             rnn := rnn_layer;
             attn_proj_1_layer_nn :=
               if String.eqb attention_type "1_layer_nn"
               then Some proj_1_layer_nn else None;
             attn_proj_general :=
               if String.eqb attention_type "general"
               then Some proj_general else None;
             attn_proj_layer1 :=
               if String.eqb attention_type "concat" then Some proj_layer1 else None;
             attn_proj_layer2 :=
               if String.eqb attention_type "concat" then Some proj_layer2 else None;
             concat_layer := concat_l;
             output_proj := output_l |}).

End Tokens.

(** [encoder_hidden_states.shape[1]]. *)
Definition en_seq_len_of (e : tensor3) : nat :=
  match e with
  | r :: _ => length r
  | [] => 0
  end.

(** [torch.arange(en_seq_len).expand(batch_size, en_seq_len)
     < encoder_lens.unsqueeze(dim=1)], with the broadcasting of the batch
    axis: equal sizes, or one of them 1. *)
Definition below (en_seq_len : nat) (l : Z) : list bool :=
  map (fun t => (Z.of_nat t <? l)%Z) (seq 0 en_seq_len).

Definition encoder_mask_of (batch_size en_seq_len : nat) (encoder_lens : list Z)
  : option (list (list bool)) :=
  if Nat.eqb (length encoder_lens) batch_size
  then Some (map (below en_seq_len) encoder_lens)
  else match encoder_lens with
       | [l] => Some (repeat (below en_seq_len l) batch_size)
       | _ => if Nat.eqb batch_size 1
              then Some (map (below en_seq_len) encoder_lens) else None
       end.

(** [nn.Embedding]: the row of the weight at a token id. *)
Definition embed (weight : tensor2) (i : Z) : option vec :=
  if (i <? 0)%Z then None else nth_error weight (Z.to_nat i).

(** Expanding one axis to size [n]: the size is [n] already, or 1. *)
Definition expand_list {A : Type} (n : nat) (l : list A) : option (list A) :=
  if Nat.eqb (length l) n then Some l
  else match l with
       | [a] => Some (repeat a n)
       | _ => None
       end.

(** [h.expand_as(e)] on rank-3 tensors. *)
Definition expand_as (h e : tensor3) : option tensor3 :=
  rows <- expand_list (length e) h ;;
  zip_strict
    (fun hb eb =>
       steps <- expand_list (length eb) hb ;;
       zip_strict (fun hv ev => expand_list (length ev) hv) steps eb)
    rows e.

(** [x.squeeze(dim=-1)] and [x.squeeze(dim=1)] on axes of size 1, as
    the layers of [__init__] produce them. *)
Definition squeeze_last (x : tensor3) : option tensor2 :=
  mapM (mapM (fun v : vec => match v with [a] => Some a | _ => None end)) x.

Definition squeeze1 (x : tensor3) : option tensor2 :=
  mapM (fun hb : tensor2 => match hb with [v] => Some v | _ => None end) x.

Definition dot_checked (u v : vec) : option R :=
  if Nat.eqb (length u) (length v) then Some (dot u v) else None.

(** The product of the [(1, hidden_size)] and [(hidden_size, 1)] views. *)
Definition bilinear (hidden_size : nat) (u v : vec) : option R :=
  if Nat.eqb (length u) hidden_size && Nat.eqb (length v) hidden_size
  then Some (dot u v) else None.

Definition vec_add (u v : vec) : vec :=
  map (fun p => (fst p + snd p)%R) (combine u v).

(** [encoder_hidden_states.shape[2]] for one batch element.  Nested
    lists do not record the width of a tensor without timesteps: it is
    then the width [forward] declares for its argument, of shape
    [(batch_size, en_seq_len, hidden_size)]. *)
Definition state_width (hidden_size : nat) (rows : tensor2) : nat :=
  match rows with
  | r :: _ => length r
  | [] => hidden_size
  end.

(** One row of [attn_weights.bmm(encoder_hidden_states)]: the sum of the
    encoder states weighted by the attention weights, a zero vector of
    the states' width when there is no timestep. *)
Definition weighted_sum (hidden_size : nat) (w : vec) (rows : tensor2)
  : option vec :=
  if Nat.eqb (length w) (length rows)
  then Some (fold_right
               (fun p acc => vec_add (map (Rmult (fst p)) (snd p)) acc)
               (repeat 0%R (state_width hidden_size rows))
               (combine w rows))
  else None.

(** [CharDecodingStep.forward]. *)
Definition forward (self : t) (input_ : list Z) (previous_state : rnn_state)
    (encoder_lens : list Z) (encoder_hidden_states : tensor3)
  : option (tensor2 * rnn_state) :=
  let batch_size := length input_ in
  let en_seq_len := en_seq_len_of encoder_hidden_states in
  encoder_mask <- encoder_mask_of batch_size en_seq_len encoder_lens ;;
  embedded_char <- mapM (embed (embedding self)) input_ ;;
  let embedded_char := map (fun e => [e]) embedded_char in
  ' (hidden_state, final_state) <- rnn self embedded_char previous_state ;;
  expanded_hidden_state <- expand_as hidden_state encoder_hidden_states ;;
  attn_logits <-
    (if String.eqb (attention_type self) "1_layer_nn" then
       concat_hidden_state <- cat_dim2 encoder_hidden_states expanded_hidden_state ;;
       proj <- attn_proj_1_layer_nn self ;;
       scores <- linear3 proj concat_hidden_state ;;
       attn_logits <- squeeze_last scores ;;
       Some (Some attn_logits)
     else if String.eqb (attention_type self) "general" then
       proj <- attn_proj_general self ;;
       intermediate_step <- linear3 proj expanded_hidden_state ;;
       attn_logits <- zip_strict (zip_strict (bilinear (hidden_size self)))
                        intermediate_step encoder_hidden_states ;;
       Some (Some attn_logits)
     else if String.eqb (attention_type self) "dot" then
       attn_logits <- zip_strict (zip_strict dot_checked)
                        expanded_hidden_state encoder_hidden_states ;;
       Some (Some attn_logits)
     else if String.eqb (attention_type self) "concat" then
       concat_hidden_state <- cat_dim2 encoder_hidden_states expanded_hidden_state ;;
       proj1 <- attn_proj_layer1 self ;;
       scores <- linear3 proj1 concat_hidden_state ;;
       proj2 <- attn_proj_layer2 self ;;
       scores <- linear3 proj2 (map (map (map tanh)) scores) ;;
       attn_logits <- squeeze_last scores ;;
       Some (Some attn_logits)
     else Some None) ;;
  output_logits <-
    (if negb (String.eqb (attention_type self) "none") then
       attn_logits <- attn_logits ;;
       attn_weights <- MaskedNorm.masked_softmax attn_logits encoder_mask ;;
       context <- zip_strict (weighted_sum (hidden_size self)) attn_weights
                    encoder_hidden_states ;;
       step <- squeeze1 hidden_state ;;
       fused <- zip_strict (fun c h => Some (c ++ h)) context step ;;
       new_hidden_state <- linear2 (concat_layer self) fused ;;
       linear2 (output_proj self) (map (map tanh) new_hidden_state)
     else
       step <- squeeze1 hidden_state ;;
       linear2 (output_proj self) step) ;;
  mask <- expand_rows batch_size (vocab_size self) (output_mask self) ;;
  output_log_probs <- MaskedNorm.masked_log_softmax output_logits mask ;;
  Some (output_log_probs, final_state).

(** *** Notions used in the statements *)

(** Two rank-3 tensors of the same shape. *)
Definition same_shape (e e' : tensor3) : Prop :=
  Forall2 (Forall2 (fun u v : vec => length u = length v)) e e'.

(** *** A decoder instance *)

(** A recurrent layer that returns the embedded character as hidden
    state and keeps its state. *)
Definition example_rnn (embedded : tensor3) (st : rnn_state)
  : option (tensor3 * rnn_state) :=
  Some (embedded, st).

Definition example_char2idx : dict :=
  [("<pad>", 0); ("<bos>", 1); ("a", 2); ("b", 3)]%string%Z.

Definition example_embedding : tensor2 := [[0; 0]; [1; 0]; [0; 1]; [1; 1]]%R.

Definition example_concat_layer : Linear :=
  {| weight := [[1; 0; 0; 0]; [0; 0; 0; 1]]%R; bias := [0; 0]%R |}.

Definition example_output_proj : Linear :=
  {| weight := [[1; 0]; [0; 1]; [1; 1]; [1; -1]]%R; bias := [0; 0; 0; 0]%R |}.

(** A bidirectional encoder of hidden size 1, which gives the decoder
    hidden size 2. *)
Definition example_encoder : VideoEncoder.t :=
  {| VideoEncoder.frame_dim := 2;
     VideoEncoder.hidden_size := 1;
     VideoEncoder.frame_processing := "flatten";
     VideoEncoder.rnn_type := "RNN";
     VideoEncoder.num_layers := 1;
     VideoEncoder.bidirectional := true;
     VideoEncoder.rnn_dropout := 0;
     VideoEncoder.enable_ctc := false;
     VideoEncoder.ctc := None;
     VideoEncoder.rnn := VideoEncoder.example_rnn |}.

(** The decoder that [__init__] builds for an attention type without
    projections of its own. *)
Definition example_decoder (attention : string) : t :=
  {| hidden_size := 2;
     rnn_type := "RNN";
     num_layers := 1;
     rnn_dropout := 0;
     char_dim := 2;
     vocab_size := 4;
     char2idx := example_char2idx;
     attention_type := attention;
     output_mask := [false; false; true; true];
     embedding := example_embedding;
     rnn := example_rnn;
     attn_proj_1_layer_nn := None;
     attn_proj_general := None;
     attn_proj_layer1 := None;
     attn_proj_layer2 := None;
     concat_layer := example_concat_layer;
     output_proj := example_output_proj |}.

(** Encoder states for one sequence of two timesteps, and the same shape
    with other values. *)
Definition example_states : tensor3 := [[[1; 0]; [0; 1]]]%R.
Definition example_states' : tensor3 := [[[5; 7]; [2; 3]]]%R.

Definition example_state : rnn_state := StateTensor [[[0; 0]]]%R.

(** *** Notions for two runs that differ at padded encoder timesteps *)

(** The attention scores of [forward], by attention type; no scores for
    the type [none]. *)
Definition attn_logits_of (self : t)
    (expanded_hidden_state encoder_hidden_states : tensor3)
  : option (option tensor2) :=
  if String.eqb (attention_type self) "1_layer_nn" then
    concat_hidden_state <- cat_dim2 encoder_hidden_states expanded_hidden_state ;;
    proj <- attn_proj_1_layer_nn self ;;
    scores <- linear3 proj concat_hidden_state ;;
    attn_logits <- squeeze_last scores ;;
    Some (Some attn_logits)
  else if String.eqb (attention_type self) "general" then
    proj <- attn_proj_general self ;;
    intermediate_step <- linear3 proj expanded_hidden_state ;;
    attn_logits <- zip_strict (zip_strict (bilinear (hidden_size self)))
                     intermediate_step encoder_hidden_states ;;
    Some (Some attn_logits)
  else if String.eqb (attention_type self) "dot" then
    attn_logits <- zip_strict (zip_strict dot_checked)
                     expanded_hidden_state encoder_hidden_states ;;
    Some (Some attn_logits)
  else if String.eqb (attention_type self) "concat" then
    concat_hidden_state <- cat_dim2 encoder_hidden_states expanded_hidden_state ;;
    proj1 <- attn_proj_layer1 self ;;
    scores <- linear3 proj1 concat_hidden_state ;;
    proj2 <- attn_proj_layer2 self ;;
    scores <- linear3 proj2 (map (map (map tanh)) scores) ;;
    attn_logits <- squeeze_last scores ;;
    Some (Some attn_logits)
  else Some None.

(** The output scores of [forward], from the attention scores on. *)
Definition output_logits_of (self : t) (encoder_mask : list (list bool))
    (attn_logits : option tensor2) (hidden_state encoder_hidden_states : tensor3)
  : option tensor2 :=
  if negb (String.eqb (attention_type self) "none") then
    attn_logits <- attn_logits ;;
    attn_weights <- MaskedNorm.masked_softmax attn_logits encoder_mask ;;
    context <- zip_strict (weighted_sum (hidden_size self)) attn_weights
                 encoder_hidden_states ;;
    step <- squeeze1 hidden_state ;;
    fused <- zip_strict (fun c h => Some (c ++ h)) context step ;;
    new_hidden_state <- linear2 (concat_layer self) fused ;;
    linear2 (output_proj self) (map (map tanh) new_hidden_state)
  else
    step <- squeeze1 hidden_state ;;
    linear2 (output_proj self) step.

(** Two lists related entry by entry, the relation chosen by the entry
    of a third list at the same position; the three have one length. *)
Fixpoint rel3 {M A : Type} (T : M -> A -> A -> Prop) (ms : list M)
    (x x' : list A) : Prop :=
  match ms, x, x' with
  | [], [], [] => True
  | m :: ms', a :: y, a' :: y' => T m a a' /\ rel3 T ms' y y'
  | _, _, _ => False
  end.

(** Two outcomes that both raise, or both return related values. *)
Definition opt_rel {A : Type} (T : A -> A -> Prop) (o o' : option A) : Prop :=
  match o, o' with
  | Some a, Some a' => T a a'
  | None, None => True
  | _, _ => False
  end.

(** Two vectors at a timestep: the same where the timestep is valid, of
    the same size where it is padding. *)
Definition same_if_valid (valid : bool) (u v : vec) : Prop :=
  if valid then u = v else length u = length v.

(** Two scores at a timestep: the same where the timestep is valid. *)
Definition same_score_if_valid (valid : bool) (r r' : R) : Prop :=
  if valid then r = r' else True.

(** Two batches of encoder states of one shape that carry the same
    states up to each sequence's length. *)
Definition same_valid_states (lens : list Z) (e e' : tensor3) : Prop :=
  same_shape e e' /\
  forall b l eb eb',
    nth_error lens b = Some l ->
    nth_error e b = Some eb -> nth_error e' b = Some eb' ->
    firstn (Z.to_nat l) eb = firstn (Z.to_nat l) eb'.

(** The encoder states of the instance with other values at the second
    timestep. *)
Definition example_states_padded : tensor3 := [[[1; 0]; [9; 9]]]%R.

End CharDecodingStep.

(** ** The reserved symbols in the output distributions *)

Module Reserved.
Import Tensor NN.

(** The entry of a log-probability row at a Python index is the
    sentinel that stands for probability zero. *)
Definition masked_at (row : vec) (i : Z) : Prop :=
  exists k, wrap_index (length row) i = Some k /\
            nth_error row k = Some MaskedNorm.neg_sentinel.

End Reserved.

(** * Part II: the properties *)

(** ** Facts: tensors *)

Module TensorFacts.
Import Tensor.

(** *** Facts on the tensor operations *)

Lemma nth_error_combine {A B : Type} (l1 : list A) (l2 : list B) (r : nat) :
  nth_error (combine l1 l2) r =
  match nth_error l1 r, nth_error l2 r with
  | Some a, Some b => Some (a, b)
  | _, _ => None
  end.
Proof.
  revert l2 r.
  induction l1 as [|a l1 IH]; intros [|b l2] [|r]; simpl; try reflexivity.
  - destruct (nth_error l1 r); reflexivity.
  - apply IH.
Qed.

Lemma zip_strict_total {A B C : Type} (f : A -> B -> option C) (g : A -> B -> C)
    (l1 : list A) (l2 : list B) :
  Forall2 (fun a b => f a b = Some (g a b)) l1 l2 ->
  zip_strict f l1 l2 = Some (map (fun p => g (fst p) (snd p)) (combine l1 l2)).
Proof.
  induction 1 as [|a b l1 l2 Hab _ IH]; simpl.
  - reflexivity.
  - rewrite Hab, IH. reflexivity.
Qed.

Lemma mapM_length {A B : Type} (f : A -> option B) (l : list A) (out : list B) :
  mapM f l = Some out -> length out = length l.
Proof.
  revert out. induction l as [|a l IH]; simpl; intros out H.
  - inversion H. reflexivity.
  - destruct (f a); simpl in H; [|discriminate].
    destruct (mapM f l) eqn:E; simpl in H; [|discriminate].
    inversion H; subst. simpl. f_equal. apply IH. reflexivity.
Qed.

Lemma mapM_nth_error {A B : Type} (f : A -> option B) (l : list A) (out : list B)
    (i : nat) :
  mapM f l = Some out ->
  nth_error out i = match nth_error l i with Some a => f a | None => None end.
Proof.
  revert out i. induction l as [|a l IH]; simpl; intros out i H.
  - inversion H. destruct i; reflexivity.
  - destruct (f a) eqn:Ea; simpl in H; [|discriminate].
    destruct (mapM f l) eqn:E; simpl in H; [|discriminate].
    inversion H; subst. destruct i; simpl.
    + symmetry. exact Ea.
    + apply IH. reflexivity.
Qed.

Lemma mapM_ext_in {A B : Type} (f g : A -> option B) (l : list A) :
  (forall a, In a l -> f a = g a) -> mapM f l = mapM g l.
Proof.
  induction l as [|a l IH]; simpl; intros H.
  - reflexivity.
  - rewrite (H a) by (left; reflexivity).
    rewrite IH by (intros b Hb; apply H; right; exact Hb).
    reflexivity.
Qed.

Lemma zip_strict_nth_error {A B C : Type} (f : A -> B -> option C)
    (l1 : list A) (l2 : list B) (out : list C) (k : nat) :
  zip_strict f l1 l2 = Some out ->
  nth_error out k =
  match nth_error l1 k, nth_error l2 k with
  | Some a, Some b => f a b
  | _, _ => None
  end.
Proof.
  revert l2 out k.
  induction l1 as [|a l1 IH]; intros [|b l2] out k H; simpl in H; try discriminate.
  - inversion H. destruct k; reflexivity.
  - destruct (f a b) eqn:Ef; simpl in H; [|discriminate].
    destruct (zip_strict f l1 l2) eqn:E; simpl in H; [|discriminate].
    inversion H; subst. destruct k; simpl.
    + symmetry. exact Ef.
    + apply IH. exact E.
Qed.

(** Zipping two tensors picked by the same indices is picking the
    zipped rows. *)
Lemma zip_strict_select {A B C : Type} (f : A -> B -> option C)
    (xs : list A) (ys : list B) (idx : list nat) (xs' : list A) (ys' : list B) :
  index_select xs idx = Some xs' ->
  index_select ys idx = Some ys' ->
  zip_strict f xs' ys' =
  mapM (fun k => x <- nth_error xs k ;; y <- nth_error ys k ;; f x y) idx.
Proof.
  unfold index_select. revert xs' ys'.
  induction idx as [|k idx IH]; simpl; intros xs' ys' Hx Hy.
  - inversion Hx; inversion Hy. reflexivity.
  - destruct (nth_error xs k) as [x|]; simpl in Hx; [|discriminate].
    destruct (mapM (nth_error xs) idx) as [xr|]; simpl in Hx; [|discriminate].
    destruct (nth_error ys k) as [y|]; simpl in Hy; [|discriminate].
    destruct (mapM (nth_error ys) idx) as [yr|]; simpl in Hy; [|discriminate].
    inversion Hx; inversion Hy; subst. simpl.
    rewrite (IH xr yr eq_refl eq_refl). reflexivity.
Qed.

(** *** Slices with step two and concatenation along the last axis *)

Lemma evens_odds_nth_error {A : Type} (s : list A) (l : nat) :
  nth_error (evens s) l = nth_error s (2 * l) /\
  nth_error (odds s) l = nth_error s (2 * l + 1).
Proof.
  revert l. induction s as [|a s IH]; intros l.
  - simpl evens. simpl odds. rewrite !nth_error_nil. split; reflexivity.
  - split.
    + destruct l as [|l]; [reflexivity|].
      simpl evens. simpl nth_error at 1.
      replace (2 * S l) with (S (2 * l + 1)) by lia.
      simpl. apply IH.
    + simpl odds. replace (2 * l + 1) with (S (2 * l)) by lia.
      simpl nth_error at 2. apply IH.
Qed.

Lemma evens_odds_length {A : Type} (s : list A) :
  length (evens s) = Nat.div2 (S (length s)) /\
  length (odds s) = Nat.div2 (length s).
Proof.
  induction s as [|a s [IH1 IH2]]; [split; reflexivity|].
  split.
  - simpl evens. simpl length. rewrite IH2. reflexivity.
  - simpl odds. simpl length. exact IH1.
Qed.

Lemma evens_odds_length_double {A : Type} (s : list A) (n : nat) :
  length s = 2 * n -> length (evens s) = n /\ length (odds s) = n.
Proof.
  intros H. destruct (evens_odds_length s) as [H1 H2].
  rewrite H1, H2, H. split.
  - apply Nat.div2_succ_double.
  - apply Nat.div2_double.
Qed.

Lemma Forall2_of_Forall {A B : Type} (P : A -> Prop) (Q : B -> Prop)
    (l1 : list A) (l2 : list B) :
  length l1 = length l2 -> Forall P l1 -> Forall Q l2 ->
  Forall2 (fun a b => P a /\ Q b) l1 l2.
Proof.
  revert l2. induction l1 as [|a l1 IH]; intros [|b l2] Hlen H1 H2;
    simpl in Hlen; try discriminate; constructor.
  - inversion H1; inversion H2; subst. split; assumption.
  - inversion H1; inversion H2; subst. apply IH; [lia | assumption | assumption].
Qed.

Lemma zip_append_rows {A : Type} (x y : list (list A)) :
  length x = length y ->
  zip_strict (fun u v => Some (u ++ v)) x y = Some (append_rows x y).
Proof.
  intros H. apply (zip_strict_total _ (fun u v => u ++ v)).
  revert y H. induction x as [|u x IH]; intros [|v y] H; simpl in H;
    try discriminate; constructor.
  - reflexivity.
  - apply IH. lia.
Qed.

Lemma append_rows_shape {A : Type} (x y : list (list A)) (m w : nat) :
  shape2 m w x -> shape2 m w y -> shape2 m (2 * w) (append_rows x y).
Proof.
  intros [Lx Fx] [Ly Fy]. unfold append_rows. split.
  - rewrite length_map, length_combine. lia.
  - rewrite Forall_forall in *. intros r Hr.
    apply in_map_iff in Hr. destruct Hr as ([u v] & <- & Hin).
    simpl. rewrite length_app.
    rewrite (Fx u (in_combine_l _ _ _ _ Hin)), (Fy v (in_combine_r _ _ _ _ Hin)).
    lia.
Qed.

Lemma append_rows_nth_error {A : Type} (x y : list (list A)) (k : nat)
    (u v : list A) :
  nth_error x k = Some u -> nth_error y k = Some v ->
  nth_error (append_rows x y) k = Some (u ++ v).
Proof.
  intros Hu Hv. unfold append_rows.
  rewrite nth_error_map, nth_error_combine, Hu, Hv. reflexivity.
Qed.

(** Concatenating two rank-3 tensors of one shape along the last axis. *)
Lemma cat_dim2_spec {A : Type} (a b : list (list (list A))) (n m w : nat) :
  shape3 n m w a -> shape3 n m w b ->
  exists out,
    cat_dim2 a b = Some out /\
    shape3 n m (2 * w) out /\
    forall l x y, nth_error a l = Some x -> nth_error b l = Some y ->
                  nth_error out l = Some (append_rows x y).
Proof.
  intros [La Fa] [Lb Fb].
  exists (map (fun p => append_rows (fst p) (snd p)) (combine a b)).
  split; [|split].
  - unfold cat_dim2. apply zip_strict_total.
    eapply Forall2_impl;
      [|apply (@Forall2_of_Forall _ _ (shape2 m w) (shape2 m w) a b);
        [lia | exact Fa | exact Fb]].
    intros x y [[Lx _] [Ly _]]. apply zip_append_rows. lia.
  - split.
    + rewrite length_map, length_combine. lia.
    + rewrite Forall_forall in *. intros z Hz.
      apply in_map_iff in Hz. destruct Hz as ([x y] & <- & Hin). simpl.
      apply append_rows_shape.
      * apply Fa. apply (in_combine_l _ _ _ _ Hin).
      * apply Fb. apply (in_combine_r _ _ _ _ Hin).
  - intros l x y Hx Hy.
    rewrite nth_error_map, nth_error_combine, Hx, Hy. reflexivity.
Qed.

Lemma mapM_some {A B : Type} (f : A -> option B) (l : list A) :
  (forall a, In a l -> exists b, f a = Some b) ->
  exists out, mapM f l = Some out.
Proof.
  induction l as [|a l IH]; simpl; intros H.
  - eexists. reflexivity.
  - destruct (H a (or_introl eq_refl)) as [b Hb]. rewrite Hb. simpl.
    destruct IH as [out Hout]; [intros c Hc; apply H; right; exact Hc|].
    rewrite Hout. simpl. eexists. reflexivity.
Qed.

Lemma zip_strict_length {A B C : Type} (f : A -> B -> option C)
    (l1 : list A) (l2 : list B) (out : list C) :
  zip_strict f l1 l2 = Some out ->
  length l1 = length l2 /\ length out = length l1.
Proof.
  revert l2 out. induction l1 as [|a l1 IH]; intros [|b l2] out H;
    simpl in H; try discriminate.
  - inversion H. split; reflexivity.
  - destruct (f a b) as [c|]; simpl in H; [|discriminate].
    destruct (zip_strict f l1 l2) as [cs|] eqn:E; simpl in H; [|discriminate].
    inversion H; subst. destruct (IH _ _ E) as [H1 H2].
    simpl. split; congruence.
Qed.

Lemma zip_strict_length_mismatch {A B C : Type} (f : A -> B -> option C)
    (l1 : list A) (l2 : list B) :
  length l1 <> length l2 -> zip_strict f l1 l2 = None.
Proof.
  intros H. destruct (zip_strict f l1 l2) as [out|] eqn:E; [|reflexivity].
  apply zip_strict_length in E. destruct E as [E _]. contradiction.
Qed.

Lemma mapM_In {A B : Type} (f : A -> option B) (l : list A) (out : list B) (b : B) :
  mapM f l = Some out -> In b out -> exists a, In a l /\ f a = Some b.
Proof.
  revert out. induction l as [|a l IH]; intros out H Hb; simpl in H.
  - inversion H; subst. contradiction.
  - destruct (f a) as [b0|] eqn:Ea; simpl in H; [|discriminate].
    destruct (mapM f l) as [bs|] eqn:E; simpl in H; [|discriminate].
    inversion H; subst. destruct Hb as [Hb|Hb].
    + subst b0. exists a. split; [left; reflexivity|exact Ea].
    + destruct (IH _ eq_refl Hb) as (a' & Ha' & Hf).
      exists a'. split; [right; exact Ha'|exact Hf].
Qed.

Lemma mapM_fails {A B : Type} (f : A -> option B) (l : list A) (a : A) :
  In a l -> f a = None -> mapM f l = None.
Proof.
  intros Ha Hf. induction l as [|x l IH]; [contradiction|]. simpl.
  destruct Ha as [Ha|Ha].
  - subst x. rewrite Hf. reflexivity.
  - rewrite (IH Ha). destruct (f x); reflexivity.
Qed.

End TensorFacts.

(** ** Facts: masked normalization ([masked_softmax], [masked_log_softmax]) *)

Module MaskedNormFacts.
Import Tensor TensorFacts MaskedNorm.
Local Open Scope R_scope.

(** *** Row lemmas *)

Lemma rsum_map_div (s : R) (l : list R) :
  rsum (map (fun e => e / s) l) = rsum l / s.
Proof.
  induction l as [|a l IH]; simpl.
  - unfold Rdiv. ring.
  - rewrite IH. unfold Rdiv. ring.
Qed.

Lemma unmasked_map {A B : Type} (f : A -> B) (m : list bool) (x : list A) :
  unmasked m (map f x) = map f (unmasked m x).
Proof.
  unfold unmasked. revert x.
  induction m as [|b m IH]; intros [|a x]; simpl; try reflexivity.
  destruct b; simpl; rewrite IH; reflexivity.
Qed.

Lemma masked_exps_length (c : R) (m : list bool) (x : vec) :
  length x = length m -> length (masked_exps c m x) = length x.
Proof.
  intros H. unfold masked_exps.
  rewrite length_map, length_combine. lia.
Qed.

Lemma masked_exps_unmasked_sum (c : R) (m : list bool) (x : vec) :
  rsum (unmasked m (masked_exps c m x)) = rsum (masked_exps c m x).
Proof.
  unfold unmasked, masked_exps. revert x.
  induction m as [|b m IH]; intros [|a x]; simpl; try reflexivity.
  destruct b; simpl; rewrite IH; unfold masked_exp; simpl; ring.
Qed.

Lemma masked_exps_nonneg (c : R) (m : list bool) (x : vec) :
  0 <= rsum (masked_exps c m x).
Proof.
  unfold masked_exps. revert x.
  induction m as [|b m IH]; intros [|a x]; simpl; try lra.
  specialize (IH x). destruct b; unfold masked_exp in *; simpl in *.
  - pose proof (exp_pos (a - c)). lra.
  - lra.
Qed.

Lemma masked_exps_pos (c : R) (m : list bool) (x : vec) :
  length x = length m -> has_unmasked m = true -> 0 < rsum (masked_exps c m x).
Proof.
  revert x.
  unfold has_unmasked.
  induction m as [|b m IH]; intros [|a x] Hlen Hex; simpl in *; try discriminate.
  pose proof (masked_exps_nonneg c m x) as Hnn.
  fold (masked_exps c m x).
  destruct b; unfold masked_exp; simpl in *.
  - pose proof (exp_pos (a - c)). lra.
  - assert (0 < rsum (masked_exps c m x)) by (apply IH; [lia | exact Hex]). lra.
Qed.

Lemma masked_exps_masked (c : R) (m : list bool) (x : vec) (j : nat) :
  length x = length m -> nth_error m j = Some false ->
  nth_error (masked_exps c m x) j = Some 0.
Proof.
  revert x j.
  induction m as [|b m IH]; intros [|a x] [|j] Hlen Hj; simpl in *; try discriminate.
  - inversion Hj; subst. reflexivity.
  - apply IH; [lia | exact Hj].
Qed.

Lemma log_row_exp_sum (c L : R) (m : list bool) (x : vec) :
  rsum (map exp (unmasked m
    (map (fun p : bool * R => if fst p then snd p - c - L else neg_sentinel)
         (combine m x))))
  = rsum (masked_exps c m x) * exp (- L).
Proof.
  unfold unmasked, masked_exps. revert x.
  induction m as [|b m IH]; intros [|a x]; simpl; try ring.
  destruct b; simpl; rewrite IH; unfold masked_exp; simpl.
  - replace (a - c - L) with ((a - c) + - L) by ring.
    rewrite exp_plus. ring.
  - ring.
Qed.

Lemma log_row_masked (c L : R) (m : list bool) (x : vec) (j : nat) :
  length x = length m -> nth_error m j = Some false ->
  nth_error (map (fun p : bool * R => if fst p then snd p - c - L else neg_sentinel)
               (combine m x)) j = Some neg_sentinel.
Proof.
  revert x j.
  induction m as [|b m IH]; intros [|a x] [|j] Hlen Hj; simpl in *; try discriminate.
  - inversion Hj; subst. reflexivity.
  - apply IH; [lia | exact Hj].
Qed.

(** The softmax row: masked positions are exactly zero and the unmasked
    probabilities add up to one. *)
Lemma masked_softmax_row_spec (x : vec) (m : list bool) :
  length x = length m -> has_unmasked m = true ->
  length (masked_softmax_row x m) = length x /\
  (forall j, nth_error m j = Some false ->
             nth_error (masked_softmax_row x m) j = Some 0) /\
  rsum (unmasked m (masked_softmax_row x m)) = 1.
Proof.
  intros Hlen Hex. unfold masked_softmax_row.
  set (c := row_shift x m).
  pose proof (@masked_exps_pos c m x Hlen Hex) as Hpos.
  repeat split.
  - rewrite length_map. apply masked_exps_length, Hlen.
  - intros j Hj. rewrite nth_error_map.
    rewrite (@masked_exps_masked c m x j Hlen Hj). simpl.
    f_equal. unfold Rdiv. ring.
  - rewrite unmasked_map, rsum_map_div, masked_exps_unmasked_sum.
    field. lra.
Qed.

(** The log-softmax row: the exponentials of the unmasked entries add
    up to one and masked entries sit at the sentinel. *)
Lemma masked_log_softmax_row_spec (x : vec) (m : list bool) :
  length x = length m -> has_unmasked m = true ->
  length (masked_log_softmax_row x m) = length x /\
  rsum (map exp (unmasked m (masked_log_softmax_row x m))) = 1 /\
  (forall j, nth_error m j = Some false ->
             nth_error (masked_log_softmax_row x m) j = Some neg_sentinel).
Proof.
  intros Hlen Hex. unfold masked_log_softmax_row.
  set (c := row_shift x m).
  pose proof (@masked_exps_pos c m x Hlen Hex) as Hpos.
  repeat split.
  - rewrite length_map, length_combine. lia.
  - rewrite log_row_exp_sum, exp_Ropp, exp_ln by exact Hpos.
    field. lra.
  - intros j Hj. apply log_row_masked; assumption.
Qed.

(** The masked entries of a log-softmax row, whatever the mask. *)
Lemma masked_log_softmax_row_masked (x : vec) (m : list bool) (j : nat) :
  length x = length m -> nth_error m j = Some false ->
  nth_error (masked_log_softmax_row x m) j = Some neg_sentinel.
Proof.
  intros Hlen Hj. unfold masked_log_softmax_row. apply log_row_masked; assumption.
Qed.

Lemma masked_log_softmax_row_length (x : vec) (m : list bool) :
  length x = length m -> length (masked_log_softmax_row x m) = length m.
Proof.
  intros H. unfold masked_log_softmax_row.
  rewrite length_map, length_combine. lia.
Qed.

(** A checked log-softmax row holds the sentinel wherever the mask is
    off. *)
Lemma checked_log_row_masked (x : vec) (m : list bool) (row : vec) (j : nat) :
  checked_row masked_log_softmax_row x m = Some row ->
  nth_error m j = Some false ->
  length row = length m /\ nth_error row j = Some neg_sentinel.
Proof.
  unfold checked_row. destruct (Nat.eqb (length x) (length m)) eqn:E;
    [|discriminate].
  apply Nat.eqb_eq in E. intros H Hj. inversion H; subst. split.
  - apply masked_log_softmax_row_length. exact E.
  - apply masked_log_softmax_row_masked; assumption.
Qed.

(** *** The contract of the primitive on a score array *)

(** C1. For a score array and a same-shaped binary mask, both variants
    return a result, and in every row with at least one unmasked
    position: the softmax gives exactly zero at each masked position and
    its unmasked entries sum to one; the exponentials of the unmasked
    log-softmax entries sum to one and each masked log-softmax entry is
    at or below the large negative sentinel. *)
Theorem masked_normalization_contract (x : tensor2) (mask : list (list bool)) :
  Forall2 (fun xr mr => length xr = length mr) x mask ->
  exists p lp,
    masked_softmax x mask = Some p /\
    masked_log_softmax x mask = Some lp /\
    forall r xr mr,
      nth_error x r = Some xr -> nth_error mask r = Some mr ->
      has_unmasked mr = true ->
      exists pr lpr,
        nth_error p r = Some pr /\ nth_error lp r = Some lpr /\
        length pr = length xr /\ length lpr = length xr /\
        (forall j, nth_error mr j = Some false -> nth_error pr j = Some 0) /\
        rsum (unmasked mr pr) = 1 /\
        rsum (map exp (unmasked mr lpr)) = 1 /\
        (forall j, nth_error mr j = Some false ->
           exists v, nth_error lpr j = Some v /\ v <= neg_sentinel).
Proof.
  intros Hshape.
  exists (map (fun q => masked_softmax_row (fst q) (snd q)) (combine x mask)).
  exists (map (fun q => masked_log_softmax_row (fst q) (snd q)) (combine x mask)).
  split; [|split].
  - unfold masked_softmax. apply zip_strict_total.
    eapply Forall2_impl; [|exact Hshape].
    intros xr mr E. unfold checked_row. rewrite E, Nat.eqb_refl. reflexivity.
  - unfold masked_log_softmax. apply zip_strict_total.
    eapply Forall2_impl; [|exact Hshape].
    intros xr mr E. unfold checked_row. rewrite E, Nat.eqb_refl. reflexivity.
  - intros r xr mr Hx Hm Hex.
    assert (Hlen : length xr = length mr).
    { clear Hex. revert r Hx Hm.
      induction Hshape as [|a b l1 l2 Hab _ IH]; intros [|r] Hx Hm;
        simpl in *; try discriminate.
      - inversion Hx; inversion Hm; subst. exact Hab.
      - eapply IH; eassumption. }
    destruct (masked_softmax_row_spec xr mr Hlen Hex) as (S1 & S2 & S3).
    destruct (masked_log_softmax_row_spec xr mr Hlen Hex) as (L1 & L2 & L3).
    exists (masked_softmax_row xr mr), (masked_log_softmax_row xr mr).
    repeat split; try assumption.
    + rewrite nth_error_map, nth_error_combine, Hx, Hm. reflexivity.
    + rewrite nth_error_map, nth_error_combine, Hx, Hm. reflexivity.
    + intros j Hj. exists neg_sentinel. split; [apply L3, Hj | lra].
Qed.

(** The contract at a two-row array whose rows each keep one position. *)
Lemma masked_normalization_contract_witness :
  exists p lp,
    masked_softmax [[1; 2]; [0; 3]] [[true; false]; [false; true]] = Some p /\
    masked_log_softmax [[1; 2]; [0; 3]] [[true; false]; [false; true]] = Some lp /\
    forall r xr mr,
      nth_error [[1; 2]; [0; 3]] r = Some xr ->
      nth_error [[true; false]; [false; true]] r = Some mr ->
      has_unmasked mr = true ->
      exists pr lpr,
        nth_error p r = Some pr /\ nth_error lp r = Some lpr /\
        length pr = length xr /\ length lpr = length xr /\
        (forall j, nth_error mr j = Some false -> nth_error pr j = Some 0) /\
        rsum (unmasked mr pr) = 1 /\
        rsum (map exp (unmasked mr lpr)) = 1 /\
        (forall j, nth_error mr j = Some false ->
           exists v, nth_error lpr j = Some v /\ v <= neg_sentinel).
Proof.
  apply (@masked_normalization_contract
           [[1; 2]; [0; 3]] [[true; false]; [false; true]]).
  repeat constructor.
Defined.

(** *** Rows with no unmasked position *)






End MaskedNormFacts.

(** ** Facts: sequence reordering ([sort_batch_by_length]) *)

Module ReorderFacts.
Import Tensor TensorFacts Reorder.

(** *** Sorting facts *)

Section ArgsortFacts.
Variable K : Type.
Variable le : K -> K -> bool.
Hypothesis le_total : forall a b, le a b = true \/ le b a = true.
Hypothesis le_trans : forall a b c, le a b = true -> le b c = true -> le a c = true.

Let key_le (p q : K * nat) : Prop := le (fst p) (fst q) = true.

Lemma insert_key_perm (p : K * nat) (l : list (K * nat)) :
  Permutation (insert_key le p l) (p :: l).
Proof.
  induction l as [|q l IH]; simpl.
  - apply Permutation_refl.
  - destruct (le (fst p) (fst q)).
    + apply Permutation_refl.
    + eapply Permutation_trans; [apply perm_skip, IH | apply perm_swap].
Qed.

Lemma sort_keys_perm (l : list (K * nat)) : Permutation (sort_keys le l) l.
Proof.
  induction l as [|p l IH]; simpl.
  - apply Permutation_refl.
  - eapply Permutation_trans; [apply insert_key_perm | apply perm_skip, IH].
Qed.

Lemma insert_key_hdrel (p q : K * nat) (l : list (K * nat)) :
  key_le q p -> HdRel key_le q l -> HdRel key_le q (insert_key le p l).
Proof.
  intros Hqp Hq. destruct l as [|r l]; simpl.
  - constructor. exact Hqp.
  - destruct (le (fst p) (fst r)).
    + constructor. exact Hqp.
    + inversion Hq; subst. constructor. assumption.
Qed.

Lemma insert_key_sorted (p : K * nat) (l : list (K * nat)) :
  Sorted key_le l -> Sorted key_le (insert_key le p l).
Proof.
  induction 1 as [|q l Hs IH Hq]; simpl.
  - repeat constructor.
  - destruct (le (fst p) (fst q)) eqn:E.
    + constructor; [constructor; assumption | constructor; exact E].
    + constructor; [exact IH|].
      apply insert_key_hdrel; [|exact Hq].
      destruct (le_total (fst p) (fst q)) as [H|H]; [congruence | exact H].
Qed.

Lemma sort_keys_sorted (l : list (K * nat)) : Sorted key_le (sort_keys le l).
Proof.
  induction l as [|p l IH]; simpl.
  - constructor.
  - apply insert_key_sorted, IH.
Qed.

Lemma sort_keys_strongly_sorted (l : list (K * nat)) :
  StronglySorted (fun a b => le a b = true) (map fst (sort_keys le l)).
Proof.
  assert (H : StronglySorted key_le (sort_keys le l)).
  { apply Sorted_StronglySorted; [|apply sort_keys_sorted].
    intros a b c. unfold key_le. apply le_trans. }
  induction H as [|p s Hs IH Hp]; simpl; constructor.
  - exact IH.
  - rewrite Forall_map. exact Hp.
Qed.
End ArgsortFacts.

Lemma enumerate_snd {K : Type} (keys : list K) :
  map snd (enumerate keys) = seq 0 (length keys).
Proof.
  unfold enumerate. generalize 0%nat.
  induction keys as [|k keys IH]; intros s; simpl.
  - reflexivity.
  - f_equal. apply IH.
Qed.

Lemma enumerate_consistent {K : Type} (keys : list K) :
  Forall (fun p : K * nat => nth_error keys (snd p) = Some (fst p)) (enumerate keys).
Proof.
  unfold enumerate.
  assert (G : forall pre l : list K,
             Forall (fun p : K * nat => nth_error (pre ++ l) (snd p) = Some (fst p))
                    (combine l (seq (length pre) (length l)))).
  { intros pre l. revert pre.
    induction l as [|k l IH]; intros pre; simpl.
    - constructor.
    - constructor.
      + simpl. rewrite nth_error_app2 by lia.
        rewrite Nat.sub_diag. reflexivity.
      + specialize (IH (pre ++ [k])).
        rewrite <- app_assoc, length_app in IH. simpl in IH.
        rewrite Nat.add_1_r in IH. exact IH. }
  apply (G [] keys).
Qed.

Lemma tensor_sort_perm {K : Type} (le : K -> K -> bool) (keys : list K) :
  Permutation (snd (tensor_sort le keys)) (seq 0 (length keys)).
Proof.
  unfold tensor_sort. simpl. rewrite <- enumerate_snd.
  apply Permutation_map, sort_keys_perm.
Qed.

Lemma tensor_sort_length {K : Type} (le : K -> K -> bool) (keys : list K) :
  length (snd (tensor_sort le keys)) = length keys.
Proof.
  rewrite (Permutation_length (tensor_sort_perm le keys)). apply length_seq.
Qed.

(** Reading the keys back at the sorted positions gives the sorted keys. *)
Lemma tensor_sort_select {K : Type} (le : K -> K -> bool) (keys : list K) :
  index_select keys (snd (tensor_sort le keys)) = Some (fst (tensor_sort le keys)).
Proof.
  unfold tensor_sort. simpl.
  assert (H : Forall (fun p : K * nat => nth_error keys (snd p) = Some (fst p))
                     (sort_keys le (enumerate keys))).
  { eapply Permutation_Forall; [|apply enumerate_consistent].
    apply Permutation_sym, sort_keys_perm. }
  unfold index_select.
  induction H as [|p s Hp _ IH]; simpl.
  - reflexivity.
  - rewrite Hp. simpl. rewrite IH. reflexivity.
Qed.

(** *** Index selection facts *)

Lemma index_select_all {A : Type} (xs : list A) :
  index_select xs (seq 0 (length xs)) = Some xs.
Proof.
  unfold index_select.
  assert (G : forall pre l : list A,
             mapM (nth_error (pre ++ l)) (seq (length pre) (length l)) = Some l).
  { intros pre l. revert pre.
    induction l as [|a l IH]; intros pre; simpl.
    - reflexivity.
    - rewrite nth_error_app2 by lia. rewrite Nat.sub_diag. simpl.
      specialize (IH (pre ++ [a])).
      rewrite <- app_assoc, length_app in IH. simpl in IH.
      rewrite Nat.add_1_r in IH. rewrite IH. reflexivity. }
  apply (G [] xs).
Qed.

Lemma index_select_compose {A : Type} (xs ys : list A) (idx1 idx2 idx3 : list nat) :
  index_select xs idx1 = Some ys ->
  index_select idx1 idx2 = Some idx3 ->
  index_select ys idx2 = index_select xs idx3.
Proof.
  unfold index_select. intros H1. revert idx3.
  induction idx2 as [|r idx2 IH]; simpl; intros idx3 H2.
  - inversion H2. reflexivity.
  - destruct (nth_error idx1 r) as [i|] eqn:Er; simpl in H2; [|discriminate].
    destruct (mapM (nth_error idx1) idx2) as [rest|] eqn:E; simpl in H2;
      [|discriminate].
    inversion H2; subst. simpl.
    rewrite (mapM_nth_error _ _ r H1), Er.
    rewrite (IH rest eq_refl). reflexivity.
Qed.

Lemma index_select_map {A B : Type} (f : A -> B) (xs : list A) (idx : list nat) :
  index_select (map f xs) idx = option_map (map f) (index_select xs idx).
Proof.
  unfold index_select.
  induction idx as [|i idx IH]; simpl.
  - reflexivity.
  - rewrite nth_error_map.
    destruct (nth_error xs i); simpl; [|reflexivity].
    rewrite IH. destruct (mapM (nth_error xs) idx); reflexivity.
Qed.

Lemma index_select_in_range {A : Type} (xs : list A) (idx : list nat) :
  Forall (fun i => i < length xs) idx ->
  exists out, index_select xs idx = Some out.
Proof.
  unfold index_select.
  induction 1 as [|i idx Hi _ [out IH]]; simpl.
  - eexists. reflexivity.
  - destruct (nth_error xs i) as [a|] eqn:E.
    + simpl. rewrite IH. simpl. eexists. reflexivity.
    + apply nth_error_None in E. lia.
Qed.

Lemma perm_seq_in_range (idx : list nat) (n : nat) :
  Permutation idx (seq 0 n) -> Forall (fun i => i < n) idx.
Proof.
  intros H. apply Forall_forall. intros i Hi.
  apply (Permutation_in _ H), in_seq in Hi. lia.
Qed.

Lemma seq_strongly_sorted (s n : nat) :
  StronglySorted (fun a b => Nat.leb a b = true) (seq s n).
Proof.
  revert s. induction n as [|n IH]; intros s; simpl; constructor.
  - apply IH.
  - apply Forall_forall. intros i Hi. apply in_seq in Hi.
    apply Nat.leb_le. lia.
Qed.

(** Two ascending lists with the same elements are the same list. *)
Lemma sorted_perm_unique (l1 l2 : list nat) :
  StronglySorted (fun a b => Nat.leb a b = true) l1 ->
  StronglySorted (fun a b => Nat.leb a b = true) l2 ->
  Permutation l1 l2 -> l1 = l2.
Proof.
  intros H1. revert l2.
  induction H1 as [|a l1 Hs1 IH Ha]; intros l2 H2 Hp.
  - apply Permutation_nil in Hp. subst. reflexivity.
  - destruct l2 as [|b l2].
    + apply Permutation_sym, Permutation_nil in Hp. discriminate.
    + inversion H2 as [|? ? Hs2 Hb]; subst.
      assert (a = b).
      { assert (Hab : In a (b :: l2)) by
          (apply (Permutation_in _ Hp); left; reflexivity).
        assert (Hba : In b (a :: l1)) by
          (apply (Permutation_in _ (Permutation_sym Hp)); left; reflexivity).
        destruct Hab as [->|Hab]; [reflexivity|].
        destruct Hba as [->|Hba]; [reflexivity|].
        rewrite Forall_forall in Ha, Hb.
        apply Ha, Nat.leb_le in Hba. apply Hb, Nat.leb_le in Hab. lia. }
      subst b. f_equal. apply IH; [exact Hs2|].
      eapply Permutation_cons_inv. exact Hp.
Qed.

Lemma combine_fst {A B : Type} (l1 : list A) (l2 : list B) :
  length l1 = length l2 -> map fst (combine l1 l2) = l1.
Proof.
  revert l2. induction l1 as [|a l1 IH]; intros [|b l2] H; simpl in *;
    try reflexivity; try discriminate.
  f_equal. apply IH. lia.
Qed.

(** Sorting a permutation of [0..n) in ascending order and reading the
    positions off inverts it. *)
Lemma restoration_inverts (perm : list nat) (n : nat) :
  Permutation perm (seq 0 n) ->
  index_select perm (snd (tensor_sort Nat.leb perm)) = Some (seq 0 n).
Proof.
  intros Hp. rewrite tensor_sort_select. f_equal.
  apply sorted_perm_unique.
  - unfold tensor_sort. simpl. apply sort_keys_strongly_sorted.
    + intros a b. destruct (Nat.leb a b) eqn:E; [left; reflexivity|].
      right. apply Nat.leb_le. apply Nat.leb_gt in E. lia.
    + intros a b c H1 H2. apply Nat.leb_le.
      apply Nat.leb_le in H1. apply Nat.leb_le in H2. lia.
  - apply seq_strongly_sorted.
  - eapply Permutation_trans; [|exact Hp].
    unfold tensor_sort. simpl.
    eapply Permutation_trans.
    + apply Permutation_map, sort_keys_perm.
    + unfold enumerate. rewrite combine_fst.
      * apply Permutation_refl.
      * rewrite length_seq. reflexivity.
Qed.

Lemma index_select_seq (n : nat) (idx : list nat) :
  Forall (fun i => i < n) idx -> index_select (seq 0 n) idx = Some idx.
Proof.
  unfold index_select.
  induction 1 as [|i idx Hi _ IH]; simpl.
  - reflexivity.
  - rewrite (nth_error_nth' (seq 0 n) 0) by (rewrite length_seq; exact Hi).
    rewrite seq_nth by exact Hi. simpl. rewrite IH. reflexivity.
Qed.

Lemma geb_total (a b : Z) : Z.geb a b = true \/ Z.geb b a = true.
Proof. rewrite !Z.geb_le. lia. Qed.

Lemma geb_trans (a b c : Z) :
  Z.geb a b = true -> Z.geb b c = true -> Z.geb a c = true.
Proof. rewrite !Z.geb_le. lia. Qed.

Lemma sorting_permutation_perm (lens : list Z) :
  Permutation (sorting_permutation lens) (seq 0 (length lens)).
Proof. apply tensor_sort_perm. Qed.

Lemma restoration_permutation_perm (lens : list Z) :
  Permutation (restoration_permutation lens) (seq 0 (length lens)).
Proof.
  unfold restoration_permutation.
  eapply Permutation_trans; [apply tensor_sort_perm|].
  unfold sorting_permutation. rewrite tensor_sort_length.
  apply Permutation_refl.
Qed.

Lemma restoration_after_sorting (lens : list Z) :
  index_select (sorting_permutation lens) (restoration_permutation lens)
  = Some (seq 0 (length lens)).
Proof. apply restoration_inverts, sorting_permutation_perm. Qed.

(** [sort_batch_by_length] step by step: only the selection of the
    batch rows can raise. *)
Lemma sort_batch_by_length_eq {A : Type} (tensor : list A) (lens : list Z) :
  sort_batch_by_length tensor lens =
  (st <- index_select tensor (sorting_permutation lens) ;;
   Some (st, fst (tensor_sort Z.geb lens),
         restoration_permutation lens, sorting_permutation lens)).
Proof.
  unfold sort_batch_by_length.
  change (tensor_sort Z.geb lens)
    with (fst (tensor_sort Z.geb lens), sorting_permutation lens).
  cbv beta iota.
  destruct (index_select tensor (sorting_permutation lens)) as [st|];
    [|reflexivity].
  simpl bind.
  change (tensor_sort Nat.leb (sorting_permutation lens))
    with (fst (tensor_sort Nat.leb (sorting_permutation lens)),
          restoration_permutation lens).
  cbv beta iota. rewrite index_select_seq.
  - reflexivity.
  - apply perm_seq_in_range, restoration_permutation_perm.
Qed.

(** What [sort_batch_by_length] returns on a batch with one length per
    sequence. *)
Lemma sort_batch_by_length_unfold {A : Type} (tensor : list A) (lens : list Z) :
  length tensor = length lens ->
  exists st,
    index_select tensor (sorting_permutation lens) = Some st /\
    sort_batch_by_length tensor lens =
      Some (st, fst (tensor_sort Z.geb lens),
            restoration_permutation lens, sorting_permutation lens).
Proof.
  intros Hlen.
  destruct (@index_select_in_range A tensor (sorting_permutation lens)) as [st Hst].
  { rewrite Hlen. apply perm_seq_in_range, sorting_permutation_perm. }
  exists st. split; [exact Hst|].
  rewrite sort_batch_by_length_eq, Hst. reflexivity.
Qed.

(** Restoring a row-wise image of the sorted batch. *)
Lemma restore_sorted {A : Type} (tensor st : list A) (lens : list Z) :
  length tensor = length lens ->
  index_select tensor (sorting_permutation lens) = Some st ->
  index_select st (restoration_permutation lens) = Some tensor.
Proof.
  intros Hlen Hst.
  rewrite (@index_select_compose A tensor st _ _ _ Hst (restoration_after_sorting lens)).
  rewrite <- Hlen. apply index_select_all.
Qed.

(** Restoring any tensor laid out in sorted batch order: the row at the
    sorted position [k] returns to the original position [perm[k]]. *)
Lemma restore_any {B : Type} (ys : list B) (lens : list Z) :
  length ys = length lens ->
  exists zs,
    index_select ys (restoration_permutation lens) = Some zs /\
    length zs = length lens /\
    forall k i, nth_error (sorting_permutation lens) k = Some i ->
                nth_error zs i = nth_error ys k.
Proof.
  intros Hlen.
  destruct (@index_select_in_range B ys (restoration_permutation lens)) as [zs Hzs].
  { rewrite Hlen. apply perm_seq_in_range, restoration_permutation_perm. }
  exists zs. split; [exact Hzs|]. split.
  { unfold index_select in Hzs. rewrite (mapM_length _ _ Hzs).
    rewrite (Permutation_length (restoration_permutation_perm lens)).
    apply length_seq. }
  intros k i Hk.
  pose proof (sorting_permutation_perm lens) as Hp.
  assert (Hi : i < length lens).
  { apply nth_error_In in Hk. apply (Permutation_in _ Hp), in_seq in Hk. lia. }
  unfold index_select in Hzs. rewrite (mapM_nth_error _ _ i Hzs).
  pose proof (restoration_after_sorting lens) as Hinv.
  unfold index_select in Hinv.
  pose proof (mapM_nth_error _ _ i Hinv) as Hn.
  rewrite (nth_error_nth' (seq 0 (length lens)) 0) in Hn
    by (rewrite length_seq; exact Hi).
  rewrite seq_nth in Hn by exact Hi. simpl in Hn.
  destruct (nth_error (restoration_permutation lens) i) as [r|] eqn:Er;
    [|discriminate].
  assert (r = k); [|subst; reflexivity].
  assert (Hnd : NoDup (sorting_permutation lens)).
  { apply (Permutation_NoDup (Permutation_sym Hp)), seq_NoDup. }
  rewrite NoDup_nth_error in Hnd. apply Hnd.
  - apply nth_error_Some. rewrite <- Hn. discriminate.
  - rewrite <- Hn. symmetry. exact Hk.
Qed.

Lemma sorted_values_perm {K : Type} (le : K -> K -> bool) (keys : list K) :
  Permutation (fst (tensor_sort le keys)) keys.
Proof.
  unfold tensor_sort. simpl.
  eapply Permutation_trans; [apply Permutation_map, sort_keys_perm|].
  unfold enumerate. rewrite combine_fst.
  - apply Permutation_refl.
  - rewrite length_seq. reflexivity.
Qed.

Lemma sorted_values_descending (lens : list Z) :
  StronglySorted (fun a b => Z.geb a b = true) (fst (tensor_sort Z.geb lens)).
Proof.
  unfold tensor_sort. simpl.
  apply sort_keys_strongly_sorted; [apply geb_total | apply geb_trans].
Qed.

(** C3. For a batch with one length per sequence, the reordering
    utility returns the batch and the lengths permuted by one sorting
    permutation, the lengths in descending order, and a restoration
    permutation; index-selecting a tensor laid out in sorted batch order
    with the restoration permutation puts every row back at its original
    batch position, and restoring the sorted batch itself (or any
    row-wise image of it) gives back the original batch. *)
Theorem sort_batch_by_length_round_trip {A : Type} (tensor : list A) (lens : list Z) :
  length tensor = length lens ->
  exists st sl rest perm,
    sort_batch_by_length tensor lens = Some (st, sl, rest, perm) /\
    Permutation perm (seq 0 (length tensor)) /\
    index_select tensor perm = Some st /\
    index_select lens perm = Some sl /\
    StronglySorted (fun a b => (a >= b)%Z) sl /\
    index_select st rest = Some tensor /\
    (forall (B : Type) (f : A -> B),
        index_select (map f st) rest = Some (map f tensor)) /\
    (forall (B : Type) (ys : list B), length ys = length tensor ->
        exists zs, index_select ys rest = Some zs /\
                   length zs = length tensor /\
                   forall k i, nth_error perm k = Some i ->
                               nth_error zs i = nth_error ys k).
Proof.
  intros Hlen.
  destruct (sort_batch_by_length_unfold tensor lens Hlen) as (st & Hst & Hsort).
  exists st, (fst (tensor_sort Z.geb lens)),
    (restoration_permutation lens), (sorting_permutation lens).
  split; [exact Hsort|].
  split; [rewrite Hlen; apply sorting_permutation_perm|].
  split; [exact Hst|].
  split; [apply tensor_sort_select|].
  split.
  { pose proof (sort_keys_strongly_sorted Z.geb geb_total geb_trans
                  (enumerate lens)) as Hs.
    unfold tensor_sort. simpl.
    eapply StronglySorted_ind with
      (P := fun l => StronglySorted (fun a b => (a >= b)%Z) l); [| |exact Hs].
    - constructor.
    - intros a l _ IH Ha. constructor; [exact IH|].
      eapply Forall_impl; [|exact Ha].
      intros b Hb. apply Z.geb_le in Hb. lia. }
  split; [apply (restore_sorted _ _ Hlen Hst)|].
  split.
  - intros B f. rewrite index_select_map.
    rewrite (restore_sorted _ _ Hlen Hst). reflexivity.
  - intros B ys Hys. rewrite Hlen in *.
    apply restore_any. exact Hys.
Qed.

(** The round trip at a batch of three sequences of lengths 3, 5, 4. *)
Lemma sort_batch_by_length_round_trip_witness :
  exists st sl rest perm,
    sort_batch_by_length ["a"; "b"; "c"]%string [3; 5; 4]%Z
      = Some (st, sl, rest, perm) /\
    Permutation perm (seq 0 (length ["a"; "b"; "c"]%string)) /\
    index_select ["a"; "b"; "c"]%string perm = Some st /\
    index_select [3; 5; 4]%Z perm = Some sl /\
    StronglySorted (fun a b => (a >= b)%Z) sl /\
    index_select st rest = Some ["a"; "b"; "c"]%string /\
    (forall (B : Type) (f : string -> B),
        index_select (map f st) rest = Some (map f ["a"; "b"; "c"]%string)) /\
    (forall (B : Type) (ys : list B),
        length ys = length ["a"; "b"; "c"]%string ->
        exists zs, index_select ys rest = Some zs /\
                   length zs = length ["a"; "b"; "c"]%string /\
                   forall k i, nth_error perm k = Some i ->
                               nth_error zs i = nth_error ys k).
Proof.
  apply (@sort_batch_by_length_round_trip string ["a"; "b"; "c"]%string [3; 5; 4]%Z).
  reflexivity.
Defined.

Example sort_batch_by_length_example :
  sort_batch_by_length ["a"; "b"; "c"]%string [3; 5; 4]%Z
  = Some (["b"; "c"; "a"]%string, [5; 4; 3]%Z, [2; 0; 1], [1; 2; 0]).
Proof. reflexivity. Qed.

End ReorderFacts.

(** ** Facts: checkpointing ([save_best_model]) *)

Module CheckpointFacts.
Import Checkpoint.

(** *** [os.path.dirname] *)

Example dirname_bare : dirname "model.pt" = ""%string.
Proof. reflexivity. Qed.

Example dirname_nested : dirname "runs/exp1/model.pt" = "runs/exp1"%string.
Proof. reflexivity. Qed.

Example dirname_root : dirname "/model.pt" = "/"%string.
Proof. reflexivity. Qed.

Example dirname_double_sep : dirname "runs//model.pt" = "runs"%string.
Proof. reflexivity. Qed.

(** *** Strict comparison of errors *)

Lemma Qltb_lt (a b : Q) : Qltb a b = true <-> (a < b)%Q.
Proof.
  unfold Qltb. rewrite negb_true_iff. split.
  - intros H. apply Qnot_le_lt. intros Hle.
    apply Qle_bool_iff in Hle. congruence.
  - intros H. destruct (Qle_bool b a) eqn:E; [|reflexivity].
    apply Qle_bool_iff in E. apply Qlt_not_le in H. contradiction.
Qed.

Section PolicyFacts.

(** What [state_dict()] returns: the parameters of the module. *)
Variable P : Type.

(** *** Facts on the file system operations *)

Lemma lookup_torch_save (w w' : world P) (obj : P) (f : string) :
  torch_save w obj f = inr w' ->
  lookup f (files w') = Some obj /\ stdout w' = stdout w /\ dirs w' = dirs w.
Proof.
  unfold torch_save. intros H.
  destruct (String.eqb f ""); [discriminate|].
  destruct (is_dir w f); [discriminate|].
  destruct (String.eqb (dirname f) "" || is_dir w (dirname f)).
  - inversion H; subst; clear H. unfold lookup. simpl.
    rewrite String.eqb_refl. simpl. repeat split.
  - destruct (is_file w (dirname f)); discriminate.
Qed.

Lemma makedirs_files (w w' : world P) (name : string) :
  makedirs w name = inr w' -> files w' = files w /\ stdout w' = stdout w.
Proof.
  unfold makedirs. intros H.
  destruct (String.eqb name ""); [discriminate|].
  destruct (path_exists w name); [discriminate|].
  destruct (existsb (is_file w) (ancestors (String.length name) name));
    [discriminate|].
  inversion H; subst. simpl. split; reflexivity.
Qed.

Lemma ensure_folder_files (w w' : world P) (folder : string) :
  ensure_folder w folder = inr w' -> files w' = files w /\ stdout w' = stdout w.
Proof.
  unfold ensure_folder.
  destruct (negb (path_exists w folder)).
  - apply makedirs_files.
  - intros H. inversion H; subst. split; reflexivity.
Qed.

(** [save_best_model] run on an object and a world, outcome by outcome. *)
Lemma save_best_model_cases (c : component P) (w : world P) (e : Q) (p : string) :
  save_best_model e p (c, w) =
  if Qltb e (best_error c) then
    let c' := {| best_error := e; state_dict := state_dict c |} in
    match ensure_folder w (dirname p) with
    | inl x => (inl x, (c', w))
    | inr w1 =>
        match torch_save w1 (state_dict c) p with
        | inl x => (inl x, (c', w1))
        | inr w2 =>
            (inr tt, (c', {| dirs := dirs w2; files := files w2;
                             stdout := stdout w2 ++ [(e, p)] |}))
        end
    end
  else (inr tt, (c, w)).
Proof.
  unfold save_best_model, bindM, read, assign_best_error, os_path_exists,
    os_effect, print, ret, ensure_folder. cbn.
  destruct (Qltb e (best_error c)); [|reflexivity]. cbn.
  destruct (negb (path_exists w (dirname p))); cbn.
  - destruct (makedirs w (dirname p)) as [x|w1]; [reflexivity|]. cbn.
    destruct (torch_save w1 (state_dict c) p) as [x|w2]; reflexivity.
  - destruct (torch_save w (state_dict c) p) as [x|w2]; reflexivity.
Qed.

Lemma save_best_model_monotone (c : component P) (w : world P) (e : Q) (p : string) :
  (best_error (fst (snd (save_best_model e p (c, w)))) <= best_error c)%Q.
Proof.
  rewrite save_best_model_cases.
  destruct (Qltb e (best_error c)) eqn:E.
  - apply Qltb_lt, Qlt_le_weak in E. cbv zeta.
    destruct (ensure_folder w (dirname p)) as [x|w1]; [exact E|].
    destruct (torch_save w1 (state_dict c) p); exact E.
  - apply Qle_refl.
Qed.

Lemma after_calls_monotone (calls : list (Q * string)) (s : component P * world P) :
  (best_error (fst (after_calls calls s)) <= best_error (fst s))%Q.
Proof.
  revert s. induction calls as [|[e p] calls IH]; intros [c w]; simpl.
  - apply Qle_refl.
  - eapply Qle_trans; [apply IH|].
    destruct (save_best_model e p (c, w)) as [r [c' w']] eqn:E. simpl.
    pose proof (save_best_model_monotone c w e p) as H.
    rewrite E in H. exact H.
Qed.

(** C6 (amended). [best_error] starts at 1 and never increases, over one
    call and over any series of calls.  A call with [error < best_error]
    sets [best_error] to [error]; when that call returns normally the
    checkpoint at [file_path] holds the parameters and one notice was
    printed, and when it raises no file was written.  A call with a tie
    or a larger error returns normally and leaves the object and the
    world as they were.  The parameters are never changed. *)
Theorem save_best_model_policy (c : component P) (w : world P) (error : Q)
    (file_path : string) :
  (forall parameters : P, best_error (init parameters) = 1%Q) /\
  let out := save_best_model error file_path (c, w) in
  let c' := fst (snd out) in
  let w' := snd (snd out) in
  state_dict c' = state_dict c /\
  (best_error c' <= best_error c)%Q /\
  (Qltb error (best_error c) = true ->
     best_error c' = error /\
     (fst out = inr tt ->
        lookup file_path (files w') = Some (state_dict c) /\
        stdout w' = stdout w ++ [(error, file_path)]) /\
     (fst out <> inr tt -> files w' = files w /\ stdout w' = stdout w)) /\
  (Qltb error (best_error c) = false -> out = (inr tt, (c, w))) /\
  (forall calls,
     (best_error (fst (after_calls calls (c, w))) <= best_error c)%Q).
Proof.
  split; [reflexivity|]. cbv zeta.
  split; [|split; [apply save_best_model_monotone|split; [|split]]].
  - rewrite save_best_model_cases.
    destruct (Qltb error (best_error c)); [|reflexivity]. cbv zeta.
    destruct (ensure_folder w (dirname file_path)) as [x|w1]; [reflexivity|].
    destruct (torch_save w1 (state_dict c) file_path); reflexivity.
  - intros Hlt. rewrite save_best_model_cases, Hlt. cbv zeta.
    destruct (ensure_folder w (dirname file_path)) as [x|w1] eqn:E1.
    { simpl. repeat split; try discriminate. }
    destruct (ensure_folder_files _ _ E1) as [Hf1 Hs1].
    destruct (torch_save w1 (state_dict c) file_path) as [x|w2] eqn:E2.
    { simpl. repeat split; try discriminate; assumption. }
    destruct (lookup_torch_save _ _ _ E2) as (Hl & Hs2 & _).
    simpl. split; [reflexivity|]. split.
    + intros _. split; [exact Hl|]. rewrite Hs2, Hs1. reflexivity.
    + intros H. exfalso. apply H. reflexivity.
  - intros Hge. rewrite save_best_model_cases, Hge. reflexivity.
  - intros calls. apply (after_calls_monotone calls (c, w)).
Qed.

(** C10. When [error < best_error], every raising outcome of the call
    leaves [best_error] already set to [error] and no file written; a
    path with no directory component always raises so, at the directory
    creation, and leaves the world as it was. *)
Theorem save_best_model_not_atomic (c : component P) (w : world P) (error : Q)
    (file_path : string) :
  Qltb error (best_error c) = true ->
  (forall x s', save_best_model error file_path (c, w) = (inl x, s') ->
     best_error (fst s') = error /\
     state_dict (fst s') = state_dict c /\
     files (snd s') = files w) /\
  (dirname file_path = ""%string ->
     save_best_model error file_path (c, w) =
     (inl FileNotFoundError,
      ({| best_error := error; state_dict := state_dict c |}, w))).
Proof.
  intros Hlt. rewrite save_best_model_cases, Hlt. cbv zeta. split.
  - intros x s' H.
    destruct (ensure_folder w (dirname file_path)) as [y|w1] eqn:E1.
    { inversion H; subst. simpl. repeat split. }
    destruct (ensure_folder_files _ _ E1) as [Hf1 _].
    destruct (torch_save w1 (state_dict c) file_path) as [y|w2] eqn:E2.
    + inversion H; subst. simpl. repeat split. exact Hf1.
    + discriminate.
  - intros Hd. rewrite Hd. reflexivity.
Qed.

End PolicyFacts.

(** C10 at a module fresh from [__init__], an empty working directory
    and a first call with error 1/2 on a bare file name. *)
Lemma save_best_model_not_atomic_witness :
  Qltb (1 # 2) (best_error (init 0)) = true /\
  (forall x s',
     save_best_model (1 # 2) "model.pt" (init 0, World [] [] [])
       = (inl x, s') ->
     best_error (fst s') = (1 # 2)%Q /\
     state_dict (fst s') = state_dict (init 0) /\
     files (snd s') = files (World (P := nat) [] [] [])) /\
  (dirname "model.pt" = ""%string ->
     save_best_model (1 # 2) "model.pt" (init 0, World [] [] []) =
     (inl FileNotFoundError,
      ({| best_error := (1 # 2)%Q; state_dict := state_dict (init 0) |},
       World [] [] []))).
Proof.
  split; [reflexivity|].
  apply (@save_best_model_not_atomic nat (init 0) (World [] [] [])
           (1 # 2)%Q "model.pt"%string).
  reflexivity.
Defined.

(** The claim as first stated fails: with [error < best_error] the call
    can lower [best_error] and still write no checkpoint, here because
    the directory of the path is a regular file. *)
Lemma save_best_model_lowers_without_write :
  Qltb (1 # 2) (best_error (init 7)) = true /\
  fst (save_best_model (1 # 2) "ckpt/model.pt" (init 7, world_with_file))
    = inl NotADirectoryError /\
  best_error (fst (snd
    (save_best_model (1 # 2) "ckpt/model.pt" (init 7, world_with_file))))
    = (1 # 2)%Q /\
  lookup "ckpt/model.pt" (files (snd (snd
    (save_best_model (1 # 2) "ckpt/model.pt" (init 7, world_with_file)))))
    = None.
Proof. repeat split. Qed.

(** The scenario of the specification: from [best_error] 1/2 an error of
    3/10 is saved, a later 4/10 is not. *)
Example save_best_model_scenario :
  let s0 := (Component (1 # 2) 7, World [("runs"%string)] [] []) in
  let s1 := snd (save_best_model (3 # 10) "runs/model.pt" s0) in
  let s2 := snd (save_best_model (4 # 10) "runs/model.pt" s1) in
  best_error (fst s1) = (3 # 10)%Q /\
  lookup "runs/model.pt" (files (snd s1)) = Some 7 /\
  s2 = s1.
Proof. repeat split. Qed.

(** *** Series of calls, retries and the rest of the file system *)

Section SeriesFacts.

Variable P : Type.

Lemma Qltb_ge (a b : Q) : Qltb a b = false <-> (b <= a)%Q.
Proof.
  unfold Qltb. rewrite negb_false_iff. apply Qle_bool_iff.
Qed.

(** The threshold after one call, whether the call returned or raised. *)
Lemma save_best_model_best_error (c : component P) (w : world P) (e : Q)
    (p : string) :
  best_error (fst (snd (save_best_model e p (c, w)))) =
  if Qltb e (best_error c) then e else best_error c.
Proof.
  rewrite save_best_model_cases.
  destruct (Qltb e (best_error c)); [|reflexivity]. cbv zeta.
  destruct (ensure_folder w (dirname p)) as [x|w1]; [reflexivity|].
  destruct (torch_save w1 (state_dict c) p); reflexivity.
Qed.

(** X1. After any series of calls, each exception caught by the caller,
    [best_error] is the least of its first value and of all the errors
    submitted: it is one of them and it is at most each of them, whether
    or not the calls managed to write. *)
Theorem after_calls_running_minimum (calls : list (Q * string))
    (c : component P) (w : world P) :
  let b := best_error (fst (after_calls calls (c, w))) in
  (b <= best_error c)%Q /\
  Forall (fun call => (b <= fst call)%Q) calls /\
  (b = best_error c \/ In b (map fst calls)).
Proof.
  cbv zeta. revert c w.
  induction calls as [|[e p] calls IH]; intros c w.
  - simpl. split; [apply Qle_refl|]. split; [constructor|left; reflexivity].
  - simpl.
    destruct (save_best_model e p (c, w)) as [r [c1 w1]] eqn:E.
    assert (Hb : best_error c1 = if Qltb e (best_error c) then e else best_error c).
    { pose proof (save_best_model_best_error c w e p) as H.
      rewrite E in H. exact H. }
    simpl. destruct (IH c1 w1) as (Hle & Hall & Hin).
    assert (H1 : (best_error c1 <= best_error c)%Q /\ (best_error c1 <= e)%Q).
    { rewrite Hb. destruct (Qltb e (best_error c)) eqn:El.
      - split; [apply Qlt_le_weak, Qltb_lt, El|apply Qle_refl].
      - split; [apply Qle_refl|apply Qltb_ge, El]. }
    destruct H1 as [H1 H2].
    split; [eapply Qle_trans; eassumption|]. split.
    + constructor; [simpl; eapply Qle_trans; eassumption|exact Hall].
    + destruct Hin as [Hin|Hin]; [|right; right; exact Hin].
      rewrite Hin, Hb. destruct (Qltb e (best_error c)).
      * right. left. reflexivity.
      * left. reflexivity.
Qed.

(** X2. Once a call with error [e] was made, whether it returned or raised,
    a later call with an error of at least [e] does nothing at all: it
    returns normally and leaves the object and the world as they are.
    So a write that failed is not made again for the same error. *)
Theorem save_best_model_no_retry (c : component P) (w : world P)
    (e e' : Q) (p p' : string) :
  (e <= e')%Q ->
  let s1 := snd (save_best_model e p (c, w)) in
  save_best_model e' p' s1 = (inr tt, s1).
Proof.
  intros Hle. cbv zeta.
  destruct (save_best_model e p (c, w)) as [r [c1 w1]] eqn:E.
  pose proof (save_best_model_best_error c w e p) as Hb.
  rewrite E in Hb. simpl in Hb. simpl.
  rewrite save_best_model_cases.
  assert (Hge : Qltb e' (best_error c1) = false).
  { apply Qltb_ge. rewrite Hb.
    destruct (Qltb e (best_error c)) eqn:El; [exact Hle|].
    apply Qltb_ge in El. eapply Qle_trans; eassumption. }
  rewrite Hge. reflexivity.
Qed.

Lemma lookup_other (q f : string) (obj : P) (fs : list (string * P)) :
  q <> f ->
  lookup q ((f, obj) :: filter (fun g => negb (String.eqb f (fst g))) fs) =
  lookup q fs.
Proof.
  intros Hq. unfold lookup. simpl.
  destruct (String.eqb q f) eqn:E; [apply String.eqb_eq in E; contradiction|].
  f_equal. induction fs as [|[g x] fs IH]; [reflexivity|]. simpl.
  destruct (String.eqb f g) eqn:Eg; simpl.
  - apply String.eqb_eq in Eg. subst g. rewrite E. exact IH.
  - destruct (String.eqb q g); [reflexivity|exact IH].
Qed.

Lemma makedirs_dirs (w w' : world P) (name d : string) :
  makedirs w name = inr w' ->
  is_dir w' name = true /\ (is_dir w d = true -> is_dir w' d = true).
Proof.
  unfold makedirs. intros H.
  destruct (String.eqb name ""); [discriminate|].
  destruct (path_exists w name); [discriminate|].
  destruct (existsb (is_file w) (ancestors (String.length name) name));
    [discriminate|].
  inversion H; subst; clear H. unfold is_dir. simpl.
  rewrite String.eqb_refl, !orb_true_r. split; [reflexivity|].
  intros Hd. apply orb_true_iff in Hd. destruct Hd as [Hd|Hd].
  - rewrite Hd. reflexivity.
  - rewrite existsb_app, Hd, !orb_true_r. reflexivity.
Qed.

Lemma ensure_folder_dirs (w w' : world P) (folder d : string) :
  ensure_folder w folder = inr w' ->
  is_dir w d = true -> is_dir w' d = true.
Proof.
  unfold ensure_folder.
  destruct (negb (path_exists w folder)).
  - intros H. apply (proj2 (@makedirs_dirs w w' folder d H)).
  - intros H. inversion H; subst. exact (fun x => x).
Qed.

Lemma torch_save_other (w w' : world P) (obj : P) (f : string) :
  torch_save w obj f = inr w' ->
  (dirname f = ""%string \/ is_dir w' (dirname f) = true) /\
  forall q, q <> f -> lookup q (files w') = lookup q (files w).
Proof.
  unfold torch_save. intros H.
  destruct (String.eqb f ""); [discriminate|].
  destruct (is_dir w f); [discriminate|].
  destruct (String.eqb (dirname f) "" || is_dir w (dirname f)) eqn:E.
  - inversion H; subst; clear H. simpl. split.
    + apply orb_true_iff in E. destruct E as [E|E].
      * left. apply String.eqb_eq, E.
      * right. exact E.
    + intros q Hq. apply lookup_other, Hq.
  - destruct (is_file w (dirname f)); discriminate.
Qed.

(** X3. A call on a path in normal form changes the file system at one
    place only.  Whatever its outcome, every file at another path in
    normal form, absolute or relative as [file_path] is, is as it was,
    and every directory is still there; when the call wrote, the
    directory of [file_path] exists afterwards. *)
Theorem save_best_model_frame (c : component P) (w : world P) (error : Q)
    (file_path : string) :
  normal_path file_path = true ->
  let out := save_best_model error file_path (c, w) in
  let w' := snd (snd out) in
  (forall q, normal_path q = true -> absolute q = absolute file_path ->
     q <> file_path -> lookup q (files w') = lookup q (files w)) /\
  (forall d, is_dir w d = true -> is_dir w' d = true) /\
  (Qltb error (best_error c) = true -> fst out = inr tt ->
     is_dir w' (dirname file_path) = true).
Proof.
  intros _. cbv zeta. rewrite save_best_model_cases.
  destruct (Qltb error (best_error c)).
  2:{ simpl. repeat split; auto; discriminate. }
  cbv zeta.
  destruct (ensure_folder w (dirname file_path)) as [x|w1] eqn:E1.
  { simpl. repeat split; auto; discriminate. }
  destruct (ensure_folder_files _ _ E1) as [Hf1 _].
  destruct (torch_save w1 (state_dict c) file_path) as [x|w2] eqn:E2.
  { simpl. rewrite Hf1. repeat split; try discriminate.
    intros d. apply (@ensure_folder_dirs _ _ _ d E1). }
  destruct (lookup_torch_save _ _ _ E2) as (_ & _ & Hd2).
  destruct (torch_save_other _ _ _ E2) as [Hdir Hq].
  simpl. split; [|split].
  - intros q _ _ Hne. rewrite (Hq q Hne), Hf1. reflexivity.
  - intros d Hd. apply (@ensure_folder_dirs _ _ _ d E1) in Hd.
    unfold is_dir in *. simpl. rewrite Hd2. exact Hd.
  - intros _ _. destruct Hdir as [Hdir|Hdir].
    + exfalso. rewrite Hdir in E1. unfold ensure_folder, makedirs in E1.
      simpl in E1. discriminate.
    + exact Hdir.
Qed.

End SeriesFacts.

(** The retry rule at a module fresh from [__init__]: a first call with
    error 1/2 on a bare file name raises, and the same call made again
    does nothing. *)
Lemma save_best_model_no_retry_witness :
  ((1 # 2) <= (1 # 2))%Q /\
  fst (save_best_model (1 # 2) "model.pt" (init 0, World [] [] []))
    = inl FileNotFoundError /\
  save_best_model (1 # 2) "model.pt"
    (snd (save_best_model (1 # 2) "model.pt" (init 0, World [] [] []))) =
  (inr tt, snd (save_best_model (1 # 2) "model.pt" (init 0, World [] [] []))).
Proof.
  split; [apply Qle_refl|]. split; [reflexivity|].
  apply (@save_best_model_no_retry nat (init 0) (World [] [] [])
           (1 # 2)%Q (1 # 2)%Q "model.pt"%string "model.pt"%string).
  apply Qle_refl.
Defined.

(** *** Paths and their directories *)





Lemma drop_until_sep_none (l : list ascii) :
  ~ In sep l -> drop_until_sep l = [].
Proof.
  induction l as [|c l IH]; [reflexivity|]. intros H. simpl.
  destruct (Ascii.eqb c sep) eqn:E.
  - apply Ascii.eqb_eq in E. exfalso. apply H. left. exact E.
  - apply IH. intros Hin. apply H. right. exact Hin.
Qed.

(** A path with no separator has no directory part. *)
Lemma dirname_bare_name (p : string) :
  ~ In sep (list_ascii_of_string p) -> dirname p = ""%string.
Proof.
  intros H. unfold dirname. rewrite drop_until_sep_none; [reflexivity|].
  intros Hin. apply H. apply in_rev. exact Hin.
Qed.



Lemma strip_sep_nil (l : list ascii) :
  strip_sep l = [] -> forallb (Ascii.eqb sep) l = true.
Proof.
  induction l as [|c l IH]; [reflexivity|]. cbn [strip_sep forallb].
  destruct (Ascii.eqb c sep) eqn:E; [|discriminate].
  intros H. rewrite Ascii.eqb_sym, E. apply IH, H.
Qed.



Section WritingFacts.

Variable P : Type.


Lemma existsb_eqb_in (p : string) (l : list string) :
  existsb (String.eqb p) l = false -> ~ In p l.
Proof.
  intros H Hin. assert (E : existsb (String.eqb p) l = true).
  { apply existsb_exists. exists p. split; [exact Hin|apply String.eqb_refl]. }
  congruence.
Qed.


(** X22. On a file name without a separator a call with an error below
    [best_error] always raises [FileNotFoundError], at the creation of
    the empty directory name: [best_error] is lowered to the error and
    nothing is written or printed. *)
Theorem save_best_model_bare_file_name (c : component P) (w : world P)
    (error : Q) (file_path : string) :
  Qltb error (best_error c) = true ->
  ~ In sep (list_ascii_of_string file_path) ->
  save_best_model error file_path (c, w) =
  (inl FileNotFoundError,
   ({| best_error := error; state_dict := state_dict c |}, w)).
Proof.
  intros Hlt Hbare. rewrite save_best_model_cases, Hlt. cbv zeta.
  rewrite (dirname_bare_name _ Hbare). reflexivity.
Qed.

End WritingFacts.

(** A checkpoint written next to an older one in [runs]. *)
Lemma save_best_model_frame_witness :
  let w := World ["runs"%string] [("runs/old.pt"%string, 3)] [] in
  let out := save_best_model (1 # 2) "runs/model.pt" (init 7, w) in
  let w' := snd (snd out) in
  fst out = inr tt /\
  lookup "runs/old.pt" (files w') = Some 3 /\
  (forall q, normal_path q = true ->
     absolute q = absolute "runs/model.pt" ->
     q <> "runs/model.pt"%string -> lookup q (files w') = lookup q (files w)) /\
  (forall d, is_dir w d = true -> is_dir w' d = true) /\
  (Qltb (1 # 2) (best_error (init 7)) = true -> fst out = inr tt ->
     is_dir w' (dirname "runs/model.pt") = true).
Proof.
  split; [reflexivity|]. split; [reflexivity|].
  apply (@save_best_model_frame nat (init 7)
           (World ["runs"%string] [("runs/old.pt"%string, 3)] [])
           (1 # 2)%Q "runs/model.pt"%string).
  reflexivity.
Defined.


Lemma save_best_model_bare_file_name_witness :
  save_best_model (1 # 2) "model.pt" (init 7, World [] [] []) =
  (inl FileNotFoundError,
   ({| best_error := (1 # 2)%Q; state_dict := state_dict (init 7) |},
    World [] [] [])).
Proof.
  apply (@save_best_model_bare_file_name nat (init 7) (World [] [] [])
           (1 # 2)%Q "model.pt"%string).
  - reflexivity.
  - simpl. intros H.
    repeat (destruct H as [H|H]; [discriminate H|]). exact H.
Defined.

End CheckpointFacts.

(** ** Facts: layers and containers shared by the encoder and the decoder *)

Module NNFacts.
Import Tensor TensorFacts NN.

(** *** Facts on index assignment *)

Lemma bind_Some {A B : Type} (m : option A) (k : A -> option B) (b : B) :
  bind m k = Some b -> exists a, m = Some a /\ k a = Some b.
Proof.
  destruct m as [a|]; simpl; [|discriminate].
  intros H. exists a. split; [reflexivity | exact H].
Qed.

Lemma update_length {A : Type} (k : nat) (v : A) (l : list A) :
  length (update k v l) = length l.
Proof.
  revert k. induction l as [|a l IH]; intros [|k]; simpl; try reflexivity.
  rewrite IH. reflexivity.
Qed.

Lemma update_same {A : Type} (k : nat) (v : A) (l : list A) :
  k < length l -> nth_error (update k v l) k = Some v.
Proof.
  revert k. induction l as [|a l IH]; intros [|k] H; simpl in *; try lia.
  - reflexivity.
  - apply IH. lia.
Qed.

Lemma update_other {A : Type} (k j : nat) (v : A) (l : list A) :
  j <> k -> nth_error (update k v l) j = nth_error l j.
Proof.
  revert k j. induction l as [|a l IH]; intros [|k] [|j] H; simpl;
    try reflexivity; try lia.
  apply IH. lia.
Qed.

Lemma wrap_index_lt (n : nat) (i : Z) (k : nat) :
  wrap_index n i = Some k -> k < n.
Proof.
  unfold wrap_index.
  destruct ((0 <=? i) && (i <? Z.of_nat n))%Z eqn:E1.
  - intros H. inversion H; subst.
    apply andb_true_iff in E1. destruct E1 as [H1 H2].
    apply Z.leb_le in H1. apply Z.ltb_lt in H2. lia.
  - destruct ((- Z.of_nat n <=? i) && (i <? 0))%Z eqn:E2; [|discriminate].
    intros H. inversion H; subst.
    apply andb_true_iff in E2. destruct E2 as [H1 H2].
    apply Z.leb_le in H1. apply Z.ltb_lt in H2. lia.
Qed.

Lemma setitem_spec {A : Type} (t : list A) (i : Z) (v : A) (t' : list A) :
  setitem t i v = Some t' ->
  exists k, wrap_index (length t) i = Some k /\
            length t' = length t /\
            nth_error t' k = Some v /\
            forall j, j <> k -> nth_error t' j = nth_error t j.
Proof.
  unfold setitem. intros H. apply bind_Some in H. destruct H as (k & Hk & H).
  inversion H; subst. exists k. split; [exact Hk|]. split; [apply update_length|].
  split.
  - apply update_same. apply (wrap_index_lt _ _ Hk).
  - intros j Hj. apply update_other. exact Hj.
Qed.

Lemma ones_length (n : Z) (m : list bool) :
  ones n = Some m -> Z.of_nat (length m) = n.
Proof.
  unfold ones. destruct (n <? 0)%Z eqn:E; [discriminate|].
  intros H. inversion H; subst. rewrite repeat_length.
  apply Z.ltb_ge in E. lia.
Qed.

(** A mask of ones with two positions cleared: its length, and the two
    positions read back. *)
Lemma cleared_twice (n p b : Z) (m0 m1 m2 : list bool) :
  ones n = Some m0 ->
  setitem m0 p false = Some m1 ->
  setitem m1 b false = Some m2 ->
  Z.of_nat (length m2) = n /\
  exists kp kb,
    wrap_index (length m2) p = Some kp /\ wrap_index (length m2) b = Some kb /\
    nth_error m2 kp = Some false /\ nth_error m2 kb = Some false.
Proof.
  intros H0 H1 H2.
  apply setitem_spec in H1. destruct H1 as (kp & Wp & L1 & Np & _).
  apply setitem_spec in H2. destruct H2 as (kb & Wb & L2 & Nb & Ob).
  split; [rewrite L2, L1; apply (ones_length _ H0)|].
  exists kp, kb. rewrite L2. split; [rewrite L1; exact Wp|].
  split; [exact Wb|]. split; [|exact Nb].
  destruct (Nat.eq_dec kp kb) as [->|Hne]; [exact Nb|].
  rewrite (Ob kp Hne). exact Np.
Qed.

Lemma expand_rows_exact {A : Type} (batch : nat) (n : Z) (row : list A)
    (m : list (list A)) :
  Z.of_nat (length row) = n -> expand_rows batch n row = Some m ->
  m = repeat row batch.
Proof.
  intros Hn. unfold expand_rows, expand_to.
  rewrite (proj2 (Z.eqb_eq _ _) Hn). simpl.
  intros H. inversion H. reflexivity.
Qed.

Lemma nth_error_repeat {A : Type} (a b : A) (n k : nat) :
  nth_error (repeat a n) k = Some b -> b = a.
Proof.
  intros H. apply nth_error_In in H. apply repeat_spec in H. exact H.
Qed.

(** *** A mask of ones with two positions cleared, entry by entry *)

Lemma update_nth {A : Type} (k j : nat) (v : A) (l : list A) :
  j < length l ->
  nth_error (update k v l) j = if Nat.eqb j k then Some v else nth_error l j.
Proof.
  intros Hj. destruct (Nat.eqb j k) eqn:E.
  - apply Nat.eqb_eq in E. subst k. apply update_same, Hj.
  - apply Nat.eqb_neq in E. apply update_other, E.
Qed.

Lemma wrap_index_nonneg (n : nat) (i : Z) (k : nat) :
  (0 <= i)%Z -> wrap_index n i = Some k ->
  k = Z.to_nat i /\ (i < Z.of_nat n)%Z.
Proof.
  intros Hi. unfold wrap_index.
  destruct ((0 <=? i) && (i <? Z.of_nat n))%Z eqn:E1.
  - intros H. inversion H; subst.
    apply andb_true_iff in E1. destruct E1 as [_ H2].
    apply Z.ltb_lt in H2. split; [reflexivity|exact H2].
  - destruct ((- Z.of_nat n <=? i) && (i <? 0))%Z eqn:E2; [|discriminate].
    apply andb_true_iff in E2. destruct E2 as [_ H2].
    apply Z.ltb_lt in H2. lia.
Qed.

Lemma wrap_index_beyond (n : nat) (i : Z) :
  (Z.of_nat n <= i)%Z -> wrap_index n i = None.
Proof.
  intros Hi. unfold wrap_index.
  destruct ((0 <=? i) && (i <? Z.of_nat n))%Z eqn:E1.
  - apply andb_true_iff in E1. destruct E1 as [_ H2].
    apply Z.ltb_lt in H2. lia.
  - destruct ((- Z.of_nat n <=? i) && (i <? 0))%Z eqn:E2; [|reflexivity].
    apply andb_true_iff in E2. destruct E2 as [_ H2].
    apply Z.ltb_lt in H2. lia.
Qed.

Lemma cleared_twice_exact (n p b : Z) (m0 m1 m2 : list bool) :
  ones n = Some m0 ->
  setitem m0 p false = Some m1 ->
  setitem m1 b false = Some m2 ->
  exists kp kb,
    wrap_index (length m2) p = Some kp /\ wrap_index (length m2) b = Some kb /\
    Z.of_nat (length m2) = n /\
    forall j, j < length m2 ->
      nth_error m2 j = Some (negb (Nat.eqb j kp || Nat.eqb j kb)).
Proof.
  intros H0 H1 H2.
  pose proof (ones_length _ H0) as L0.
  unfold ones in H0. destruct (n <? 0)%Z; [discriminate|].
  inversion H0; subst m0; clear H0.
  unfold setitem in H1, H2.
  apply bind_Some in H1. destruct H1 as (kp & Wp & H1).
  inversion H1; subst m1; clear H1.
  apply bind_Some in H2. destruct H2 as (kb & Wb & H2).
  inversion H2; subst m2; clear H2.
  rewrite !update_length in *.
  exists kp, kb. split; [exact Wp|]. split; [exact Wb|]. split; [exact L0|].
  intros j Hj.
  rewrite update_nth by (rewrite update_length; exact Hj).
  rewrite update_nth by exact Hj.
  rewrite repeat_length in Hj.
  assert (Hr : nth_error (repeat true (Z.to_nat n)) j = Some true).
  { apply List.nth_error_repeat, Hj. }
  rewrite Hr.
  destruct (Nat.eqb j kb), (Nat.eqb j kp); reflexivity.
Qed.

End NNFacts.

(** ** Facts: the video encoder *)

Module VideoEncoderFacts.
Import Tensor NN TensorFacts NNFacts VideoEncoder.

(** *** The steps of [forward] *)

Lemma forward_steps (self : t) (frames : tensor4) (lens : list Z) :
  forward self frames lens =
  if String.eqb (frame_processing self) "flatten" then
    st <- index_select (flatten frames) (Reorder.sorting_permutation lens) ;;
    packed <- pack_padded_sequence st (sorted_lengths lens) ;;
    encode_packed self packed (Reorder.restoration_permutation lens)
  else None.
Proof.
  unfold forward, encode_packed, sorted_lengths.
  destruct (String.eqb (frame_processing self) "flatten"); [|reflexivity].
  simpl bind. rewrite ReorderFacts.sort_batch_by_length_eq.
  destruct (index_select (flatten frames) (Reorder.sorting_permutation lens));
    reflexivity.
Qed.

(** The packed batch is a function of the lengths and of each sequence
    cut to its length. *)
Lemma packed_sorted (x : tensor3) (lens : list Z) (st : tensor3) :
  index_select x (Reorder.sorting_permutation lens) = Some st ->
  pack_padded_sequence st (sorted_lengths lens) =
  (_ <- assert (negb (Nat.eqb (length lens) 0)) ;;
   _ <- assert (forallb (fun l => (0 <? l)%Z) (sorted_lengths lens)) ;;
   _ <- assert (descending (sorted_lengths lens)) ;;
   mapM (fun k => s <- nth_error x k ;; l <- nth_error lens k ;; cut s l)
        (Reorder.sorting_permutation lens)).
Proof.
  intros Hst. unfold pack_padded_sequence.
  assert (Hsl : index_select lens (Reorder.sorting_permutation lens)
                = Some (sorted_lengths lens)) by apply ReorderFacts.tensor_sort_select.
  assert (L1 : length st = length lens).
  { unfold index_select in Hst. rewrite (mapM_length _ _ Hst).
    apply ReorderFacts.tensor_sort_length. }
  assert (L2 : length (sorted_lengths lens) = length lens).
  { unfold index_select in Hsl. rewrite (mapM_length _ _ Hsl).
    apply ReorderFacts.tensor_sort_length. }
  rewrite L1, L2, Nat.eqb_refl.
  rewrite (@zip_strict_select _ _ _ cut _ _ _ _ _ Hst Hsl).
  destruct (negb (Nat.eqb (length lens) 0)); reflexivity.
Qed.

(** *** Padding *)

Lemma cut_same_valid (frames frames' : tensor4) (lens : list Z) (k : nat) :
  length frames = length frames' ->
  same_valid_frames frames frames' lens ->
  (s <- nth_error (flatten frames) k ;; l <- nth_error lens k ;; cut s l) =
  (s <- nth_error (flatten frames') k ;; l <- nth_error lens k ;; cut s l).
Proof.
  intros Hlen Hsame. unfold flatten. rewrite !nth_error_map.
  unfold same_valid_frames in *.
  destruct (nth_error frames k) as [s|] eqn:Es.
  - destruct (nth_error frames' k) as [s'|] eqn:Es'.
    + simpl. destruct (nth_error lens k) as [len|] eqn:El; [|reflexivity].
      destruct (Hsame k len s s' El Es Es') as [Hl Hf].
      simpl. unfold cut. rewrite !length_map, Hl.
      rewrite !firstn_map, Hf. reflexivity.
    + apply nth_error_None in Es'.
      assert (k < length frames) by (apply nth_error_Some; congruence). lia.
  - destruct (nth_error frames' k) as [s'|] eqn:Es'; [|reflexivity].
    apply nth_error_None in Es.
    assert (k < length frames') by (apply nth_error_Some; congruence). lia.
Qed.

Lemma flatten_length (frames : tensor4) : length (flatten frames) = length frames.
Proof. apply length_map. Qed.

Lemma select_sorted (frames : tensor4) (lens : list Z) :
  length frames = length lens ->
  exists st, index_select (flatten frames) (Reorder.sorting_permutation lens) = Some st.
Proof.
  intros H. apply ReorderFacts.index_select_in_range.
  rewrite flatten_length, H.
  apply ReorderFacts.perm_seq_in_range, ReorderFacts.sorting_permutation_perm.
Qed.

(** The outputs of [forward] do not depend on the frames beyond each
    sequence's length. *)
Lemma forward_same_valid (self : t) (frames frames' : tensor4) (lens : list Z) :
  length frames = length lens -> length frames' = length lens ->
  same_valid_frames frames frames' lens ->
  forward self frames lens = forward self frames' lens.
Proof.
  intros H1 H2 Hsame. rewrite !forward_steps.
  destruct (String.eqb (frame_processing self) "flatten"); [|reflexivity].
  destruct (select_sorted frames lens H1) as [st Hst].
  destruct (select_sorted frames' lens H2) as [st' Hst'].
  rewrite Hst, Hst'. simpl bind.
  rewrite (packed_sorted _ _ Hst), (packed_sorted _ _ Hst').
  rewrite (mapM_ext_in _
             (fun k => s <- nth_error (flatten frames') k ;;
                       l <- nth_error lens k ;; cut s l)).
  - reflexivity.
  - intros k _. apply cut_same_valid; [congruence | exact Hsame].
Qed.

Lemma zero_row_repeat (packed : list tensor2) :
  exists w, zero_row packed = repeat 0%R w.
Proof.
  unfold zero_row. destruct packed as [|[|r s] packed].
  - exists 0. reflexivity.
  - exists 0. reflexivity.
  - exists (length r). reflexivity.
Qed.

(** Each packed sequence has the length of its batch element. *)
Lemma packed_lengths (x : tensor3) (lens : list Z) (st : tensor3)
    (packed : list tensor2) (k i : nat) (len : Z) :
  index_select x (Reorder.sorting_permutation lens) = Some st ->
  pack_padded_sequence st (sorted_lengths lens) = Some packed ->
  nth_error (Reorder.sorting_permutation lens) k = Some i ->
  nth_error lens i = Some len ->
  exists s, nth_error packed k = Some s /\ length s = Z.to_nat len.
Proof.
  intros Hst Hp Hk Hi. rewrite (packed_sorted _ _ Hst) in Hp.
  destruct (assert (negb (Nat.eqb (length lens) 0))); simpl in Hp; [|discriminate].
  destruct (assert (forallb (fun l => (0 <? l)%Z) (sorted_lengths lens)));
    simpl in Hp; [|discriminate].
  destruct (assert (descending (sorted_lengths lens))); simpl in Hp; [|discriminate].
  pose proof (mapM_nth_error _ _ k Hp) as Hn. rewrite Hk in Hn.
  rewrite Hi in Hn.
  assert (Hlt : k < length packed).
  { rewrite (mapM_length _ _ Hp). apply nth_error_Some. congruence. }
  destruct (nth_error x i) as [s|]; simpl in Hn.
  - unfold cut in Hn.
    destruct (len <=? Z.of_nat (length s))%Z eqn:E.
    + exists (firstn (Z.to_nat len) s). split; [exact Hn|].
      rewrite length_firstn. apply Z.leb_le in E. lia.
    + apply nth_error_None in Hn. lia.
  - apply nth_error_None in Hn. lia.
Qed.

Lemma pad_packed_sequence_nth (packed : list tensor2) (k : nat) (s : tensor2) :
  nth_error packed k = Some s ->
  nth_error (pad_packed_sequence packed) k =
  Some (s ++ repeat (zero_row packed) (max_length packed - length s)).
Proof.
  intros H. unfold pad_packed_sequence.
  apply (map_nth_error (fun s0 => s0 ++ repeat (zero_row packed) (max_length packed - length s0)) _ _ H).
Qed.

Lemma encode_packed_hidden (self : t) (packed : list tensor2) (rest : list nat)
    (lp : option tensor3) (hs : tensor3) (fs : rnn_state) :
  encode_packed self packed rest = Some (lp, hs, fs) ->
  index_select (pad_packed_sequence (fst (rnn self packed))) rest = Some hs.
Proof.
  unfold encode_packed. destruct (rnn self packed) as [phs fs0]. simpl.
  destruct (if bidirectional self then _cat_directions fs0 else Some fs0);
    simpl; [|discriminate].
  destruct (index_select (pad_packed_sequence phs) rest) as [hs'|];
    simpl; [|discriminate].
  destruct (restore_state r rest); simpl; [|discriminate].
  unfold ctc_head. destruct (enable_ctc self).
  - destruct (ctc self); simpl; [|discriminate].
    destruct (linear3 (output_proj c) hs'); simpl; [|discriminate].
    destruct (expand_rows _ _ _); simpl; [|discriminate].
    destruct (MaskedNorm.masked_log_softmax3 _ _); simpl; [|discriminate].
    intros H. inversion H; subst. reflexivity.
  - intros H. inversion H; subst. reflexivity.
Qed.

(** The hidden states returned for a batch element are the recurrent
    layer's outputs on its valid frames followed by zero rows. *)
Lemma forward_pads_with_zeros (self : t) (frames : tensor4) (lens : list Z)
    (lp : option tensor3) (hs : tensor3) (fs : rnn_state) :
  length frames = length lens ->
  (forall p, map (@length vec) (fst (rnn self p)) = map (@length vec) p) ->
  forward self frames lens = Some (lp, hs, fs) ->
  exists w, forall i len,
    nth_error lens i = Some len ->
    exists row valid,
      nth_error hs i = Some row /\ length valid = Z.to_nat len /\
      row = valid ++ repeat (repeat 0%R w) (length row - Z.to_nat len).
Proof.
  intros Hlen Hrnn Hfwd. rewrite forward_steps in Hfwd.
  destruct (String.eqb (frame_processing self) "flatten"); [|discriminate].
  destruct (select_sorted frames lens Hlen) as [st Hst].
  rewrite Hst in Hfwd. simpl in Hfwd.
  destruct (pack_padded_sequence st (sorted_lengths lens)) as [packed|] eqn:Hp;
    simpl in Hfwd; [|discriminate].
  apply encode_packed_hidden in Hfwd.
  set (phs := fst (rnn self packed)) in *.
  assert (Hmap : map (@length vec) phs = map (@length vec) packed) by apply Hrnn.
  assert (Lp : length packed = length lens).
  { rewrite (packed_sorted _ _ Hst) in Hp.
    destruct (assert (negb (Nat.eqb (length lens) 0))); simpl in Hp; [|discriminate].
    destruct (assert (forallb (fun l => (0 <? l)%Z) (sorted_lengths lens)));
      simpl in Hp; [|discriminate].
    destruct (assert (descending (sorted_lengths lens))); simpl in Hp;
      [|discriminate].
    rewrite (mapM_length _ _ Hp). apply ReorderFacts.tensor_sort_length. }
  assert (Lphs : length phs = length lens).
  { pose proof (f_equal (@length nat) Hmap) as E.
    rewrite !length_map in E. lia. }
  destruct (@ReorderFacts.restore_any tensor2 (pad_packed_sequence phs) lens)
    as (zs & Hzs & _ & Hrow).
  { unfold pad_packed_sequence. rewrite length_map. exact Lphs. }
  rewrite Hfwd in Hzs. inversion Hzs; subst zs; clear Hzs.
  destruct (zero_row_repeat phs) as [w Hw]. exists w.
  intros i len Hi.
  assert (Hin : In i (Reorder.sorting_permutation lens)).
  { apply (Permutation_in _
             (Permutation_sym (ReorderFacts.sorting_permutation_perm lens))).
    apply in_seq. split; [lia|]. simpl.
    apply nth_error_Some. congruence. }
  apply In_nth_error in Hin. destruct Hin as [k Hk].
  destruct (packed_lengths _ _ k Hst Hp Hk Hi) as (s & Hs & Ls).
  assert (Hphs : exists v, nth_error phs k = Some v /\ length v = Z.to_nat len).
  { pose proof (f_equal (fun l => nth_error l k) Hmap) as E. simpl in E.
    rewrite !nth_error_map, Hs in E. simpl in E.
    destruct (nth_error phs k) as [v|]; simpl in E; [|discriminate].
    exists v. split; [reflexivity|]. inversion E. lia. }
  destruct Hphs as (v & Hv & Lv).
  exists (v ++ repeat (zero_row phs) (max_length phs - length v)), v.
  split; [|split].
  - rewrite (Hrow k i Hk). apply pad_packed_sequence_nth, Hv.
  - exact Lv.
  - rewrite length_app, repeat_length, <- Hw. f_equal. f_equal. lia.
Qed.

(** C5. For two batches of the same shape that carry the same frames up
    to each sequence's length, [forward] gives the same outcome, so no
    output depends on the padding; and when it returns, the hidden states
    of each batch element are the recurrent layer's outputs on the valid
    frames followed by rows of zeros, the pad value. *)
Theorem forward_ignores_padding (self : t) (frames frames' : tensor4)
    (frame_lens : list Z) :
  length frames = length frame_lens ->
  length frames' = length frame_lens ->
  same_valid_frames frames frames' frame_lens ->
  (forall p, map (@length vec) (fst (rnn self p)) = map (@length vec) p) ->
  forward self frames frame_lens = forward self frames' frame_lens /\
  forall lp hs fs,
    forward self frames frame_lens = Some (lp, hs, fs) ->
    exists w, forall i len,
      nth_error frame_lens i = Some len ->
      exists row valid,
        nth_error hs i = Some row /\ length valid = Z.to_nat len /\
        row = valid ++ repeat (repeat 0%R w) (length row - Z.to_nat len).
Proof.
  intros H1 H2 Hsame Hrnn. split.
  - apply forward_same_valid; assumption.
  - intros lp hs fs Hfwd.
    apply (forward_pads_with_zeros self frames frame_lens H1 Hrnn Hfwd).
Qed.

(** *** The final state *)

Lemma evens_odds_Forall {A : Type} (P : A -> Prop) (s : list A) :
  Forall P s -> Forall P (evens s) /\ Forall P (odds s).
Proof.
  induction 1 as [|a s Ha _ [IH1 IH2]]; simpl.
  - split; constructor.
  - split; [constructor; assumption | assumption].
Qed.

Lemma _cat_spec (s : tensor3) (n b h : nat) :
  shape3 (2 * n) b h s ->
  exists out,
    _cat s = Some out /\
    shape3 n b (2 * h) out /\
    forall l x y, nth_error s (2 * l) = Some x -> nth_error s (2 * l + 1) = Some y ->
                  nth_error out l = Some (append_rows x y).
Proof.
  intros [Ls Fs].
  destruct (evens_odds_length_double s n Ls) as [Le Lo].
  destruct (evens_odds_Forall Fs) as [Fe Fo].
  destruct (@cat_dim2_spec R (evens s) (odds s) n b h) as (out & Hc & Hshape & Hnth).
  { split; assumption. }
  { split; assumption. }
  exists out. split; [exact Hc|]. split; [exact Hshape|].
  intros l x y Hx Hy. apply Hnth.
  - rewrite (proj1 (evens_odds_nth_error s l)). exact Hx.
  - rewrite (proj2 (evens_odds_nth_error s l)). exact Hy.
Qed.

Lemma index_select_Forall {A : Type} (P : A -> Prop) (x : list A) (idx : list nat)
    (z : list A) :
  index_select x idx = Some z -> Forall P x -> Forall P z.
Proof.
  unfold index_select. intros Hz Hx. rewrite Forall_forall in *.
  intros a Ha. apply In_nth_error in Ha. destruct Ha as [i Hi].
  rewrite (mapM_nth_error _ _ i Hz) in Hi.
  destruct (nth_error idx i); [|discriminate].
  apply Hx. apply (nth_error_In _ _ Hi).
Qed.

(** Restoring the batch order of every layer of a state tensor. *)
Lemma restore_layers (s : tensor3) (lens : list Z) (n h : nat) :
  shape3 n (length lens) h s ->
  exists out,
    index_select1 s (Reorder.restoration_permutation lens) = Some out /\
    shape3 n (length lens) h out /\
    forall l k i, nth_error (Reorder.sorting_permutation lens) k = Some i ->
                  entry out l i = entry s l k.
Proof.
  intros [Ls Fs]. unfold index_select1.
  destruct (mapM_some (fun layer => index_select layer
                                      (Reorder.restoration_permutation lens)) s)
    as [out Hout].
  { intros x Hx. rewrite Forall_forall in Fs. destruct (Fs x Hx) as [Lx _].
    destruct (ReorderFacts.restore_any x lens Lx) as (zs & Hzs & _).
    exists zs. exact Hzs. }
  exists out. split; [exact Hout|].
  assert (Hlayer : forall l z, nth_error out l = Some z ->
            exists x, nth_error s l = Some x /\
                      index_select x (Reorder.restoration_permutation lens) = Some z).
  { intros l z Hz. rewrite (mapM_nth_error _ _ l Hout) in Hz.
    destruct (nth_error s l) as [x|]; [|discriminate].
    exists x. split; [reflexivity | exact Hz]. }
  split; [split|].
  - rewrite (mapM_length _ _ Hout). exact Ls.
  - rewrite Forall_forall in *. intros z Hz.
    apply In_nth_error in Hz. destruct Hz as [l Hl].
    destruct (Hlayer l z Hl) as (x & Hx & Hsel).
    destruct (Fs x (nth_error_In _ _ Hx)) as [Lx Fx].
    destruct (ReorderFacts.restore_any x lens Lx) as (zs & Hzs & Lzs & _).
    rewrite Hsel in Hzs. inversion Hzs; subst zs. split; [exact Lzs|].
    apply (index_select_Forall _ Hsel Fx).
  - intros l k i Hk. unfold entry.
    rewrite (mapM_nth_error _ _ l Hout).
    destruct (nth_error s l) as [x|] eqn:Hx; [|reflexivity]. simpl.
    rewrite Forall_forall in Fs.
    destruct (Fs x (nth_error_In _ _ Hx)) as [Lx _].
    destruct (ReorderFacts.restore_any x lens Lx) as (zs & Hzs & _ & Hrow).
    rewrite Hzs. simpl. apply Hrow. exact Hk.
Qed.

Lemma append_rows_entry (s out : tensor3) (l k : nat) (x y : tensor2) (u v : vec) :
  nth_error s (2 * l) = Some x -> nth_error s (2 * l + 1) = Some y ->
  nth_error out l = Some (append_rows x y) ->
  entry s (2 * l) k = Some u -> entry s (2 * l + 1) k = Some v ->
  entry out l k = Some (u ++ v).
Proof.
  unfold entry. intros Hx Hy Ho Hu Hv.
  rewrite Hx in Hu. rewrite Hy in Hv. rewrite Ho. simpl in *.
  apply append_rows_nth_error; assumption.
Qed.

(** Joining the directions of one state tensor and restoring its batch
    order. *)
Lemma join_tensor (s : tensor3) (lens : list Z) (n h : nat) :
  shape3 (2 * n) (length lens) h s ->
  exists c out,
    _cat s = Some c /\
    index_select1 c (Reorder.restoration_permutation lens) = Some out /\
    shape3 n (length lens) (2 * h) out /\
    directions_joined (Reorder.sorting_permutation lens) s out.
Proof.
  intros Hs.
  destruct (@_cat_spec s n (length lens) h Hs) as (c & Hc & Hcs & Hcn).
  destruct (@restore_layers c lens n (2 * h) Hcs) as (out & Ho & Hos & Hon).
  exists c, out. repeat split; try assumption; try apply Hos.
  intros l k i u v Hk Hu Hv. rewrite (Hon l k i Hk).
  assert (Ex : exists x, nth_error s (2 * l) = Some x).
  { unfold entry in Hu. destruct (nth_error s (2 * l)); [eexists; reflexivity|discriminate]. }
  assert (Ey : exists y, nth_error s (2 * l + 1) = Some y).
  { unfold entry in Hv. destruct (nth_error s (2 * l + 1)); [eexists; reflexivity|discriminate]. }
  destruct Ex as [x Hx]. destruct Ey as [y Hy].
  apply (append_rows_entry s c l k Hx Hy (Hcn l x y Hx Hy) Hu Hv).
Qed.

Lemma Forall2_at {A B : Type} (P : A -> B -> Prop) (l1 : list A) (l2 : list B)
    (k : nat) (a : A) (b : B) :
  Forall2 P l1 l2 -> nth_error l1 k = Some a -> nth_error l2 k = Some b -> P a b.
Proof.
  intros H. revert k. induction H as [|x y l1 l2 Hxy _ IH]; intros [|k] Ha Hb;
    simpl in *; try discriminate.
  - inversion Ha; inversion Hb; subst. exact Hxy.
  - apply (IH k Ha Hb).
Qed.

Lemma descending_of_sorted (l : list Z) :
  StronglySorted (fun a b => Z.geb a b = true) l -> descending l = true.
Proof.
  unfold descending. induction 1 as [|a l Hs IH Ha]; [reflexivity|].
  destruct l as [|b l]; [reflexivity|].
  simpl. simpl in IH. rewrite IH, andb_true_r.
  inversion Ha; subst. apply Z.leb_le. apply Z.geb_le. assumption.
Qed.

Lemma pack_valid (frames : tensor4) (lens : list Z) :
  length frames = length lens -> lens <> [] -> valid_lengths frames lens ->
  exists st packed,
    index_select (flatten frames) (Reorder.sorting_permutation lens) = Some st /\
    pack_padded_sequence st (sorted_lengths lens) = Some packed /\
    length packed = length lens.
Proof.
  intros Hlen Hne Hvalid.
  destruct (select_sorted frames lens Hlen) as [st Hst].
  destruct (mapM_some
              (fun k => s <- nth_error (flatten frames) k ;;
                        l <- nth_error lens k ;; cut s l)
              (Reorder.sorting_permutation lens)) as [packed Hpacked].
  { intros k Hk.
    apply (Permutation_in _ (ReorderFacts.sorting_permutation_perm lens)), in_seq in Hk.
    destruct (nth_error frames k) as [s|] eqn:Es;
      [|apply nth_error_None in Es; lia].
    destruct (nth_error lens k) as [l|] eqn:El;
      [|apply nth_error_None in El; lia].
    pose proof (Forall2_at _ Hvalid Es El) as Hl. simpl in Hl.
    unfold flatten. rewrite nth_error_map, Es. simpl.
    unfold cut. rewrite length_map.
    destruct (l <=? Z.of_nat (length s))%Z eqn:E.
    - eexists. reflexivity.
    - apply Z.leb_gt in E. lia. }
  exists st, packed. split; [exact Hst|]. split.
  - rewrite (packed_sorted _ _ Hst), Hpacked.
    replace (negb (Nat.eqb (length lens) 0)) with true
      by (destruct lens; [contradiction | reflexivity]).
    replace (forallb (fun l => (0 <? l)%Z) (sorted_lengths lens)) with true.
    + unfold sorted_lengths.
      rewrite (descending_of_sorted (ReorderFacts.sorted_values_descending lens)).
      reflexivity.
    + symmetry. apply forallb_forall. intros l Hl.
      apply (Permutation_in _ (ReorderFacts.sorted_values_perm Z.geb lens)) in Hl.
      apply In_nth_error in Hl. destruct Hl as [k Hk].
      destruct (nth_error frames k) as [s|] eqn:Es.
      * pose proof (Forall2_at _ Hvalid Es Hk) as H. simpl in H.
        apply Z.ltb_lt. lia.
      * apply nth_error_None in Es.
        assert (k < length lens) by (apply nth_error_Some; congruence). lia.
  - rewrite (mapM_length _ _ Hpacked). apply ReorderFacts.tensor_sort_length.
Qed.

Lemma ctc_head_keeps (self : t) (hs : tensor3) (fs : rnn_state)
    (out : option tensor3 * tensor3 * rnn_state) :
  ctc_head self hs fs = Some out -> snd (fst out) = hs /\ snd out = fs.
Proof.
  unfold ctc_head. destruct (enable_ctc self).
  - destruct (ctc self); simpl; [|discriminate].
    destruct (linear3 (output_proj c) hs); simpl; [|discriminate].
    destruct (expand_rows _ _ _); simpl; [|discriminate].
    destruct (MaskedNorm.masked_log_softmax3 _ _); simpl; [|discriminate].
    intros H. inversion H; subst. split; reflexivity.
  - intros H. inversion H; subst. split; reflexivity.
Qed.

(** C4. For a bidirectional encoder on a valid batch, with a recurrent
    layer that returns one hidden sequence per packed sequence and a final
    state of shape [(2 * num_layers, batch, hidden_size)], [forward]
    reaches its return statement with a final state of shape
    [(num_layers, batch, 2 * hidden_size)] in which every layer and batch
    element holds the state of the even slot (forward direction) followed
    by the state of the odd slot (backward direction); for an LSTM state
    both members are joined so.  Every returned triple carries that final
    state, and without CTC the call returns it. *)
Theorem forward_final_state_bidirectional (self : t) (frames : tensor4)
    (frame_lens : list Z) :
  bidirectional self = true ->
  frame_processing self = "flatten"%string ->
  length frames = length frame_lens -> frame_lens <> [] ->
  valid_lengths frames frame_lens ->
  (forall p, map (@length vec) (fst (rnn self p)) = map (@length vec) p) ->
  (forall p, state_shape (2 * num_layers self) (length p) (hidden_size self)
               (snd (rnn self p))) ->
  exists st packed hs fs,
    index_select (flatten frames) (Reorder.sorting_permutation frame_lens) = Some st /\
    pack_padded_sequence st (sorted_lengths frame_lens) = Some packed /\
    forward self frames frame_lens = ctc_head self hs fs /\
    state_shape (num_layers self) (length frames) (2 * hidden_size self) fs /\
    state_joined (Reorder.sorting_permutation frame_lens) (snd (rnn self packed)) fs /\
    (forall out, forward self frames frame_lens = Some out -> snd out = fs) /\
    (enable_ctc self = false ->
       forward self frames frame_lens = Some (None, hs, fs)).
Proof.
  intros Hbi Hflat Hlen Hne Hvalid Hseq Hshape.
  destruct (pack_valid Hlen Hne Hvalid) as (st & packed & Hst & Hp & Lp).
  assert (Lphs : length (pad_packed_sequence (fst (rnn self packed)))
                 = length frame_lens).
  { unfold pad_packed_sequence. rewrite length_map.
    pose proof (f_equal (@length nat) (Hseq packed)) as E.
    rewrite !length_map in E. lia. }
  destruct (ReorderFacts.restore_any _ frame_lens Lphs) as (hs & Hhs & _).
  pose proof (Hshape packed) as Hraw. rewrite Lp in Hraw.
  assert (Hjoin : exists c fs,
            _cat_directions (snd (rnn self packed)) = Some c /\
            restore_state c (Reorder.restoration_permutation frame_lens) = Some fs /\
            state_shape (num_layers self) (length frame_lens)
                        (2 * hidden_size self) fs /\
            state_joined (Reorder.sorting_permutation frame_lens)
                         (snd (rnn self packed)) fs).
  { destruct (snd (rnn self packed)) as [s|h c]; cbn [state_shape] in Hraw.
    - destruct (@join_tensor s frame_lens _ _ Hraw) as (c & out & Hc & Ho & Hs & Hj).
      exists (StateTensor c), (StateTensor out).
      split; [unfold _cat_directions; rewrite Hc; reflexivity|].
      split; [unfold restore_state; rewrite Ho; reflexivity|].
      split; [exact Hs | exact Hj].
    - destruct Hraw as [Hh Hc].
      destruct (@join_tensor h frame_lens _ _ Hh) as (h1 & h2 & Hh1 & Hh2 & Hhsh & Hhj).
      destruct (@join_tensor c frame_lens _ _ Hc) as (c1 & c2 & Hc1 & Hc2 & Hcsh & Hcj).
      exists (StateTuple h1 c1), (StateTuple h2 c2).
      split; [unfold _cat_directions; rewrite Hh1, Hc1; reflexivity|].
      split; [unfold restore_state; rewrite Hh2, Hc2; reflexivity|].
      split; [split; assumption | split; assumption]. }
  destruct Hjoin as (c & fs & Hc & Hfs & Hs & Hj).
  assert (Hfwd : forward self frames frame_lens = ctc_head self hs fs).
  { rewrite forward_steps, Hflat. simpl String.eqb. cbv iota.
    rewrite Hst. simpl bind. rewrite Hp. simpl bind.
    unfold encode_packed.
    destruct (rnn self packed) as [phs fs0]. simpl in *.
    rewrite Hbi, Hc. simpl. rewrite Hhs. simpl. rewrite Hfs. reflexivity. }
  exists st, packed, hs, fs.
  split; [exact Hst|]. split; [exact Hp|]. split; [exact Hfwd|].
  split; [rewrite Hlen; exact Hs|]. split; [exact Hj|]. split.
  - intros out Hout. rewrite Hfwd in Hout.
    apply (ctc_head_keeps _ _ _ Hout).
  - intros Hctc. rewrite Hfwd. unfold ctc_head. rewrite Hctc. reflexivity.
Qed.

(** *** The encoder instance *)

Example forward_example :
  forward example_encoder example_frames example_lens =
  Some (None,
        [ [[1; 2]; [0; 0]]; [[5; 6]; [7; 8]] ]%R,
        StateTensor [ [ [0; INR 1; 1; INR 1]; [0; INR 2; 1; INR 2] ] ]%R).
Proof. reflexivity. Qed.

Lemma example_same_valid :
  same_valid_frames example_frames example_frames' example_lens.
Proof.
  intros i len s s' Hl Hs Hs'.
  destruct i as [|[|i]]; simpl in Hl, Hs, Hs'.
  - inversion Hl; inversion Hs; inversion Hs'; subst. split; reflexivity.
  - inversion Hl; inversion Hs; inversion Hs'; subst. split; reflexivity.
  - destruct i; discriminate.
Qed.

Lemma example_rnn_lengths (p : list tensor2) :
  map (@length vec) (fst (rnn example_encoder p)) = map (@length vec) p.
Proof. reflexivity. Qed.

Lemma example_rnn_shape (p : list tensor2) :
  state_shape (2 * num_layers example_encoder) (length p)
    (hidden_size example_encoder) (snd (rnn example_encoder p)).
Proof.
  simpl. split; [reflexivity|].
  repeat constructor; try apply length_map;
    apply Forall_forall; intros r Hr; apply in_map_iff in Hr;
    destruct Hr as (x & <- & _); reflexivity.
Qed.

Lemma example_valid_lengths : valid_lengths example_frames example_lens.
Proof. repeat constructor; simpl; lia. Qed.

(** C5 at the example batch. *)
Lemma forward_ignores_padding_witness :
  forward example_encoder example_frames example_lens
  = forward example_encoder example_frames' example_lens /\
  forall lp hs fs,
    forward example_encoder example_frames example_lens = Some (lp, hs, fs) ->
    exists w, forall i len,
      nth_error example_lens i = Some len ->
      exists row valid,
        nth_error hs i = Some row /\ length valid = Z.to_nat len /\
        row = valid ++ repeat (repeat 0%R w) (length row - Z.to_nat len).
Proof.
  apply (@forward_ignores_padding example_encoder example_frames example_frames'
           example_lens).
  - reflexivity.
  - reflexivity.
  - exact example_same_valid.
  - exact example_rnn_lengths.
Defined.

(** C4 at the example batch. *)
Lemma forward_final_state_bidirectional_witness :
  exists st packed hs fs,
    index_select (flatten example_frames)
      (Reorder.sorting_permutation example_lens) = Some st /\
    pack_padded_sequence st (sorted_lengths example_lens) = Some packed /\
    forward example_encoder example_frames example_lens
      = ctc_head example_encoder hs fs /\
    state_shape (num_layers example_encoder) (length example_frames)
      (2 * hidden_size example_encoder) fs /\
    state_joined (Reorder.sorting_permutation example_lens)
      (snd (rnn example_encoder packed)) fs /\
    (forall out, forward example_encoder example_frames example_lens = Some out ->
                 snd out = fs) /\
    (enable_ctc example_encoder = false ->
       forward example_encoder example_frames example_lens = Some (None, hs, fs)).
Proof.
  apply (@forward_final_state_bidirectional example_encoder example_frames
           example_lens).
  - reflexivity.
  - reflexivity.
  - reflexivity.
  - discriminate.
  - exact example_valid_lengths.
  - exact example_rnn_lengths.
  - exact example_rnn_shape.
Defined.

(** *** The CTC head *)

Lemma forward_reaches_head (self : t) (frames : tensor4) (lens : list Z)
    (out : option tensor3 * tensor3 * rnn_state) :
  forward self frames lens = Some out ->
  exists hs fs, ctc_head self hs fs = Some out.
Proof.
  rewrite forward_steps.
  destruct (String.eqb (frame_processing self) "flatten"); [|discriminate].
  intros H.
  apply bind_Some in H. destruct H as (st & _ & H).
  apply bind_Some in H. destruct H as (packed & _ & H).
  unfold encode_packed in H. destruct (rnn self packed) as [phs fs0].
  apply bind_Some in H. destruct H as (fs1 & _ & H).
  apply bind_Some in H. destruct H as (hs & _ & H).
  apply bind_Some in H. destruct H as (fs & _ & H).
  exists hs, fs. exact H.
Qed.

(** With CTC, every row of the returned log-probabilities holds the
    sentinel wherever the output mask is off. *)
Lemma ctc_head_masked (self : t) (head : CTCHead) (hs hs' : tensor3)
    (fs fs' : rnn_state) (lp : tensor3) (b t j : nat) (seq : tensor2) (row : vec) :
  enable_ctc self = true -> ctc self = Some head ->
  Z.of_nat (length (output_mask head)) = adj_vocab_size head ->
  ctc_head self hs fs = Some (Some lp, hs', fs') ->
  nth_error lp b = Some seq -> nth_error seq t = Some row ->
  nth_error (output_mask head) j = Some false ->
  length row = length (output_mask head) /\
  nth_error row j = Some MaskedNorm.neg_sentinel.
Proof.
  intros Hctc Hhead Hlen H Hb Ht Hj. unfold ctc_head in H.
  rewrite Hctc, Hhead in H. cbn [bind] in H.
  apply bind_Some in H. destruct H as (logits & _ & H).
  apply bind_Some in H. destruct H as (m & Hm & H).
  apply bind_Some in H. destruct H as (lp0 & Hlp & H).
  inversion H; subst lp0 hs' fs'; clear H.
  apply (expand_rows_exact _ _ Hlen) in Hm. subst m.
  unfold MaskedNorm.masked_log_softmax3 in Hlp.
  rewrite (zip_strict_nth_error _ _ _ b Hlp) in Hb.
  destruct (nth_error logits b) as [xb|]; [|discriminate].
  destruct (nth_error (repeat (output_mask head) (length logits)) b)
    as [mr|] eqn:Emr; [|discriminate].
  apply nth_error_repeat in Emr. subst mr.
  rewrite (mapM_nth_error _ _ t Hb) in Ht.
  destruct (nth_error xb t) as [xr|]; [|discriminate].
  apply (MaskedNormFacts.checked_log_row_masked _ _ _ Ht Hj).
Qed.

Lemma ctc_attributes_spec (PAD BOS : string) (hidden : nat) (bi : bool) (vs : Z)
    (d : dict) (proj : Linear) (head : CTCHead) :
  ctc_attributes PAD BOS hidden bi vs d proj = Some head ->
  exists pad bos,
    getitem d PAD = Some pad /\ getitem d BOS = Some bos /\
    Z.of_nat (length (output_mask head)) = adj_vocab_size head /\
    exists kp kb,
      wrap_index (length (output_mask head)) (pad + 1) = Some kp /\
      wrap_index (length (output_mask head)) (bos + 1) = Some kb /\
      nth_error (output_mask head) kp = Some false /\
      nth_error (output_mask head) kb = Some false.
Proof.
  unfold ctc_attributes. intros H.
  apply bind_Some in H. destruct H as (m0 & H0 & H).
  apply bind_Some in H. destruct H as (pad & Hpad & H).
  apply bind_Some in H. destruct H as (m1 & H1 & H).
  apply bind_Some in H. destruct H as (bos & Hbos & H).
  apply bind_Some in H. destruct H as (m2 & H2 & H).
  inversion H; subst head; clear H. simpl.
  exists pad, bos. split; [exact Hpad|]. split; [exact Hbos|].
  apply (@cleared_twice _ _ _ _ _ _ H0 H1 H2).
Qed.

Lemma init_ctc (PAD BOS : string) (fd hidden : nat) (fp rt : string) (nl : nat)
    (bi : bool) (dr : Q) (vs : Z) (d : dict)
    (rnn_layer : list tensor2 -> list tensor2 * rnn_state) (proj : Linear)
    (obj : Checkpoint.component t) :
  __init__ PAD BOS fd hidden fp rt nl bi dr true vs (Some d) rnn_layer proj
    = Some obj ->
  exists head,
    ctc_attributes PAD BOS hidden bi vs d proj = Some head /\
    enable_ctc (Checkpoint.state_dict obj) = true /\
    ctc (Checkpoint.state_dict obj) = Some head.
Proof.
  unfold __init__. intros H.
  apply bind_Some in H. destruct H as (_ & _ & H).
  apply bind_Some in H. destruct H as (_ & _ & H).
  apply bind_Some in H. destruct H as (_ & _ & H).
  apply bind_Some in H. destruct H as (h & Hh & H).
  apply bind_Some in Hh. destruct Hh as (head & Hhead & Hh).
  inversion Hh; subst h; clear Hh.
  inversion H; subst obj; clear H.
  exists head. repeat split. exact Hhead.
Qed.

Example example_ctc_encoder_init :
  __init__ "<pad>" "<bos>" 2 2 "flatten" "RNN" 1 true 0 true 4
    (Some example_ctc_dict) example_rnn example_ctc_proj
  = Some (Checkpoint.init example_ctc_encoder).
Proof. reflexivity. Qed.

Example forward_ctc_example :
  exists lp hs fs,
    forward example_ctc_encoder example_frames example_lens
    = Some (Some lp, hs, fs) /\
    exists seq row, nth_error lp 0 = Some seq /\ nth_error seq 0 = Some row /\
                    nth_error row 1 = Some MaskedNorm.neg_sentinel /\
                    nth_error row 2 = Some MaskedNorm.neg_sentinel.
Proof.
  do 3 eexists. split; [reflexivity|].
  do 2 eexists. repeat split.
Qed.

(** *** What [__init__] accepts and what it builds *)

(** [__init__] with CTC, step by step. *)
Lemma init_ctc_steps (PAD BOS : string) (fd hidden : nat) (fp rt : string)
    (nl : nat) (bi : bool) (dr : Q) (vs : Z) (c2i : option dict)
    (rnn_layer : list tensor2 -> list tensor2 * rnn_state) (proj : Linear)
    (obj : Checkpoint.component t) :
  __init__ PAD BOS fd hidden fp rt nl bi dr true vs c2i rnn_layer proj
    = Some obj ->
  (0 < vs)%Z /\
  exists d pad bos m0 m1 m2,
    c2i = Some d /\ ones (vs + 1) = Some m0 /\
    getitem d PAD = Some pad /\ setitem m0 (pad + 1) false = Some m1 /\
    getitem d BOS = Some bos /\ setitem m1 (bos + 1) false = Some m2 /\
    ctc (Checkpoint.state_dict obj) =
    Some {| vocab_size := vs; adj_vocab_size := vs + 1; char2idx := d;
            num_dirs := if bi then 2 else 1; output_mask := m2;
            output_proj := proj |}.
Proof.
  unfold __init__. intros H.
  apply bind_Some in H. destruct H as (_ & _ & H).
  apply bind_Some in H. destruct H as (_ & _ & H).
  apply bind_Some in H. destruct H as (u1 & Ha & H).
  apply bind_Some in H. destruct H as (h & Hh & H).
  unfold assert in Ha.
  destruct (0 <? vs)%Z eqn:Ev; [|discriminate].
  destruct c2i as [d|]; [|discriminate].
  split; [apply Z.ltb_lt, Ev|].
  apply bind_Some in Hh. destruct Hh as (head & Hhead & Hh).
  inversion Hh; subst h; clear Hh.
  inversion H; subst obj; clear H. simpl.
  unfold ctc_attributes in Hhead.
  apply bind_Some in Hhead. destruct Hhead as (m0 & H0 & H).
  apply bind_Some in H. destruct H as (pad & Hpad & H).
  apply bind_Some in H. destruct H as (m1 & H1 & H).
  apply bind_Some in H. destruct H as (bos & Hbos & H).
  apply bind_Some in H. destruct H as (m2 & H2 & H).
  inversion H; subst head; clear H.
  exists d, pad, bos, m0, m1, m2. repeat split; assumption.
Qed.

(** X4. The CTC output mask of a constructed encoder, entry by entry, for
    reserved symbols with indices from 0 on: the indices lie within the
    vocabulary, the mask has [vocab_size + 1] entries, it is off at
    exactly one position above the index of [PAD] and one above the index
    of [BOS], and so the blank symbol at position 0 is allowed. *)
Theorem init_ctc_output_mask (PAD BOS : string) (fd hidden : nat)
    (fp rt : string) (nl : nat) (bi : bool) (dr : Q) (vs : Z) (d : dict)
    (rnn_layer : list tensor2 -> list tensor2 * rnn_state) (proj : Linear)
    (obj : Checkpoint.component t) (pad bos : Z) :
  __init__ PAD BOS fd hidden fp rt nl bi dr true vs (Some d) rnn_layer proj
    = Some obj ->
  getitem d PAD = Some pad -> getitem d BOS = Some bos ->
  (0 <= pad)%Z -> (0 <= bos)%Z ->
  exists head,
    ctc (Checkpoint.state_dict obj) = Some head /\
    (pad < vs)%Z /\ (bos < vs)%Z /\
    Z.of_nat (length (output_mask head)) = (vs + 1)%Z /\
    (forall j, (Z.of_nat j <= vs)%Z ->
       nth_error (output_mask head) j =
       Some (negb (Nat.eqb j (Z.to_nat (pad + 1))
                   || Nat.eqb j (Z.to_nat (bos + 1))))) /\
    nth_error (output_mask head) 0 = Some true.
Proof.
  intros H Hpad Hbos Hp Hb.
  apply init_ctc_steps in H.
  destruct H as (_ & d' & pad' & bos' & m0 & m1 & m2 & Hd & H0 & Hpad' & H1
                 & Hbos' & H2 & Hctc).
  inversion Hd; subst d'; clear Hd.
  rewrite Hpad in Hpad'. inversion Hpad'; subst pad'; clear Hpad'.
  rewrite Hbos in Hbos'. inversion Hbos'; subst bos'; clear Hbos'.
  destruct (@cleared_twice_exact _ _ _ _ _ _ H0 H1 H2) as (kp & kb & Wp & Wb & L & Hj).
  apply wrap_index_nonneg in Wp; [|lia]. destruct Wp as [-> Wp].
  apply wrap_index_nonneg in Wb; [|lia]. destruct Wb as [-> Wb].
  eexists. split; [exact Hctc|]. cbn [output_mask].
  split; [lia|]. split; [lia|]. split; [exact L|].
  assert (G : forall j, (Z.of_nat j <= vs)%Z ->
       nth_error m2 j =
       Some (negb (Nat.eqb j (Z.to_nat (pad + 1))
                   || Nat.eqb j (Z.to_nat (bos + 1))))).
  { intros j Hjv. apply Hj. lia. }
  split; [exact G|].
  rewrite G by lia.
  destruct (Nat.eqb_spec 0 (Z.to_nat (pad + 1))); [lia|].
  destruct (Nat.eqb_spec 0 (Z.to_nat (bos + 1))); [lia|]. reflexivity.
Qed.

(** X5. With CTC, [__init__] raises when [vocab_size] is not positive, when
    [char2idx] is missing or lacks [PAD] or [BOS], and when the index of
    a reserved symbol is [vocab_size] or more. *)
Theorem init_ctc_rejects (PAD BOS : string) (fd hidden : nat)
    (fp rt : string) (nl : nat) (bi : bool) (dr : Q) (vs : Z)
    (c2i : option dict)
    (rnn_layer : list tensor2 -> list tensor2 * rnn_state) (proj : Linear) :
  (vs <= 0)%Z \/ c2i = None \/
  (exists d, c2i = Some d /\
     (getitem d PAD = None \/ getitem d BOS = None \/
      exists i, (getitem d PAD = Some i \/ getitem d BOS = Some i) /\
                (vs <= i)%Z)) ->
  __init__ PAD BOS fd hidden fp rt nl bi dr true vs c2i rnn_layer proj = None.
Proof.
  intros Hbad.
  destruct (__init__ PAD BOS fd hidden fp rt nl bi dr true vs c2i rnn_layer proj)
    as [obj|] eqn:E; [exfalso|reflexivity].
  apply init_ctc_steps in E.
  destruct E as (Hvs & d & pad & bos & m0 & m1 & m2 & Hd & H0 & Hpad & H1
                 & Hbos & H2 & _).
  destruct Hbad as [Hbad|[Hbad|(d' & Hd' & Hbad)]]; [lia|congruence|].
  rewrite Hd in Hd'. inversion Hd'; subst d'; clear Hd'.
  destruct Hbad as [Hbad|[Hbad|(i & Hi & Hbig)]]; [congruence|congruence|].
  pose proof (ones_length _ H0) as L0.
  unfold setitem in H1, H2.
  apply bind_Some in H1. destruct H1 as (kp & Wp & H1).
  inversion H1; subst m1; clear H1.
  apply bind_Some in H2. destruct H2 as (kb & Wb & _).
  rewrite update_length in Wb.
  destruct Hi as [Hi|Hi].
  - assert (i = pad) by congruence. subst i.
    rewrite wrap_index_beyond in Wp by lia. discriminate.
  - assert (i = bos) by congruence. subst i.
    rewrite wrap_index_beyond in Wb by lia. discriminate.
Qed.

(** X6. Every encoder that [__init__] returns is well formed: the frame
    processing is [flatten] and the recurrent type one of the three,
    the arguments are stored as given, [best_error] is 1, and the CTC
    attributes are there exactly when [enable_ctc] holds, on a non-empty
    vocabulary and with one mask entry per adjusted symbol. *)
Theorem init_well_formed (PAD BOS : string) (fd hidden : nat)
    (fp rt : string) (nl : nat) (bi : bool) (dr : Q) (en : bool) (vs : Z)
    (c2i : option dict)
    (rnn_layer : list tensor2 -> list tensor2 * rnn_state) (proj : Linear)
    (obj : Checkpoint.component t) :
  __init__ PAD BOS fd hidden fp rt nl bi dr en vs c2i rnn_layer proj
    = Some obj ->
  let self := Checkpoint.state_dict obj in
  Checkpoint.best_error obj = 1%Q /\
  frame_processing self = "flatten"%string /\
  In (rnn_type self) ["LSTM"; "GRU"; "RNN"]%string /\
  (frame_dim self, hidden_size self, frame_processing self, rnn_type self,
   num_layers self, bidirectional self, rnn_dropout self, enable_ctc self)
  = (fd, hidden, fp, rt, nl, bi, dr, en) /\
  match ctc self with
  | Some head =>
      en = true /\ (0 < vocab_size head)%Z /\
      adj_vocab_size head = (vocab_size head + 1)%Z /\
      Z.of_nat (length (output_mask head)) = adj_vocab_size head
  | None => en = false
  end.
Proof.
  intros H. cbv zeta.
  assert (Hfp : fp = "flatten"%string /\ In rt ["LSTM"; "GRU"; "RNN"]%string).
  { unfold __init__ in H.
    apply bind_Some in H. destruct H as (u1 & Ha & H).
    apply bind_Some in H. destruct H as (u2 & Hb & _).
    unfold assert, mem, _ALLOWED_FRAME_PROCESSING, _ALLOWED_RNN_TYPES in Ha, Hb.
    simpl in Ha, Hb. split.
    - destruct (String.eqb fp "flatten") eqn:E; [|discriminate].
      apply String.eqb_eq, E.
    - simpl.
      destruct (String.eqb rt "LSTM") eqn:E1;
        [left; symmetry; apply String.eqb_eq, E1|].
      destruct (String.eqb rt "GRU") eqn:E2;
        [right; left; symmetry; apply String.eqb_eq, E2|].
      destruct (String.eqb rt "RNN") eqn:E3;
        [right; right; left; symmetry; apply String.eqb_eq, E3|].
      discriminate. }
  destruct Hfp as [Hfp Hrt].
  destruct en.
  - pose proof H as Hs. apply init_ctc_steps in Hs.
    destruct Hs as (Hvs & d & pad & bos & m0 & m1 & m2 & Hd & H0 & Hpad & H1
                    & Hbos & H2 & Hctc).
    destruct (@cleared_twice_exact _ _ _ _ _ _ H0 H1 H2) as (kp & kb & _ & _ & L & _).
    rewrite Hctc. simpl.
    unfold __init__ in H.
    apply bind_Some in H. destruct H as (_ & _ & H).
    apply bind_Some in H. destruct H as (_ & _ & H).
    apply bind_Some in H. destruct H as (_ & _ & H).
    apply bind_Some in H. destruct H as (h & _ & H).
    inversion H; subst obj; clear H. simpl.
    repeat split; try assumption; try reflexivity.
  - unfold __init__ in H.
    apply bind_Some in H. destruct H as (_ & _ & H).
    apply bind_Some in H. destruct H as (_ & _ & H).
    simpl in H. inversion H; subst obj; clear H. simpl.
    repeat split; try assumption; try reflexivity.
Qed.

(** The encoder with the CTC head over the four symbols [<pad>], [<bos>],
    [a], [b]: positions 1 and 2 of its mask are off. *)
Lemma init_ctc_output_mask_witness :
  exists head,
    ctc example_ctc_encoder = Some head /\
    (0 < 4)%Z /\ (1 < 4)%Z /\
    Z.of_nat (length (output_mask head)) = (4 + 1)%Z /\
    (forall j, (Z.of_nat j <= 4)%Z ->
       nth_error (output_mask head) j =
       Some (negb (Nat.eqb j (Z.to_nat (0 + 1))
                   || Nat.eqb j (Z.to_nat (1 + 1))))) /\
    nth_error (output_mask head) 0 = Some true.
Proof.
  apply (@init_ctc_output_mask "<pad>" "<bos>" 2 2 "flatten" "RNN" 1 true 0 4
           example_ctc_dict example_rnn example_ctc_proj
           (Checkpoint.init example_ctc_encoder) 0 1).
  - reflexivity.
  - reflexivity.
  - reflexivity.
  - lia.
  - lia.
Defined.

(** A vocabulary of four symbols in which [<bos>] has index 4. *)
Lemma init_ctc_rejects_witness :
  __init__ "<pad>" "<bos>" 2 2 "flatten" "RNN" 1 true 0 true 4
    (Some [("<pad>", 0); ("<bos>", 4)]%string%Z) example_rnn example_ctc_proj
  = None.
Proof.
  apply init_ctc_rejects. right. right.
  exists [("<pad>", 0); ("<bos>", 4)]%string%Z. split; [reflexivity|].
  right. right. exists 4%Z. split; [right; reflexivity|lia].
Defined.

Lemma init_well_formed_witness :
  let self := example_ctc_encoder in
  Checkpoint.best_error (Checkpoint.init example_ctc_encoder) = 1%Q /\
  frame_processing self = "flatten"%string /\
  In (rnn_type self) ["LSTM"; "GRU"; "RNN"]%string /\
  (frame_dim self, hidden_size self, frame_processing self, rnn_type self,
   num_layers self, bidirectional self, rnn_dropout self, enable_ctc self)
  = (2, 2, "flatten"%string, "RNN"%string, 1, true, 0%Q, true) /\
  match ctc self with
  | Some head =>
      true = true /\ (0 < vocab_size head)%Z /\
      adj_vocab_size head = (vocab_size head + 1)%Z /\
      Z.of_nat (length (output_mask head)) = adj_vocab_size head
  | None => true = false
  end.
Proof.
  apply (@init_well_formed "<pad>" "<bos>" 2 2 "flatten" "RNN" 1 true 0 true 4
           (Some example_ctc_dict) example_rnn example_ctc_proj
           (Checkpoint.init example_ctc_encoder)).
  reflexivity.
Defined.

(** *** The shape of the hidden states *)

Lemma max_length_ge (p : list tensor2) (s : tensor2) :
  In s p -> length s <= max_length p.
Proof.
  unfold max_length. induction p as [|x p IH]; [contradiction|].
  intros [->|H]; simpl; [lia|]. specialize (IH H). lia.
Qed.

Lemma max_length_attained (p : list tensor2) :
  p <> [] -> exists s, In s p /\ length s = max_length p.
Proof.
  unfold max_length. induction p as [|x p IH]; [contradiction|]. intros _.
  destruct p as [|y p].
  - exists x. split; [left; reflexivity|]. simpl. lia.
  - destruct IH as (s & Hs & Ls); [discriminate|].
    change (fold_right Nat.max 0 (map (@length (list R)) (x :: y :: p)))
      with (Nat.max (length x)
              (fold_right Nat.max 0 (map (@length (list R)) (y :: p)))).
    destruct (Nat.le_ge_cases (length x)
                (fold_right Nat.max 0 (map (@length (list R)) (y :: p))))
      as [Hle|Hge].
    + exists s. split; [right; exact Hs|]. rewrite Ls. lia.
    + exists x. split; [left; reflexivity|]. lia.
Qed.

Lemma max_length_map (p q : list tensor2) :
  map (@length (list R)) p = map (@length (list R)) q ->
  max_length p = max_length q.
Proof. unfold max_length. intros H. rewrite H. reflexivity. Qed.

Lemma longest_ge (lens : list Z) (l : Z) :
  In l lens -> (l <= longest lens)%Z.
Proof.
  unfold longest. induction lens as [|x lens IH]; [contradiction|].
  intros [->|H]; simpl; [lia|]. specialize (IH H). lia.
Qed.

Lemma longest_attained (lens : list Z) :
  In (longest lens) lens \/ longest lens = 0%Z.
Proof.
  unfold longest. induction lens as [|x lens IH]; [right; reflexivity|].
  simpl. destruct (Z.max_spec x (fold_right Z.max 0%Z lens)) as [[_ E]|[_ E]];
    rewrite E.
  - destruct IH as [IH|IH]; [left; right; exact IH|right; exact IH].
  - left. left. reflexivity.
Qed.

Lemma pad_packed_sequence_rows (p : list tensor2) :
  Forall (fun row => length row = max_length p) (pad_packed_sequence p).
Proof.
  unfold pad_packed_sequence. apply Forall_forall. intros row Hrow.
  apply in_map_iff in Hrow. destruct Hrow as (s & <- & Hs).
  rewrite length_app, repeat_length.
  pose proof (@max_length_ge p s Hs). lia.
Qed.

(** The longest packed sequence is as long as the longest length. *)
Lemma packed_max_length (x : tensor3) (lens : list Z) (st : tensor3)
    (packed : list tensor2) :
  index_select x (Reorder.sorting_permutation lens) = Some st ->
  pack_padded_sequence st (sorted_lengths lens) = Some packed ->
  max_length packed = Z.to_nat (longest lens).
Proof.
  intros Hst Hp.
  assert (Lp : length packed = length lens /\ lens <> []).
  { pose proof Hp as Hp'. rewrite (packed_sorted _ _ Hst) in Hp'.
    destruct (negb (Nat.eqb (length lens) 0)) eqn:En; simpl in Hp';
      [|discriminate].
    destruct (assert (forallb (fun l => (0 <? l)%Z) (sorted_lengths lens)));
      simpl in Hp'; [|discriminate].
    destruct (assert (descending (sorted_lengths lens))); simpl in Hp';
      [|discriminate].
    split.
    - rewrite (mapM_length _ _ Hp'). apply ReorderFacts.tensor_sort_length.
    - intros ->. discriminate. }
  destruct Lp as [Lp Hne].
  assert (Hperm := ReorderFacts.sorting_permutation_perm lens).
  apply Nat.le_antisymm.
  - destruct (@max_length_attained packed) as (s & Hs & Ls).
    { intros ->. destruct lens; [contradiction|discriminate]. }
    apply In_nth_error in Hs. destruct Hs as [k Hk].
    assert (Hklt : k < length lens).
    { rewrite <- Lp. apply nth_error_Some. congruence. }
    destruct (nth_error (Reorder.sorting_permutation lens) k) as [i|] eqn:Ei.
    2:{ apply nth_error_None in Ei.
        rewrite (Permutation_length Hperm), length_seq in Ei. lia. }
    assert (Hi : i < length lens).
    { apply nth_error_In in Ei.
      apply (Permutation_in _ Hperm), in_seq in Ei. lia. }
    destruct (nth_error lens i) as [len|] eqn:El;
      [|apply nth_error_None in El; lia].
    destruct (packed_lengths _ _ k Hst Hp Ei El) as (s' & Hs' & Ls').
    rewrite Hk in Hs'. inversion Hs'; subst s'.
    rewrite <- Ls, Ls'.
    pose proof (@longest_ge lens len (nth_error_In _ _ El)). lia.
  - destruct (longest_attained lens) as [Hin|H0]; [|rewrite H0; simpl; lia].
    apply In_nth_error in Hin. destruct Hin as [i Hi].
    assert (Hin : In i (Reorder.sorting_permutation lens)).
    { apply (Permutation_in _ (Permutation_sym Hperm)).
      apply in_seq. split; [lia|]. simpl.
      apply nth_error_Some. congruence. }
    apply In_nth_error in Hin. destruct Hin as [k Hk].
    destruct (packed_lengths _ _ k Hst Hp Hk Hi) as (s & Hs & Ls).
    rewrite <- Ls. apply max_length_ge. apply (nth_error_In _ _ Hs).
Qed.

(** X7. The hidden states that [forward] returns have as many sequences as
    the batch and as many timesteps as the longest length of the batch,
    not as the padded input: a batch padded beyond its longest sequence
    comes back shorter. *)
Theorem forward_hidden_states_shape (self : t) (frames : tensor4)
    (frame_lens : list Z) (lp : option tensor3) (hs : tensor3)
    (fs : rnn_state) :
  length frames = length frame_lens ->
  (forall p, map (@length vec) (fst (rnn self p)) = map (@length vec) p) ->
  forward self frames frame_lens = Some (lp, hs, fs) ->
  length hs = length frames /\
  Forall (fun row => length row = Z.to_nat (longest frame_lens)) hs.
Proof.
  intros Hlen Hrnn Hfwd. rewrite forward_steps in Hfwd.
  destruct (String.eqb (frame_processing self) "flatten"); [|discriminate].
  destruct (select_sorted frames frame_lens Hlen) as [st Hst].
  rewrite Hst in Hfwd. simpl in Hfwd.
  destruct (pack_padded_sequence st (sorted_lengths frame_lens))
    as [packed|] eqn:Hp; simpl in Hfwd; [|discriminate].
  apply encode_packed_hidden in Hfwd.
  pose proof (packed_max_length _ _ Hst Hp) as Hmax.
  rewrite <- (max_length_map _ _ (Hrnn packed)) in Hmax.
  split.
  - unfold index_select in Hfwd. rewrite (mapM_length _ _ Hfwd).
    rewrite (Permutation_length
               (ReorderFacts.restoration_permutation_perm frame_lens)).
    rewrite length_seq. symmetry. exact Hlen.
  - rewrite <- Hmax.
    apply (index_select_Forall _ Hfwd), pad_packed_sequence_rows.
Qed.

(** *** Lengths that are not positive *)

(** X8. [forward] raises on a batch with a length that is zero or negative,
    whatever the frames. *)
Theorem forward_rejects_nonpositive_length (self : t) (frames : tensor4)
    (frame_lens : list Z) (l : Z) :
  In l frame_lens -> (l <= 0)%Z ->
  forward self frames frame_lens = None.
Proof.
  intros Hin Hl. rewrite forward_steps.
  destruct (String.eqb (frame_processing self) "flatten"); [|reflexivity].
  destruct (index_select (flatten frames)
              (Reorder.sorting_permutation frame_lens)) as [st|] eqn:Hst;
    [|reflexivity].
  simpl bind. rewrite (packed_sorted _ _ Hst).
  destruct (negb (Nat.eqb (length frame_lens) 0)); [|reflexivity].
  simpl bind.
  replace (forallb (fun l0 => (0 <? l0)%Z) (sorted_lengths frame_lens))
    with false; [reflexivity|].
  symmetry. apply not_true_is_false. intros Hall.
  rewrite forallb_forall in Hall.
  assert (Hs : In l (sorted_lengths frame_lens)).
  { apply (Permutation_in _
             (Permutation_sym (ReorderFacts.sorted_values_perm Z.geb frame_lens))).
    exact Hin. }
  apply Hall, Z.ltb_lt in Hs. lia.
Qed.

(** *** Lengths beyond the padded sequence *)

(** [forward] raises on a batch in which a length exceeds the number of
    frames of its sequence. *)
Lemma forward_rejects_long_length (self : t) (frames : tensor4)
    (frame_lens : list Z) (i : nat) (s : list (list (list R))) (l : Z) :
  nth_error frames i = Some s -> nth_error frame_lens i = Some l ->
  (Z.of_nat (length s) < l)%Z ->
  forward self frames frame_lens = None.
Proof.
  intros Hs Hl Hlong. rewrite forward_steps.
  destruct (String.eqb (frame_processing self) "flatten"); [|reflexivity].
  destruct (index_select (flatten frames)
              (Reorder.sorting_permutation frame_lens)) as [st|] eqn:Hst;
    [|reflexivity].
  simpl bind. rewrite (packed_sorted _ _ Hst).
  assert (Hin : In i (Reorder.sorting_permutation frame_lens)).
  { apply (Permutation_in _
             (Permutation_sym (ReorderFacts.sorting_permutation_perm frame_lens))).
    apply in_seq. split; [lia|]. simpl.
    apply nth_error_Some. congruence. }
  rewrite (mapM_fails _ _ i Hin).
  - destruct (assert (negb (Nat.eqb (length frame_lens) 0))); [|reflexivity].
    simpl bind.
    destruct (assert (forallb (fun l0 => (0 <? l0)%Z)
                        (sorted_lengths frame_lens))); [|reflexivity].
    simpl bind.
    destruct (assert (descending (sorted_lengths frame_lens))); reflexivity.
  - unfold flatten. rewrite nth_error_map, Hs, Hl. simpl.
    unfold cut. rewrite length_map.
    destruct (l <=? Z.of_nat (length s))%Z eqn:E; [|reflexivity].
    apply Z.leb_le in E. lia.
Qed.

(** The second sequence of the example batch has two frames; a length
    of three is refused. *)
Example forward_rejects_long_length_example :
  forward example_encoder example_frames [1; 3]%Z = None.
Proof.
  apply (@forward_rejects_long_length example_encoder example_frames
           [1; 3]%Z 1 [ [[5; 6]]; [[7; 8]] ]%R 3%Z).
  - reflexivity.
  - reflexivity.
  - simpl. lia.
Qed.

(** *** The final state of a unidirectional encoder *)

(** X9. For a unidirectional encoder on a valid batch, with a recurrent layer
    that returns one hidden sequence per packed sequence and a final
    state of shape [(num_layers, batch, hidden_size)], [forward] reaches
    its return statement with a final state of that same shape: the
    recurrent layer's state, nothing joined, every batch element back at
    its place in the input. *)
Theorem forward_final_state_unidirectional (self : t) (frames : tensor4)
    (frame_lens : list Z) :
  bidirectional self = false ->
  frame_processing self = "flatten"%string ->
  length frames = length frame_lens -> frame_lens <> [] ->
  valid_lengths frames frame_lens ->
  (forall p, map (@length vec) (fst (rnn self p)) = map (@length vec) p) ->
  (forall p, state_shape (num_layers self) (length p) (hidden_size self)
               (snd (rnn self p))) ->
  exists st packed hs fs,
    index_select (flatten frames) (Reorder.sorting_permutation frame_lens) = Some st /\
    pack_padded_sequence st (sorted_lengths frame_lens) = Some packed /\
    forward self frames frame_lens = ctc_head self hs fs /\
    state_shape (num_layers self) (length frames) (hidden_size self) fs /\
    state_restored (Reorder.sorting_permutation frame_lens)
                   (snd (rnn self packed)) fs /\
    (forall out, forward self frames frame_lens = Some out -> snd out = fs).
Proof.
  intros Hbi Hflat Hlen Hne Hvalid Hseq Hshape.
  destruct (pack_valid Hlen Hne Hvalid) as (st & packed & Hst & Hp & Lp).
  assert (Lphs : length (pad_packed_sequence (fst (rnn self packed)))
                 = length frame_lens).
  { unfold pad_packed_sequence. rewrite length_map.
    pose proof (f_equal (@length nat) (Hseq packed)) as E.
    rewrite !length_map in E. lia. }
  destruct (ReorderFacts.restore_any _ frame_lens Lphs) as (hs & Hhs & _).
  pose proof (Hshape packed) as Hraw. rewrite Lp in Hraw.
  assert (Hres : exists fs,
            restore_state (snd (rnn self packed))
              (Reorder.restoration_permutation frame_lens) = Some fs /\
            state_shape (num_layers self) (length frame_lens)
                        (hidden_size self) fs /\
            state_restored (Reorder.sorting_permutation frame_lens)
                           (snd (rnn self packed)) fs).
  { destruct (snd (rnn self packed)) as [s|h c]; cbn [state_shape] in Hraw.
    - destruct (@restore_layers s frame_lens _ _ Hraw) as (out & Ho & Hs & Hr).
      exists (StateTensor out).
      split; [unfold restore_state; rewrite Ho; reflexivity|].
      split; [exact Hs | exact Hr].
    - destruct Hraw as [Hh Hc].
      destruct (@restore_layers h frame_lens _ _ Hh) as (h2 & Hh2 & Hhs2 & Hhr).
      destruct (@restore_layers c frame_lens _ _ Hc) as (c2 & Hc2 & Hcs2 & Hcr).
      exists (StateTuple h2 c2).
      split; [unfold restore_state; rewrite Hh2, Hc2; reflexivity|].
      split; [split; assumption | split; assumption]. }
  destruct Hres as (fs & Hfs & Hs & Hr).
  assert (Hfwd : forward self frames frame_lens = ctc_head self hs fs).
  { rewrite forward_steps, Hflat. simpl String.eqb. cbv iota.
    rewrite Hst. simpl bind. rewrite Hp. simpl bind.
    unfold encode_packed.
    destruct (rnn self packed) as [phs fs0]. simpl in *.
    rewrite Hbi. simpl. rewrite Hhs. simpl. rewrite Hfs. reflexivity. }
  exists st, packed, hs, fs.
  split; [exact Hst|]. split; [exact Hp|]. split; [exact Hfwd|].
  split; [rewrite Hlen; exact Hs|]. split; [exact Hr|].
  intros out Hout. rewrite Hfwd in Hout.
  apply (ctc_head_keeps _ _ _ Hout).
Qed.

(** *** States that do not come from a bidirectional layer *)

(** X10. [_cat_directions] raises on a state with an odd number of slots: the
    even slots outnumber the odd ones and cannot be joined with them. *)
Theorem _cat_directions_odd_slots (final_state : rnn_state) :
  odd_slots final_state = true -> _cat_directions final_state = None.
Proof.
  assert (G : forall s : tensor3, Nat.odd (length s) = true -> _cat s = None).
  { intros s Hodd. unfold _cat, cat_dim2.
    apply zip_strict_length_mismatch.
    destruct (evens_odds_length s) as [H1 H2]. rewrite H1, H2.
    apply Nat.odd_spec in Hodd. destruct Hodd as [m Hm]. rewrite Hm.
    replace (S (2 * m + 1)) with (2 * (S m)) by lia.
    replace (2 * m + 1) with (S (2 * m)) by lia.
    rewrite Nat.div2_double, Nat.div2_succ_double. lia. }
  destruct final_state as [s|h c]; simpl; intros H.
  - rewrite (G s H). reflexivity.
  - apply orb_true_iff in H. destruct H as [H|H].
    + rewrite (G h H). reflexivity.
    + rewrite (G c H). destruct (_cat h); reflexivity.
Qed.

(** *** The theorems above at the example batch *)

(** Two sequences padded to two frames with one valid frame each: the
    hidden states come back with one timestep. *)
Lemma forward_hidden_states_shape_witness :
  forward example_encoder example_frames [1; 1]%Z =
  Some (None, [ [[1; 2]]; [[5; 6]] ]%R,
        StateTensor [ [ [0; INR 1; 1; INR 1]; [0; INR 1; 1; INR 1] ] ]%R) /\
  length [ [[1; 2]]; [[5; 6]] ]%R = length example_frames /\
  Forall (fun row : list (list R) =>
            length row = Z.to_nat (longest [1; 1]%Z))
         [ [[1; 2]]; [[5; 6]] ]%R.
Proof.
  split; [reflexivity|].
  apply (@forward_hidden_states_shape example_encoder example_frames [1; 1]%Z
           None [ [[1; 2]]; [[5; 6]] ]%R
           (StateTensor [ [ [0; INR 1; 1; INR 1]; [0; INR 1; 1; INR 1] ] ]%R)).
  - reflexivity.
  - exact example_rnn_lengths.
  - reflexivity.
Defined.

Lemma forward_rejects_nonpositive_length_witness :
  In 0%Z [0; 2]%Z /\ (0 <= 0)%Z /\
  forward example_encoder example_frames [0; 2]%Z = None.
Proof.
  split; [left; reflexivity|]. split; [lia|].
  apply (@forward_rejects_nonpositive_length example_encoder example_frames
           [0; 2]%Z 0%Z).
  - left. reflexivity.
  - lia.
Defined.

Lemma forward_final_state_unidirectional_witness :
  exists st packed hs fs,
    index_select (flatten example_frames)
      (Reorder.sorting_permutation example_lens) = Some st /\
    pack_padded_sequence st (sorted_lengths example_lens) = Some packed /\
    forward example_encoder_uni example_frames example_lens
      = ctc_head example_encoder_uni hs fs /\
    state_shape (num_layers example_encoder_uni) (length example_frames)
      (hidden_size example_encoder_uni) fs /\
    state_restored (Reorder.sorting_permutation example_lens)
      (snd (rnn example_encoder_uni packed)) fs /\
    (forall out,
       forward example_encoder_uni example_frames example_lens = Some out ->
       snd out = fs).
Proof.
  apply (@forward_final_state_unidirectional example_encoder_uni example_frames
           example_lens).
  - reflexivity.
  - reflexivity.
  - reflexivity.
  - discriminate.
  - exact example_valid_lengths.
  - exact example_rnn_lengths.
  - exact example_rnn_shape.
Defined.

(** The state of one unidirectional layer. *)
Lemma _cat_directions_odd_slots_witness :
  odd_slots (StateTensor [ [[1; 2]] ]%R) = true /\
  _cat_directions (StateTensor [ [[1; 2]] ]%R) = None.
Proof.
  split; [reflexivity|].
  apply (@_cat_directions_odd_slots (StateTensor [ [[1; 2]] ]%R)).
  reflexivity.
Defined.

(** *** The log-probabilities of the CTC head *)

(** X11. [forward] returns log-probabilities exactly when CTC is enabled; they
    have the batch and time dimensions of the hidden states and one
    entry per adjusted symbol, the blank included. *)
Theorem forward_ctc_output_shape (self : t) (frames : tensor4)
    (frame_lens : list Z) (lp : option tensor3) (hs : tensor3)
    (fs : rnn_state) :
  (forall head, ctc self = Some head ->
     Z.of_nat (length (output_mask head)) = adj_vocab_size head) ->
  forward self frames frame_lens = Some (lp, hs, fs) ->
  if enable_ctc self then
    exists head x,
      ctc self = Some head /\ lp = Some x /\ length x = length hs /\
      forall b xb hb,
        nth_error x b = Some xb -> nth_error hs b = Some hb ->
        length xb = length hb /\
        Forall (fun row => Z.of_nat (length row) = adj_vocab_size head) xb
  else lp = None.
Proof.
  intros Hmask H.
  apply forward_reaches_head in H. destruct H as (hs' & fs' & H).
  pose proof (ctc_head_keeps _ _ _ H) as [Hhs _]. simpl in Hhs. subst hs'.
  unfold ctc_head in H. destruct (enable_ctc self).
  2:{ inversion H. reflexivity. }
  apply bind_Some in H. destruct H as (head & Hhead & H).
  apply bind_Some in H. destruct H as (logits & Hlog & H).
  apply bind_Some in H. destruct H as (m & Hm & H).
  apply bind_Some in H. destruct H as (x & Hx & H).
  inversion H; subst lp; clear H.
  apply (expand_rows_exact _ _ (Hmask head Hhead)) in Hm. subst m.
  exists head, x. split; [exact Hhead|]. split; [reflexivity|].
  unfold MaskedNorm.masked_log_softmax3 in Hx.
  unfold linear3 in Hlog.
  split.
  - destruct (zip_strict_length _ _ _ Hx) as [_ L].
    rewrite L. apply (mapM_length _ _ Hlog).
  - intros b xb hb Hxb Hhb.
    rewrite (zip_strict_nth_error _ _ _ b Hx) in Hxb.
    pose proof (mapM_nth_error _ _ b Hlog) as Hlb. rewrite Hhb in Hlb.
    destruct (nth_error logits b) as [lb|]; [|discriminate].
    destruct (nth_error (repeat (output_mask head) (length logits)) b)
      as [mr|] eqn:Emr; [|discriminate].
    apply nth_error_repeat in Emr. subst mr.
    unfold linear2 in Hlb. symmetry in Hlb.
    split.
    + rewrite (mapM_length _ _ Hxb). apply (mapM_length _ _ Hlb).
    + apply Forall_forall. intros row Hrow.
      destruct (mapM_In _ _ _ Hxb Hrow) as (xr & _ & Hr).
      unfold MaskedNorm.checked_row in Hr.
      destruct (Nat.eqb (length xr) (length (output_mask head))) eqn:E;
        [|discriminate].
      inversion Hr; subst row. apply Nat.eqb_eq in E.
      rewrite MaskedNormFacts.masked_log_softmax_row_length by exact E.
      apply (Hmask head Hhead).
Qed.

Lemma forward_ctc_output_shape_witness :
  exists lp hs fs,
    forward example_ctc_encoder example_frames example_lens
      = Some (lp, hs, fs) /\
    if enable_ctc example_ctc_encoder then
      exists head x,
        ctc example_ctc_encoder = Some head /\ lp = Some x /\
        length x = length hs /\
        forall b xb hb,
          nth_error x b = Some xb -> nth_error hs b = Some hb ->
          length xb = length hb /\
          Forall (fun row => Z.of_nat (length row) = adj_vocab_size head) xb
    else lp = None.
Proof.
  do 3 eexists. split; [reflexivity|].
  eapply (@forward_ctc_output_shape example_ctc_encoder example_frames
            example_lens).
  - intros head Hhead. inversion Hhead. reflexivity.
  - reflexivity.
Defined.

End VideoEncoderFacts.

(** ** Facts: the character decoding step *)

Module CharDecodingStepFacts.
Import Tensor NN TensorFacts NNFacts CharDecodingStep.

(** *** The encoder states under attention type [none] *)

Lemma zip_strict_right_indep {A B C : Type} (rel : B -> B -> Prop)
    (f : A -> B -> option C) (l : list A) (e e' : list B) :
  Forall2 rel e e' ->
  (forall a b b', rel b b' -> f a b = f a b') ->
  zip_strict f l e = zip_strict f l e'.
Proof.
  intros H Hf. revert l.
  induction H as [|b b' e e' Hb _ IH]; intros [|a l]; simpl; try reflexivity.
  rewrite (Hf a b b' Hb), IH. reflexivity.
Qed.

Lemma expand_as_same_shape (h e e' : tensor3) :
  same_shape e e' -> expand_as h e = expand_as h e'.
Proof.
  intros H. unfold expand_as. rewrite (Forall2_length H).
  destruct (expand_list (length e') h) as [rows|]; simpl; [|reflexivity].
  apply (zip_strict_right_indep
           (rel := Forall2 (fun u v : vec => length u = length v))); [exact H|].
  intros hb eb eb' Hb. rewrite (Forall2_length Hb).
  destruct (expand_list (length eb') hb) as [steps|]; simpl; [|reflexivity].
  apply (zip_strict_right_indep (rel := fun u v : vec => length u = length v));
    [exact Hb|].
  intros hv ev ev' Hv. rewrite Hv. reflexivity.
Qed.

Lemma en_seq_len_same_shape (e e' : tensor3) :
  same_shape e e' -> en_seq_len_of e = en_seq_len_of e'.
Proof.
  intros H. destruct H as [|r r' e e' Hr _]; simpl.
  - reflexivity.
  - apply (Forall2_length Hr).
Qed.

(** C7. With attention type [none], two calls of [forward] that differ
    only in the values of [encoder_hidden_states], not in its shape, have
    the same outcome: the same log-probabilities and the same new state,
    or the same failure. *)
Theorem forward_none_ignores_encoder_states (self : t) (input_ : list Z)
    (previous_state : rnn_state) (encoder_lens : list Z)
    (encoder_hidden_states encoder_hidden_states' : tensor3) :
  attention_type self = "none"%string ->
  same_shape encoder_hidden_states encoder_hidden_states' ->
  forward self input_ previous_state encoder_lens encoder_hidden_states =
  forward self input_ previous_state encoder_lens encoder_hidden_states'.
Proof.
  intros Hnone Hshape. unfold forward. cbv zeta.
  rewrite (en_seq_len_same_shape Hshape).
  destruct (encoder_mask_of _ _ encoder_lens) as [encoder_mask|];
    [|reflexivity].
  cbn [bind].
  destruct (mapM (embed (embedding self)) input_) as [embedded_char|];
    [|reflexivity].
  cbn [bind].
  destruct (rnn self _ previous_state) as [[hidden_state final_state]|];
    [|reflexivity].
  cbn [bind].
  rewrite (expand_as_same_shape hidden_state Hshape).
  destruct (expand_as hidden_state encoder_hidden_states')
    as [expanded_hidden_state|]; [|reflexivity].
  cbn [bind]. rewrite Hnone. reflexivity.
Qed.

(** *** Lengths beyond the sequence dimension *)

Lemma below_clamp (en_seq_len : nat) (l : Z) :
  below en_seq_len (Z.min (Z.of_nat en_seq_len) l) = below en_seq_len l.
Proof.
  unfold below. apply map_ext_in. intros k Hk. apply in_seq in Hk.
  destruct (Z.of_nat k <? l)%Z eqn:E.
  - apply Z.ltb_lt. apply Z.ltb_lt in E. lia.
  - apply Z.ltb_ge. apply Z.ltb_ge in E. lia.
Qed.

Lemma below_all (en_seq_len : nat) (l : Z) :
  (Z.of_nat en_seq_len <= l)%Z -> below en_seq_len l = repeat true en_seq_len.
Proof.
  intros H. unfold below.
  rewrite (map_ext_in _ (fun _ => true)).
  - generalize 0. induction en_seq_len as [|n IH] in H |- *; intros s; simpl.
    + reflexivity.
    + f_equal. apply IH. lia.
  - intros k Hk. apply in_seq in Hk. apply Z.ltb_lt. lia.
Qed.

Lemma encoder_mask_of_clamp (batch_size en_seq_len : nat) (lens : list Z) :
  encoder_mask_of batch_size en_seq_len (map (Z.min (Z.of_nat en_seq_len)) lens)
  = encoder_mask_of batch_size en_seq_len lens.
Proof.
  unfold encoder_mask_of. rewrite length_map, map_map.
  rewrite (map_ext _ _ (below_clamp en_seq_len)).
  destruct (Nat.eqb (length lens) batch_size); [reflexivity|].
  destruct lens as [|l [|l' lens]]; simpl; try reflexivity.
  rewrite below_clamp. reflexivity.
Qed.

(** C9 (amended).  [VideoEncoder.forward] raises whenever some length in
    [frame_lens] exceeds the number of frames of its sequence.
    [CharDecodingStep.forward] does not check [encoder_lens] against the
    sequence dimension of [encoder_hidden_states]: a length at or beyond
    it marks every encoder timestep valid, and a call has exactly the
    outcome of the call in which every length is cut down to the sequence
    dimension. *)
Theorem forward_length_beyond_sequence :
  (forall (encoder : VideoEncoder.t) (frames : tensor4) (frame_lens : list Z)
          (i : nat) (s : list (list (list R))) (l : Z),
     nth_error frames i = Some s -> nth_error frame_lens i = Some l ->
     (Z.of_nat (length s) < l)%Z ->
     VideoEncoder.forward encoder frames frame_lens = None) /\
  (forall (self : t) (input_ : list Z) (previous_state : rnn_state)
          (encoder_lens : list Z) (encoder_hidden_states : tensor3),
     forward self input_ previous_state encoder_lens encoder_hidden_states =
     forward self input_ previous_state
       (map (Z.min (Z.of_nat (en_seq_len_of encoder_hidden_states)))
            encoder_lens)
       encoder_hidden_states /\
     (forall l, (Z.of_nat (en_seq_len_of encoder_hidden_states) <= l)%Z ->
        below (en_seq_len_of encoder_hidden_states) l
        = repeat true (en_seq_len_of encoder_hidden_states))).
Proof.
  split.
  - intros encoder frames frame_lens i s l Hs Hl Hlong.
    apply (@VideoEncoderFacts.forward_rejects_long_length encoder frames
             frame_lens i s l Hs Hl Hlong).
  - intros self input_ previous_state encoder_lens encoder_hidden_states.
    split.
    + unfold forward. cbv zeta. rewrite encoder_mask_of_clamp. reflexivity.
    + intros l Hl. apply below_all. exact Hl.
Qed.

(** *** The decoder instance *)

Example example_decoder_init :
  __init__ "<pad>" "<bos>" example_encoder 2 4 example_char2idx 0 "dot" (-1)
    example_embedding example_rnn example_concat_layer example_concat_layer
    example_concat_layer example_concat_layer example_concat_layer
    example_output_proj
  = Some (Checkpoint.init (example_decoder "dot")).
Proof. reflexivity. Qed.

(** C7 at the example decoder with attention type [none]. *)
Lemma forward_none_ignores_encoder_states_witness :
  forward (example_decoder "none") [2%Z] example_state [2%Z] example_states =
  forward (example_decoder "none") [2%Z] example_state [2%Z] example_states'.
Proof.
  apply (@forward_none_ignores_encoder_states (example_decoder "none") [2%Z]
           example_state [2%Z] example_states example_states').
  - reflexivity.
  - repeat constructor.
Defined.

(** The claim as first stated fails: with dot attention, one sequence of
    two encoder timesteps and [encoder_lens = [5]], [forward] returns
    log-probabilities and a state instead of raising. *)
Lemma forward_accepts_long_encoder_lens :
  (Z.of_nat (en_seq_len_of example_states) < 5)%Z /\
  exists out,
    forward (example_decoder "dot") [2%Z] example_state [5%Z] example_states
    = Some out.
Proof.
  split; [reflexivity|]. eexists. reflexivity.
Qed.

(** *** The output distribution *)

Lemma forward_output (self : t) (input_ : list Z) (previous_state : rnn_state)
    (encoder_lens : list Z) (encoder_hidden_states : tensor3)
    (lp : tensor2) (st : rnn_state) :
  forward self input_ previous_state encoder_lens encoder_hidden_states
    = Some (lp, st) ->
  exists logits m,
    expand_rows (length input_) (vocab_size self) (output_mask self) = Some m /\
    MaskedNorm.masked_log_softmax logits m = Some lp.
Proof.
  unfold forward. cbv zeta. intros H.
  apply bind_Some in H. destruct H as (encoder_mask & _ & H).
  apply bind_Some in H. destruct H as (embedded_char & _ & H).
  apply bind_Some in H. destruct H as ([hidden_state final_state] & _ & H).
  apply bind_Some in H. destruct H as (expanded & _ & H).
  apply bind_Some in H. destruct H as (attn_logits & _ & H).
  apply bind_Some in H. destruct H as (logits & _ & H).
  apply bind_Some in H. destruct H as (m & Hm & H).
  apply bind_Some in H. destruct H as (lp0 & Hlp & H).
  inversion H; subst. exists logits, m. split; assumption.
Qed.

(** Every row of the returned log-probabilities holds the sentinel
    wherever the output mask is off. *)
Lemma forward_masked (self : t) (input_ : list Z) (previous_state : rnn_state)
    (encoder_lens : list Z) (encoder_hidden_states : tensor3)
    (lp : tensor2) (st : rnn_state) (b j : nat) (row : vec) :
  Z.of_nat (length (output_mask self)) = vocab_size self ->
  forward self input_ previous_state encoder_lens encoder_hidden_states
    = Some (lp, st) ->
  nth_error lp b = Some row ->
  nth_error (output_mask self) j = Some false ->
  length row = length (output_mask self) /\
  nth_error row j = Some MaskedNorm.neg_sentinel.
Proof.
  intros Hlen H Hb Hj.
  apply forward_output in H. destruct H as (logits & m & Hm & Hlp).
  apply (expand_rows_exact _ _ Hlen) in Hm. subst m.
  unfold MaskedNorm.masked_log_softmax in Hlp.
  rewrite (zip_strict_nth_error _ _ _ b Hlp) in Hb.
  destruct (nth_error logits b) as [x|]; [|discriminate].
  destruct (nth_error (repeat (output_mask self) (length input_)) b)
    as [mr|] eqn:Emr; [|discriminate].
  apply nth_error_repeat in Emr. subst mr.
  apply (MaskedNormFacts.checked_log_row_masked _ _ _ Hb Hj).
Qed.

Lemma reserved_mask_spec (PAD BOS : string) (vs : Z) (d : dict) (m : list bool) :
  reserved_mask PAD BOS vs d = Some m ->
  exists pad bos,
    getitem d PAD = Some pad /\ getitem d BOS = Some bos /\
    Z.of_nat (length m) = vs /\
    exists kp kb,
      wrap_index (length m) pad = Some kp /\
      wrap_index (length m) bos = Some kb /\
      nth_error m kp = Some false /\ nth_error m kb = Some false.
Proof.
  unfold reserved_mask. intros H.
  apply bind_Some in H. destruct H as (m0 & H0 & H).
  apply bind_Some in H. destruct H as (pad & Hpad & H).
  apply bind_Some in H. destruct H as (m1 & H1 & H).
  apply bind_Some in H. destruct H as (bos & Hbos & H).
  exists pad, bos. split; [exact Hpad|]. split; [exact Hbos|].
  apply (@cleared_twice _ _ _ _ _ _ H0 H1 H).
Qed.

Lemma init_mask (PAD BOS : string) (encoder : VideoEncoder.t) (cd : nat) (vs : Z)
    (d : dict) (dr : Q) (att : string) (ahs : Z) (emb : tensor2)
    (rnn_layer : tensor3 -> rnn_state -> option (tensor3 * rnn_state))
    (p1 p2 p3 p4 cl ol : Linear) (obj : Checkpoint.component t) :
  __init__ PAD BOS encoder cd vs d dr att ahs emb rnn_layer p1 p2 p3 p4 cl ol
    = Some obj ->
  reserved_mask PAD BOS vs d = Some (output_mask (Checkpoint.state_dict obj)) /\
  vocab_size (Checkpoint.state_dict obj) = vs.
Proof.
  unfold __init__. intros H.
  apply bind_Some in H. destruct H as (_ & _ & H).
  apply bind_Some in H. destruct H as (_ & _ & H).
  apply bind_Some in H. destruct H as (m & Hm & H).
  inversion H; subst obj; clear H. simpl. split; [exact Hm | reflexivity].
Qed.

Example forward_dot_example :
  exists lp st,
    forward (example_decoder "dot") [2%Z] example_state [1%Z] example_states
    = Some (lp, st) /\
    exists row, nth_error lp 0 = Some row /\ length row = 4 /\
                nth_error row 0 = Some MaskedNorm.neg_sentinel /\
                nth_error row 1 = Some MaskedNorm.neg_sentinel.
Proof.
  do 2 eexists. split; [reflexivity|].
  eexists. repeat split.
Qed.

(** *** What [__init__] accepts and what it builds *)

(** X12. Every decoder that [__init__] returns is well formed: its sizes and
    recurrent type are the encoder's, with twice the hidden size for a
    bidirectional encoder; its attention type is one of the five and the
    projections that [forward] uses for that type were created, with a
    positive hidden size for [concat]; the output mask has one entry per
    symbol; and [best_error] is 1. *)
Theorem init_well_formed_decoder (PAD BOS : string) (encoder : VideoEncoder.t)
    (cd : nat) (vs : Z) (d : dict) (dr : Q) (att : string) (ahs : Z)
    (emb : tensor2)
    (rnn_layer : tensor3 -> rnn_state -> option (tensor3 * rnn_state))
    (p1 p2 p3 p4 cl ol : Linear) (obj : Checkpoint.component t) :
  __init__ PAD BOS encoder cd vs d dr att ahs emb rnn_layer p1 p2 p3 p4 cl ol
    = Some obj ->
  let self := Checkpoint.state_dict obj in
  Checkpoint.best_error obj = 1%Q /\
  hidden_size self =
    VideoEncoder.hidden_size encoder
    * (if VideoEncoder.bidirectional encoder then 2 else 1) /\
  rnn_type self = VideoEncoder.rnn_type encoder /\
  num_layers self = VideoEncoder.num_layers encoder /\
  attention_type self = att /\
  In att ["none"; "dot"; "general"; "1_layer_nn"; "concat"]%string /\
  (att = "1_layer_nn"%string -> attn_proj_1_layer_nn self = Some p1) /\
  (att = "general"%string -> attn_proj_general self = Some p2) /\
  (att = "concat"%string ->
     attn_proj_layer1 self = Some p3 /\ attn_proj_layer2 self = Some p4 /\
     (0 < ahs)%Z) /\
  Z.of_nat (length (output_mask self)) = vocab_size self.
Proof.
  intros H. cbv zeta. unfold __init__ in H.
  apply bind_Some in H. destruct H as (u1 & Ha & H).
  apply bind_Some in H. destruct H as (u2 & Hc & H).
  apply bind_Some in H. destruct H as (m & Hm & H).
  inversion H; subst obj; clear H. simpl.
  apply reserved_mask_spec in Hm. destruct Hm as (pad & bos & _ & _ & L & _).
  assert (Hin : In att ["none"; "dot"; "general"; "1_layer_nn"; "concat"]%string).
  { unfold assert, mem, _ALLOWED_ATTENTION_TYPES in Ha. simpl in Ha. simpl.
    destruct (String.eqb att "none") eqn:E1;
      [left; symmetry; apply String.eqb_eq, E1|].
    destruct (String.eqb att "dot") eqn:E2;
      [right; left; symmetry; apply String.eqb_eq, E2|].
    destruct (String.eqb att "general") eqn:E3;
      [right; right; left; symmetry; apply String.eqb_eq, E3|].
    destruct (String.eqb att "1_layer_nn") eqn:E4;
      [right; right; right; left; symmetry; apply String.eqb_eq, E4|].
    destruct (String.eqb att "concat") eqn:E5;
      [right; right; right; right; left; symmetry; apply String.eqb_eq, E5|].
    discriminate. }
  repeat split; try reflexivity; try assumption.
  - intros ->. reflexivity.
  - intros ->. reflexivity.
  - subst att. reflexivity.
  - subst att. reflexivity.
  - subst att. simpl in Hc. unfold assert in Hc.
    destruct (0 <? ahs)%Z eqn:E; [apply Z.ltb_lt, E|discriminate].
Qed.

(** X13. The output mask of a constructed decoder, entry by entry, for
    reserved symbols with indices from 0 on: the indices lie within the
    vocabulary, the mask has [vocab_size] entries and it is off at the
    index of [PAD] and at the index of [BOS] and nowhere else. *)
Theorem init_output_mask (PAD BOS : string) (encoder : VideoEncoder.t)
    (cd : nat) (vs : Z) (d : dict) (dr : Q) (att : string) (ahs : Z)
    (emb : tensor2)
    (rnn_layer : tensor3 -> rnn_state -> option (tensor3 * rnn_state))
    (p1 p2 p3 p4 cl ol : Linear) (obj : Checkpoint.component t)
    (pad bos : Z) :
  __init__ PAD BOS encoder cd vs d dr att ahs emb rnn_layer p1 p2 p3 p4 cl ol
    = Some obj ->
  getitem d PAD = Some pad -> getitem d BOS = Some bos ->
  (0 <= pad)%Z -> (0 <= bos)%Z ->
  let mask := output_mask (Checkpoint.state_dict obj) in
  (pad < vs)%Z /\ (bos < vs)%Z /\
  Z.of_nat (length mask) = vs /\
  forall j, (Z.of_nat j < vs)%Z ->
    nth_error mask j =
    Some (negb (Nat.eqb j (Z.to_nat pad) || Nat.eqb j (Z.to_nat bos))).
Proof.
  intros H Hpad Hbos Hp Hb. cbv zeta.
  apply init_mask in H. destruct H as [Hm _].
  unfold reserved_mask in Hm.
  apply bind_Some in Hm. destruct Hm as (m0 & H0 & H).
  apply bind_Some in H. destruct H as (pad' & Hpad' & H).
  apply bind_Some in H. destruct H as (m1 & H1 & H).
  apply bind_Some in H. destruct H as (bos' & Hbos' & H2).
  rewrite Hpad in Hpad'. inversion Hpad'; subst pad'; clear Hpad'.
  rewrite Hbos in Hbos'. inversion Hbos'; subst bos'; clear Hbos'.
  destruct (@cleared_twice_exact _ _ _ _ _ _ H0 H1 H2)
    as (kp & kb & Wp & Wb & L & Hj).
  apply wrap_index_nonneg in Wp; [|lia]. destruct Wp as [-> Wp].
  apply wrap_index_nonneg in Wb; [|lia]. destruct Wb as [-> Wb].
  split; [lia|]. split; [lia|]. split; [exact L|].
  intros j Hjv. apply Hj. lia.
Qed.

(** X14. [__init__] raises on an attention type outside the five, on the type
    [concat] without a positive attention hidden size, when [char2idx]
    lacks [PAD] or [BOS], and when the index of a reserved symbol is
    [vocab_size] or more. *)
Theorem init_rejects (PAD BOS : string) (encoder : VideoEncoder.t)
    (cd : nat) (vs : Z) (d : dict) (dr : Q) (att : string) (ahs : Z)
    (emb : tensor2)
    (rnn_layer : tensor3 -> rnn_state -> option (tensor3 * rnn_state))
    (p1 p2 p3 p4 cl ol : Linear) :
  ~ In att ["none"; "dot"; "general"; "1_layer_nn"; "concat"]%string \/
  (att = "concat"%string /\ (ahs <= 0)%Z) \/
  getitem d PAD = None \/ getitem d BOS = None \/
  (exists i, (getitem d PAD = Some i \/ getitem d BOS = Some i) /\ (vs <= i)%Z) ->
  __init__ PAD BOS encoder cd vs d dr att ahs emb rnn_layer p1 p2 p3 p4 cl ol
    = None.
Proof.
  intros Hbad.
  destruct (__init__ PAD BOS encoder cd vs d dr att ahs emb rnn_layer
              p1 p2 p3 p4 cl ol) as [obj|] eqn:E; [exfalso|reflexivity].
  pose proof E as E0. unfold __init__ in E0.
  apply bind_Some in E0. destruct E0 as (u1 & Ha & E0).
  apply bind_Some in E0. destruct E0 as (u2 & Hc & _).
  apply init_mask in E. destruct E as [Hm _].
  unfold reserved_mask in Hm.
  apply bind_Some in Hm. destruct Hm as (m0 & H0 & H).
  apply bind_Some in H. destruct H as (pad & Hpad & H).
  apply bind_Some in H. destruct H as (m1 & H1 & H).
  apply bind_Some in H. destruct H as (bos & Hbos & H2).
  destruct Hbad as [Hbad|[[Hatt Hahs]|[Hbad|[Hbad|(i & Hi & Hbig)]]]].
  - apply Hbad. unfold assert, mem, _ALLOWED_ATTENTION_TYPES in Ha.
    simpl in Ha. simpl.
    destruct (String.eqb att "none") eqn:E1;
      [left; symmetry; apply String.eqb_eq, E1|].
    destruct (String.eqb att "dot") eqn:E2;
      [right; left; symmetry; apply String.eqb_eq, E2|].
    destruct (String.eqb att "general") eqn:E3;
      [right; right; left; symmetry; apply String.eqb_eq, E3|].
    destruct (String.eqb att "1_layer_nn") eqn:E4;
      [right; right; right; left; symmetry; apply String.eqb_eq, E4|].
    destruct (String.eqb att "concat") eqn:E5;
      [right; right; right; right; left; symmetry; apply String.eqb_eq, E5|].
    discriminate.
  - subst att. simpl in Hc. unfold assert in Hc.
    destruct (0 <? ahs)%Z eqn:E; [apply Z.ltb_lt in E; lia|discriminate].
  - congruence.
  - congruence.
  - pose proof (ones_length _ H0) as L0.
    unfold setitem in H1, H2.
    apply bind_Some in H1. destruct H1 as (kp & Wp & H1).
    inversion H1; subst m1; clear H1.
    apply bind_Some in H2. destruct H2 as (kb & Wb & _).
    rewrite update_length in Wb.
    destruct Hi as [Hi|Hi].
    + assert (i = pad) by congruence. subst i.
      rewrite wrap_index_beyond in Wp by lia. discriminate.
    + assert (i = bos) by congruence. subst i.
      rewrite wrap_index_beyond in Wb by lia. discriminate.
Qed.

(** *** The steps of [forward] *)

Lemma forward_decoder_steps (self : t) (input_ : list Z) (previous_state : rnn_state)
    (encoder_lens : list Z) (encoder_hidden_states : tensor3) :
  forward self input_ previous_state encoder_lens encoder_hidden_states =
  (encoder_mask <- encoder_mask_of (length input_)
                     (en_seq_len_of encoder_hidden_states) encoder_lens ;;
   embedded_char <- mapM (embed (embedding self)) input_ ;;
   ' (hidden_state, final_state) <-
     rnn self (map (fun e => [e]) embedded_char) previous_state ;;
   expanded_hidden_state <- expand_as hidden_state encoder_hidden_states ;;
   attn_logits <- attn_logits_of self expanded_hidden_state
                    encoder_hidden_states ;;
   output_logits <- output_logits_of self encoder_mask attn_logits hidden_state
                      encoder_hidden_states ;;
   mask <- expand_rows (length input_) (vocab_size self) (output_mask self) ;;
   output_log_probs <- MaskedNorm.masked_log_softmax output_logits mask ;;
   Some (output_log_probs, final_state)).
Proof. reflexivity. Qed.

(** *** Shape of the output, and inputs that are refused *)

(** X15. When [forward] returns, the log-probabilities have one row per batch
    element and one entry per symbol, and the new state is the state the
    recurrent layer returned for the embedded characters and the
    previous state, whatever the attention type. *)
Theorem forward_output_shape (self : t) (input_ : list Z)
    (previous_state : rnn_state) (encoder_lens : list Z)
    (encoder_hidden_states : tensor3) (lp : tensor2) (st : rnn_state) :
  Z.of_nat (length (output_mask self)) = vocab_size self ->
  forward self input_ previous_state encoder_lens encoder_hidden_states
    = Some (lp, st) ->
  length lp = length input_ /\
  Forall (fun row => Z.of_nat (length row) = vocab_size self) lp /\
  exists embedded_char hidden_state,
    mapM (embed (embedding self)) input_ = Some embedded_char /\
    length embedded_char = length input_ /\
    rnn self (map (fun e => [e]) embedded_char) previous_state
      = Some (hidden_state, st).
Proof.
  intros Hlen H. rewrite forward_decoder_steps in H.
  apply bind_Some in H. destruct H as (encoder_mask & _ & H).
  apply bind_Some in H. destruct H as (embedded_char & Hemb & H).
  apply bind_Some in H. destruct H as ([hidden_state final_state] & Hrnn & H).
  apply bind_Some in H. destruct H as (expanded & _ & H).
  apply bind_Some in H. destruct H as (attn_logits & _ & H).
  apply bind_Some in H. destruct H as (logits & _ & H).
  apply bind_Some in H. destruct H as (m & Hm & H).
  apply bind_Some in H. destruct H as (lp0 & Hlp & H).
  inversion H; subst lp0 final_state; clear H.
  apply (expand_rows_exact _ _ Hlen) in Hm. subst m.
  unfold MaskedNorm.masked_log_softmax in Hlp.
  split; [|split].
  - destruct (zip_strict_length _ _ _ Hlp) as [L1 L2].
    rewrite L2, L1. apply repeat_length.
  - apply Forall_forall. intros row Hrow.
    apply In_nth_error in Hrow. destruct Hrow as [b Hb].
    rewrite (zip_strict_nth_error _ _ _ b Hlp) in Hb.
    destruct (nth_error logits b) as [x|]; [|discriminate].
    destruct (nth_error (repeat (output_mask self) (length input_)) b)
      as [mr|] eqn:Emr; [|discriminate].
    apply nth_error_repeat in Emr. subst mr.
    unfold MaskedNorm.checked_row in Hb.
    destruct (Nat.eqb (length x) (length (output_mask self))) eqn:E;
      [|discriminate].
    inversion Hb; subst row. apply Nat.eqb_eq in E.
    rewrite MaskedNormFacts.masked_log_softmax_row_length; [exact Hlen|exact E].
  - exists embedded_char, hidden_state. split; [exact Hemb|].
    split; [apply (mapM_length _ _ Hemb)|exact Hrnn].
Qed.

(** X16. [forward] raises on a character id that is negative or beyond the
    embedding table. *)
Theorem forward_rejects_unknown_id (self : t) (input_ : list Z)
    (previous_state : rnn_state) (encoder_lens : list Z)
    (encoder_hidden_states : tensor3) (i : Z) :
  In i input_ ->
  (i < 0)%Z \/ (Z.of_nat (length (embedding self)) <= i)%Z ->
  forward self input_ previous_state encoder_lens encoder_hidden_states = None.
Proof.
  intros Hin Hi. rewrite forward_decoder_steps.
  destruct (encoder_mask_of _ _ encoder_lens); [|reflexivity]. cbn [bind].
  rewrite (mapM_fails _ _ _ Hin); [reflexivity|].
  unfold embed. destruct (i <? 0)%Z eqn:E; [reflexivity|].
  apply Z.ltb_ge in E. apply nth_error_None. lia.
Qed.

(** *** The batch axis of [encoder_lens] *)

(** X17. A single length is broadcast: the call has the outcome of the call
    in which that length is given for every batch element. *)
Theorem forward_broadcasts_encoder_lens (self : t) (input_ : list Z)
    (previous_state : rnn_state) (l : Z) (encoder_hidden_states : tensor3) :
  forward self input_ previous_state [l] encoder_hidden_states =
  forward self input_ previous_state (repeat l (length input_))
    encoder_hidden_states.
Proof.
  rewrite !forward_decoder_steps.
  replace (encoder_mask_of (length input_)
             (en_seq_len_of encoder_hidden_states) (repeat l (length input_)))
    with (encoder_mask_of (length input_)
            (en_seq_len_of encoder_hidden_states) [l]); [reflexivity|].
  unfold encoder_mask_of. rewrite repeat_length, Nat.eqb_refl.
  simpl length. destruct (Nat.eqb 1 (length input_)) eqn:E.
  - apply Nat.eqb_eq in E. rewrite <- E. reflexivity.
  - rewrite map_repeat. reflexivity.
Qed.

(** X18. [forward] raises when the number of lengths in [encoder_lens] is
    neither the batch size nor 1, for a batch of more than one
    character. *)
Theorem forward_rejects_mismatched_encoder_lens (self : t) (input_ : list Z)
    (previous_state : rnn_state) (encoder_lens : list Z)
    (encoder_hidden_states : tensor3) :
  length encoder_lens <> length input_ ->
  length encoder_lens <> 1 -> length input_ <> 1 ->
  forward self input_ previous_state encoder_lens encoder_hidden_states = None.
Proof.
  intros H1 H2 H3. rewrite forward_decoder_steps.
  unfold encoder_mask_of.
  apply Nat.eqb_neq in H1. rewrite H1.
  apply Nat.eqb_neq in H3. rewrite H3.
  destruct encoder_lens as [|l [|l' lens]]; try reflexivity.
  simpl in H2. contradiction.
Qed.

(** *** Encoder states at padded timesteps *)

Lemma opt_rel_bind {A B : Type} (T : A -> A -> Prop) (S : B -> B -> Prop)
    (m m' : option A) (k k' : A -> option B) :
  opt_rel T m m' ->
  (forall a a', T a a' -> opt_rel S (k a) (k' a')) ->
  opt_rel S (bind m k) (bind m' k').
Proof.
  intros Hm Hk. destruct m as [a|], m' as [a'|]; simpl in *;
    try contradiction; [apply Hk, Hm | exact I].
Qed.

Lemma opt_rel_eq {A : Type} (o o' : option A) : opt_rel eq o o' -> o = o'.
Proof.
  destruct o, o'; simpl; intros H; try contradiction;
    [f_equal; exact H | reflexivity].
Qed.

Lemma opt_rel_refl {A : Type} (o : option A) : opt_rel eq o o.
Proof. destruct o; simpl; [reflexivity | exact I]. Qed.

Lemma rel3_length {M A : Type} (T : M -> A -> A -> Prop) (ms : list M)
    (x x' : list A) :
  rel3 T ms x x' -> length x = length ms /\ length x' = length ms.
Proof.
  revert x x'. induction ms as [|m ms IH]; intros [|a x] [|a' x'] H;
    simpl in H; try contradiction.
  - split; reflexivity.
  - destruct H as [_ H]. destruct (IH _ _ H). simpl. split; congruence.
Qed.

Lemma rel3_of_nth {M A : Type} (T : M -> A -> A -> Prop) (ms : list M)
    (x x' : list A) :
  length x = length ms -> length x' = length ms ->
  (forall i m a a', nth_error ms i = Some m -> nth_error x i = Some a ->
                    nth_error x' i = Some a' -> T m a a') ->
  rel3 T ms x x'.
Proof.
  revert x x'. induction ms as [|m ms IH]; intros [|a x] [|a' x'] L1 L2 H;
    simpl in L1, L2; try discriminate; simpl.
  - exact I.
  - split.
    + apply (H 0); reflexivity.
    + apply IH; [lia | lia |].
      intros i m0 b b' Hm Hb Hb'. apply (H (S i)); assumption.
Qed.

Lemma zip_strict_rel_l {M A B C : Type} (T : M -> A -> A -> Prop)
    (T' : M -> C -> C -> Prop) (f : A -> B -> option C) (ms : list M)
    (x x' : list A) (z : list B) :
  rel3 T ms x x' ->
  (forall m a a' b, T m a a' -> opt_rel (T' m) (f a b) (f a' b)) ->
  opt_rel (rel3 T' ms) (zip_strict f x z) (zip_strict f x' z).
Proof.
  intros H Hf. revert x x' z H.
  induction ms as [|m ms IH]; intros [|a x] [|a' x'] z H; simpl in H;
    try contradiction.
  - destruct z; simpl; exact I.
  - destruct H as [Ha H]. destruct z as [|b z]; simpl; [exact I|].
    apply opt_rel_bind with (T := T' m); [apply Hf, Ha|].
    intros c c' Hc.
    apply opt_rel_bind with (T := rel3 T' ms); [apply IH, H|].
    intros cs cs' Hcs. simpl. split; assumption.
Qed.

Lemma zip_strict_rel_r {M A B C : Type} (T : M -> A -> A -> Prop)
    (T' : M -> C -> C -> Prop) (f : B -> A -> option C) (ms : list M)
    (x x' : list A) (z : list B) :
  rel3 T ms x x' ->
  (forall m a a' b, T m a a' -> opt_rel (T' m) (f b a) (f b a')) ->
  opt_rel (rel3 T' ms) (zip_strict f z x) (zip_strict f z x').
Proof.
  intros H Hf. revert x x' z H.
  induction ms as [|m ms IH]; intros [|a x] [|a' x'] z H; simpl in H;
    try contradiction.
  - destruct z; simpl; exact I.
  - destruct H as [Ha H]. destruct z as [|b z]; simpl; [exact I|].
    apply opt_rel_bind with (T := T' m); [apply Hf, Ha|].
    intros c c' Hc.
    apply opt_rel_bind with (T := rel3 T' ms); [apply IH, H|].
    intros cs cs' Hcs. simpl. split; assumption.
Qed.

Lemma mapM_rel {M A C : Type} (T : M -> A -> A -> Prop)
    (T' : M -> C -> C -> Prop) (f : A -> option C) (ms : list M)
    (x x' : list A) :
  rel3 T ms x x' ->
  (forall m a a', T m a a' -> opt_rel (T' m) (f a) (f a')) ->
  opt_rel (rel3 T' ms) (mapM f x) (mapM f x').
Proof.
  intros H Hf. revert x x' H.
  induction ms as [|m ms IH]; intros [|a x] [|a' x'] H; simpl in H;
    try contradiction.
  - simpl. exact I.
  - destruct H as [Ha H]. simpl.
    apply opt_rel_bind with (T := T' m); [apply Hf, Ha|].
    intros c c' Hc.
    apply opt_rel_bind with (T := rel3 T' ms); [apply IH, H|].
    intros cs cs' Hcs. simpl. split; assumption.
Qed.

Lemma map_rel {M A C : Type} (T : M -> A -> A -> Prop)
    (T' : M -> C -> C -> Prop) (g : A -> C) (ms : list M) (x x' : list A) :
  rel3 T ms x x' ->
  (forall m a a', T m a a' -> T' m (g a) (g a')) ->
  rel3 T' ms (map g x) (map g x').
Proof.
  intros H Hg. revert x x' H.
  induction ms as [|m ms IH]; intros [|a x] [|a' x'] H; simpl in H;
    try contradiction; simpl.
  - exact I.
  - destruct H as [Ha H]. split; [apply Hg, Ha | apply IH, H].
Qed.

Lemma mapM_guarded {A B : Type} (c : A -> bool) (g : A -> B) (l : list A) :
  mapM (fun a => if c a then Some (g a) else None) l =
  if forallb c l then Some (map g l) else None.
Proof.
  induction l as [|a l IH]; [reflexivity|]. simpl.
  destruct (c a); [|reflexivity]. simpl. rewrite IH.
  destruct (forallb c l); reflexivity.
Qed.

Lemma zip_strict_pure {A B C : Type} (h : A -> B -> C) (l1 : list A)
    (l2 : list B) :
  zip_strict (fun a b => Some (h a b)) l1 l2 =
  if Nat.eqb (length l1) (length l2)
  then Some (map (fun p => h (fst p) (snd p)) (combine l1 l2)) else None.
Proof.
  revert l2. induction l1 as [|a l1 IH]; intros [|b l2]; try reflexivity.
  simpl. rewrite IH. destruct (Nat.eqb (length l1) (length l2)); reflexivity.
Qed.

(** A linear layer raises unless every weight row is as wide as the
    input and there is one bias per row; it returns one output per
    bias. *)
Lemma linear_closed (l : Linear) (x : vec) :
  linear l x =
  if forallb (fun w => Nat.eqb (length w) (length x)) (weight l)
     && Nat.eqb (length (weight l)) (length (bias l))
  then Some (map (fun p => (fst p + snd p)%R)
               (combine (map (fun w => dot w x) (weight l)) (bias l)))
  else None.
Proof.
  unfold linear.
  rewrite (mapM_guarded (fun w => Nat.eqb (length w) (length x))
             (fun w => dot w x)).
  destruct (forallb _ (weight l)); [|reflexivity]. simpl.
  rewrite (zip_strict_pure (fun y b => (y + b)%R)), length_map.
  reflexivity.
Qed.

Lemma linear_same_if_valid (l : Linear) (valid : bool) (x x' : vec) :
  same_if_valid valid x x' ->
  opt_rel (same_if_valid valid) (linear l x) (linear l x').
Proof.
  unfold same_if_valid. destruct valid; intros H.
  - subst x'. destruct (linear l x); simpl; [reflexivity | exact I].
  - rewrite !linear_closed, H.
    destruct (forallb _ _ && _); simpl; [|exact I].
    rewrite !length_map, !length_combine, !length_map. reflexivity.
Qed.

(** The masked softmax of a row is a function of its valid scores. *)
Lemma masked_softmax_row_valid (m : list bool) (x x' : vec) :
  rel3 same_score_if_valid m x x' ->
  MaskedNorm.masked_softmax_row x m = MaskedNorm.masked_softmax_row x' m.
Proof.
  intros H.
  assert (Hu : MaskedNorm.unmasked m x = MaskedNorm.unmasked m x').
  { revert x x' H. induction m as [|b m IH]; intros [|a x] [|a' x'] H;
      simpl in H; try contradiction; [reflexivity|].
    destruct H as [Ha H]. unfold MaskedNorm.unmasked in *. simpl.
    destruct b; simpl in *.
    - rewrite Ha. f_equal. apply IH, H.
    - apply IH, H. }
  assert (He : forall c, MaskedNorm.masked_exps c m x
                         = MaskedNorm.masked_exps c m x').
  { intros c. clear Hu. revert x x' H.
    induction m as [|b m IH]; intros [|a x] [|a' x'] H;
      simpl in H; try contradiction; [reflexivity|].
    destruct H as [Ha H]. unfold MaskedNorm.masked_exps in *. simpl.
    f_equal; [|apply IH, H].
    unfold MaskedNorm.masked_exp. destruct b; simpl in *;
      [rewrite Ha|]; reflexivity. }
  unfold MaskedNorm.masked_softmax_row, MaskedNorm.row_shift.
  rewrite Hu, He. reflexivity.
Qed.

(** The masked softmax gives weight zero at the masked positions. *)
Lemma masked_softmax_row_zero (m : list bool) (x : vec) :
  length x = length m ->
  Forall2 (fun (w : R) (valid : bool) => valid = false -> w = 0%R)
    (MaskedNorm.masked_softmax_row x m) m.
Proof.
  unfold MaskedNorm.masked_softmax_row.
  generalize (MaskedNorm.row_shift x m) as c.
  intros c.
  generalize (rsum (MaskedNorm.masked_exps c m x)) as s. intros s.
  revert x. induction m as [|b m IH]; intros [|a x] L; simpl in L;
    try discriminate.
  - constructor.
  - unfold MaskedNorm.masked_exps in *. simpl. constructor.
    + intros ->. unfold MaskedNorm.masked_exp. simpl.
      unfold Rdiv. apply Rmult_0_l.
    + apply IH. lia.
Qed.

Lemma scale_zero (u v : vec) :
  length u = length v -> map (Rmult 0) u = map (Rmult 0) v.
Proof.
  revert v. induction u as [|a u IH]; intros [|b v] H; simpl in H;
    try discriminate; [reflexivity|].
  simpl. rewrite !Rmult_0_l. f_equal. apply IH. lia.
Qed.

(** A weighted sum with weight zero at the padded timesteps does not
    read the states there. *)
Lemma weighted_sum_valid (h : nat) (m : list bool) (w : vec)
    (eb eb' : list (list R)) :
  Forall2 (fun (wt : R) (valid : bool) => valid = false -> wt = 0%R) w m ->
  rel3 same_if_valid m eb eb' ->
  weighted_sum h w eb = weighted_sum h w eb'.
Proof.
  intros Hw He. unfold weighted_sum.
  destruct (rel3_length _ _ _ _ He) as [L1 L2].
  rewrite L1, L2.
  destruct (Nat.eqb (length w) (length m)); [|reflexivity].
  f_equal.
  assert (Hhd : state_width h eb = state_width h eb').
  { destruct m as [|b m], eb as [|u eb], eb' as [|u' eb']; simpl in He;
      try contradiction; [reflexivity|].
    destruct He as [Hu _]. unfold same_if_valid in Hu.
    destruct b; simpl; [rewrite Hu|]; congruence. }
  rewrite Hhd. generalize (repeat 0%R (state_width h eb')) as init.
  intros init. clear L1 L2 Hhd.
  revert m eb eb' He Hw.
  induction w as [|wt w IH]; intros m eb eb' He Hw.
  - reflexivity.
  - inversion Hw as [|? b ? m' Hb Hrest]; subst.
    destruct eb as [|u eb], eb' as [|u' eb']; simpl in He; try contradiction.
    destruct He as [Hu He]. simpl.
    rewrite (IH m' eb eb' He Hrest). f_equal.
    unfold same_if_valid in Hu. destruct b.
    + rewrite Hu. reflexivity.
    + rewrite (Hb eq_refl). apply scale_zero, Hu.
Qed.

(** The two batches of encoder states, related timestep by timestep
    along the encoder mask. *)
Lemma same_valid_rel (lens : list Z) (e e' : tensor3) (T H : nat) :
  shape3 (length lens) T H e ->
  same_valid_states lens e e' ->
  rel3 (rel3 same_if_valid) (map (below (en_seq_len_of e)) lens) e e'.
Proof.
  intros [Le Fe] [Hshape Hvalid].
  apply rel3_of_nth.
  - rewrite length_map. exact Le.
  - rewrite length_map, <- (Forall2_length Hshape). exact Le.
  - intros b mrow eb eb' Hm Heb Heb'.
    rewrite nth_error_map in Hm.
    destruct (nth_error lens b) as [l|] eqn:El; [|discriminate].
    inversion Hm; subst mrow; clear Hm.
    pose proof (VideoEncoderFacts.Forall2_at _ Hshape Heb Heb') as Hrow.
    simpl in Hrow.
    assert (LT : length eb = en_seq_len_of e).
    { rewrite Forall_forall in Fe.
      destruct (Fe eb (nth_error_In _ _ Heb)) as [L _].
      destruct e as [|e0 e]; [destruct b; discriminate|]. simpl.
      destruct (Fe e0 (or_introl eq_refl)) as [L0 _]. congruence. }
    assert (Lb : length (below (en_seq_len_of e) l) = en_seq_len_of e).
    { unfold below. rewrite length_map, length_seq. reflexivity. }
    apply rel3_of_nth.
    + rewrite Lb. exact LT.
    + rewrite Lb, <- (Forall2_length Hrow). exact LT.
    + intros t valid u u' Hv Hu Hu'.
      unfold below in Hv. rewrite nth_error_map in Hv.
      destruct (nth_error (seq 0 (en_seq_len_of e)) t) as [k|] eqn:Ek;
        [|discriminate].
      assert (k = t).
      { pose proof (nth_error_Some (seq 0 (en_seq_len_of e)) t) as Hn.
        rewrite length_seq in Hn.
        assert (t < en_seq_len_of e) by (apply Hn; congruence).
        rewrite nth_error_nth' with (d := 0) in Ek
          by (rewrite length_seq; assumption).
        rewrite seq_nth in Ek by assumption. inversion Ek. reflexivity. }
      subst k. inversion Hv; subst valid; clear Hv.
      unfold same_if_valid.
      destruct (Z.of_nat t <? l)%Z eqn:E.
      * apply Z.ltb_lt in E.
        pose proof (Hvalid b l eb eb' El Heb Heb') as Hf.
        assert (Ht : t < Z.to_nat l) by lia.
        pose proof (f_equal (fun s => nth_error s t) Hf) as Hn. simpl in Hn.
        rewrite !nth_error_firstn in Hn.
        apply Nat.ltb_lt in Ht. rewrite Ht in Hn. congruence.
      * apply (VideoEncoderFacts.Forall2_at _ Hrow Hu Hu').
Qed.

Lemma cat_dim2_rel (mask : list (list bool)) (e e' expanded : tensor3) :
  rel3 (rel3 same_if_valid) mask e e' ->
  opt_rel (rel3 (rel3 same_if_valid) mask)
    (cat_dim2 e expanded) (cat_dim2 e' expanded).
Proof.
  intros H. unfold cat_dim2.
  apply zip_strict_rel_l with (T := rel3 same_if_valid); [exact H|].
  intros m a a' b Ha.
  apply zip_strict_rel_l with (T := same_if_valid); [exact Ha|].
  intros valid u u' h Hu. simpl. unfold same_if_valid in *.
  destruct valid; [rewrite Hu; reflexivity|].
  rewrite !length_app, Hu. reflexivity.
Qed.

Lemma linear3_rel (l : Linear) (mask : list (list bool)) (x x' : tensor3) :
  rel3 (rel3 same_if_valid) mask x x' ->
  opt_rel (rel3 (rel3 same_if_valid) mask) (linear3 l x) (linear3 l x').
Proof.
  intros H. unfold linear3, linear2.
  apply mapM_rel with (T := rel3 same_if_valid); [exact H|].
  intros m a a' Ha.
  apply mapM_rel with (T := same_if_valid); [exact Ha|].
  intros valid u u' Hu. apply linear_same_if_valid, Hu.
Qed.

Lemma tanh_rel (mask : list (list bool)) (x x' : tensor3) :
  rel3 (rel3 same_if_valid) mask x x' ->
  rel3 (rel3 same_if_valid) mask (map (map (map tanh)) x) (map (map (map tanh)) x').
Proof.
  intros H.
  apply map_rel with (T := rel3 same_if_valid); [exact H|].
  intros m a a' Ha.
  apply map_rel with (T := same_if_valid); [exact Ha|].
  intros valid u u' Hu. unfold same_if_valid in *.
  destruct valid; [rewrite Hu; reflexivity|].
  rewrite !length_map. exact Hu.
Qed.

Lemma squeeze_last_rel (mask : list (list bool)) (x x' : tensor3) :
  rel3 (rel3 same_if_valid) mask x x' ->
  opt_rel (rel3 (rel3 same_score_if_valid) mask)
    (squeeze_last x) (squeeze_last x').
Proof.
  intros H. unfold squeeze_last.
  apply mapM_rel with (T := rel3 same_if_valid); [exact H|].
  intros m a a' Ha.
  apply mapM_rel with (T := same_if_valid); [exact Ha|].
  intros valid u u' Hu. unfold same_if_valid, same_score_if_valid in *.
  destruct valid.
  - subst u'. destruct u as [|r [|r' u]]; simpl; try exact I. reflexivity.
  - destruct u as [|r [|r1 u]], u' as [|r' [|r1' u']]; simpl in *;
      try discriminate; exact I.
Qed.

Lemma scores_rel (f : vec -> vec -> option R) (mask : list (list bool))
    (z e e' : tensor3) :
  (forall u v v', length v = length v' ->
                  opt_rel (fun _ _ => True) (f u v) (f u v')) ->
  rel3 (rel3 same_if_valid) mask e e' ->
  opt_rel (rel3 (rel3 same_score_if_valid) mask)
    (zip_strict (zip_strict f) z e) (zip_strict (zip_strict f) z e').
Proof.
  intros Hf H.
  apply zip_strict_rel_r with (T := rel3 same_if_valid); [exact H|].
  intros m a a' b Ha.
  apply zip_strict_rel_r with (T := same_if_valid); [exact Ha|].
  intros valid v v' u Hv. unfold same_if_valid, same_score_if_valid in *.
  destruct valid.
  - subst v'. destruct (f u v); simpl; [reflexivity | exact I].
  - pose proof (Hf u v v' Hv) as G.
    destruct (f u v), (f u v'); simpl in *; try contradiction; exact I.
Qed.

(** The attention scores of the two runs agree at the valid timesteps,
    for every attention type. *)
Lemma attn_logits_rel (self : t) (mask : list (list bool))
    (expanded e e' : tensor3) :
  rel3 (rel3 same_if_valid) mask e e' ->
  opt_rel (opt_rel (rel3 (rel3 same_score_if_valid) mask))
    (attn_logits_of self expanded e) (attn_logits_of self expanded e').
Proof.
  intros H. unfold attn_logits_of.
  destruct (String.eqb (attention_type self) "1_layer_nn").
  { apply opt_rel_bind with (T := rel3 (rel3 same_if_valid) mask);
      [apply cat_dim2_rel, H|].
    intros c c' Hc.
    destruct (attn_proj_1_layer_nn self) as [proj|]; simpl; [|exact I].
    apply opt_rel_bind with (T := rel3 (rel3 same_if_valid) mask);
      [apply linear3_rel, Hc|].
    intros s s' Hs.
    apply opt_rel_bind with (T := rel3 (rel3 same_score_if_valid) mask);
      [apply squeeze_last_rel, Hs|].
    intros al al' Hal. exact Hal. }
  destruct (String.eqb (attention_type self) "general").
  { destruct (attn_proj_general self) as [proj|]; simpl; [|exact I].
    destruct (linear3 proj expanded) as [inter|]; simpl; [|exact I].
    apply opt_rel_bind with (T := rel3 (rel3 same_score_if_valid) mask).
    - apply scores_rel; [|exact H].
      intros u v v' Hv. unfold bilinear. rewrite Hv.
      destruct (Nat.eqb (length u) (hidden_size self)
                && Nat.eqb (length v') (hidden_size self)); simpl; exact I.
    - intros al al' Hal. exact Hal. }
  destruct (String.eqb (attention_type self) "dot").
  { apply opt_rel_bind with (T := rel3 (rel3 same_score_if_valid) mask).
    - apply scores_rel; [|exact H].
      intros u v v' Hv. unfold dot_checked. rewrite Hv.
      destruct (Nat.eqb (length u) (length v')); simpl; exact I.
    - intros al al' Hal. exact Hal. }
  destruct (String.eqb (attention_type self) "concat").
  { apply opt_rel_bind with (T := rel3 (rel3 same_if_valid) mask);
      [apply cat_dim2_rel, H|].
    intros c c' Hc.
    destruct (attn_proj_layer1 self) as [proj1|]; simpl; [|exact I].
    apply opt_rel_bind with (T := rel3 (rel3 same_if_valid) mask);
      [apply linear3_rel, Hc|].
    intros s s' Hs.
    destruct (attn_proj_layer2 self) as [proj2|]; simpl; [|exact I].
    apply opt_rel_bind with (T := rel3 (rel3 same_if_valid) mask);
      [apply linear3_rel, tanh_rel, Hs|].
    intros s2 s2' Hs2.
    apply opt_rel_bind with (T := rel3 (rel3 same_score_if_valid) mask);
      [apply squeeze_last_rel, Hs2|].
    intros al al' Hal. exact Hal. }
  simpl. exact I.
Qed.

Lemma masked_softmax_valid (mask : list (list bool)) (x x' : tensor2) :
  rel3 (rel3 same_score_if_valid) mask x x' ->
  MaskedNorm.masked_softmax x mask = MaskedNorm.masked_softmax x' mask.
Proof.
  unfold MaskedNorm.masked_softmax. revert x x'.
  induction mask as [|m mask IH]; intros [|a x] [|a' x'] H; simpl in H;
    try contradiction; [reflexivity|].
  destruct H as [Ha H]. simpl. rewrite (IH _ _ H).
  unfold MaskedNorm.checked_row.
  destruct (rel3_length _ _ _ _ Ha) as [L1 L2]. rewrite L1, L2.
  rewrite (masked_softmax_row_valid _ _ _ Ha). reflexivity.
Qed.

(** The attention context of the two runs is the same. *)
Lemma context_valid (h : nat) (mask : list (list bool)) (x w : tensor2)
    (e e' : tensor3) :
  MaskedNorm.masked_softmax x mask = Some w ->
  rel3 (rel3 same_if_valid) mask e e' ->
  zip_strict (weighted_sum h) w e = zip_strict (weighted_sum h) w e'.
Proof.
  unfold MaskedNorm.masked_softmax. revert x w e e'.
  induction mask as [|m mask IH]; intros [|xb x] w [|eb e] [|eb' e'] Hw H;
    simpl in H; try contradiction; simpl in Hw; try discriminate.
  - inversion Hw; subst. reflexivity.
  - destruct H as [Hb H].
    apply bind_Some in Hw. destruct Hw as (wb & Hwb & Hw).
    apply bind_Some in Hw. destruct Hw as (ws & Hws & Hw).
    inversion Hw; subst w; clear Hw. simpl.
    rewrite (IH _ _ _ _ Hws H).
    unfold MaskedNorm.checked_row in Hwb.
    destruct (Nat.eqb (length xb) (length m)) eqn:E; [|discriminate].
    inversion Hwb; subst wb; clear Hwb. apply Nat.eqb_eq in E.
    rewrite (@weighted_sum_valid h m _ eb eb' (@masked_softmax_row_zero m xb E) Hb).
    reflexivity.
Qed.

Lemma output_logits_valid (self : t) (mask : list (list bool))
    (al al' : option tensor2) (hidden_state e e' : tensor3) :
  rel3 (rel3 same_if_valid) mask e e' ->
  opt_rel (rel3 (rel3 same_score_if_valid) mask) al al' ->
  output_logits_of self mask al hidden_state e =
  output_logits_of self mask al' hidden_state e'.
Proof.
  intros H Hal. unfold output_logits_of.
  destruct (negb (String.eqb (attention_type self) "none")); [|reflexivity].
  destruct al as [x|], al' as [x'|]; simpl in Hal; try contradiction;
    [|reflexivity].
  cbn [bind]. rewrite (@masked_softmax_valid mask x x' Hal).
  destruct (MaskedNorm.masked_softmax x' mask) as [w|] eqn:Ew; [|reflexivity].
  cbn [bind]. rewrite (@context_valid (hidden_size self) mask x' w e e' Ew H).
  reflexivity.
Qed.

(** X19. The outcome of [forward] does not depend on the encoder states beyond
    each sequence's length, for any attention type: two batches of
    encoder states of shape [(batch, en_seq_len, hidden)] that carry the
    same states up to each length in [encoder_lens] give the same
    log-probabilities and the same new state, or the same failure.  The
    masked softmax gives the padded timesteps weight zero and is not
    influenced by their scores. *)
Theorem forward_ignores_padded_states (self : t) (input_ : list Z)
    (previous_state : rnn_state) (encoder_lens : list Z)
    (encoder_hidden_states encoder_hidden_states' : tensor3)
    (en_seq_len hidden : nat) :
  length encoder_lens = length input_ ->
  shape3 (length input_) en_seq_len hidden encoder_hidden_states ->
  same_valid_states encoder_lens encoder_hidden_states encoder_hidden_states' ->
  forward self input_ previous_state encoder_lens encoder_hidden_states =
  forward self input_ previous_state encoder_lens encoder_hidden_states'.
Proof.
  intros Hlen Hshape Hvalid. rewrite <- Hlen in Hshape.
  pose proof (@same_valid_rel _ _ _ _ _ Hshape Hvalid) as Hrel.
  destruct Hvalid as [Hsame _].
  rewrite !forward_decoder_steps.
  rewrite <- (en_seq_len_same_shape Hsame).
  unfold encoder_mask_of. rewrite Hlen, Nat.eqb_refl. cbn [bind].
  destruct (mapM (embed (embedding self)) input_) as [embedded_char|];
    [|reflexivity].
  cbn [bind].
  destruct (rnn self _ previous_state) as [[hidden_state final_state]|];
    [|reflexivity].
  cbn [bind].
  rewrite <- (expand_as_same_shape hidden_state Hsame).
  destruct (expand_as hidden_state encoder_hidden_states)
    as [expanded_hidden_state|]; [|reflexivity].
  cbn [bind].
  apply opt_rel_eq.
  apply opt_rel_bind
    with (T := opt_rel (rel3 (rel3 same_score_if_valid)
                          (map (below (en_seq_len_of encoder_hidden_states))
                               encoder_lens))).
  - apply attn_logits_rel, Hrel.
  - intros al al' Hal.
    rewrite (@output_logits_valid self _ al al' hidden_state _ _ Hrel Hal).
    apply opt_rel_refl.
Qed.

(** One sequence of two encoder timesteps of which the first is valid,
    under dot attention. *)
Lemma forward_ignores_padded_states_witness :
  forward (example_decoder "dot") [2%Z] example_state [1%Z] example_states =
  forward (example_decoder "dot") [2%Z] example_state [1%Z]
    example_states_padded.
Proof.
  apply (@forward_ignores_padded_states (example_decoder "dot") [2%Z]
           example_state [1%Z] example_states example_states_padded 2 2).
  - reflexivity.
  - repeat constructor.
  - split; [repeat constructor|].
    intros b l eb eb' Hl He He'.
    destruct b as [|b]; simpl in Hl, He, He'.
    + inversion Hl; inversion He; inversion He'; subst. reflexivity.
    + destruct b; discriminate.
Defined.

(** *** The theorems above at the decoder instance *)

Lemma init_well_formed_decoder_witness :
  let self := example_decoder "dot" in
  Checkpoint.best_error (Checkpoint.init (example_decoder "dot")) = 1%Q /\
  hidden_size self =
    VideoEncoder.hidden_size example_encoder
    * (if VideoEncoder.bidirectional example_encoder then 2 else 1) /\
  rnn_type self = VideoEncoder.rnn_type example_encoder /\
  num_layers self = VideoEncoder.num_layers example_encoder /\
  attention_type self = "dot"%string /\
  In "dot"%string ["none"; "dot"; "general"; "1_layer_nn"; "concat"]%string /\
  ("dot"%string = "1_layer_nn"%string ->
     attn_proj_1_layer_nn self = Some example_concat_layer) /\
  ("dot"%string = "general"%string ->
     attn_proj_general self = Some example_concat_layer) /\
  ("dot"%string = "concat"%string ->
     attn_proj_layer1 self = Some example_concat_layer /\
     attn_proj_layer2 self = Some example_concat_layer /\
     (0 < -1)%Z) /\
  Z.of_nat (length (output_mask self)) = vocab_size self.
Proof.
  apply (@init_well_formed_decoder "<pad>" "<bos>" example_encoder 2 4
           example_char2idx 0 "dot" (-1) example_embedding example_rnn
           example_concat_layer example_concat_layer example_concat_layer
           example_concat_layer example_concat_layer example_output_proj
           (Checkpoint.init (example_decoder "dot"))).
  reflexivity.
Defined.

Lemma init_output_mask_witness :
  let mask := output_mask (example_decoder "dot") in
  (0 < 4)%Z /\ (1 < 4)%Z /\
  Z.of_nat (length mask) = 4%Z /\
  forall j, (Z.of_nat j < 4)%Z ->
    nth_error mask j =
    Some (negb (Nat.eqb j (Z.to_nat 0) || Nat.eqb j (Z.to_nat 1))).
Proof.
  apply (@init_output_mask "<pad>" "<bos>" example_encoder 2 4
           example_char2idx 0 "dot" (-1) example_embedding example_rnn
           example_concat_layer example_concat_layer example_concat_layer
           example_concat_layer example_concat_layer example_output_proj
           (Checkpoint.init (example_decoder "dot")) 0 1).
  - reflexivity.
  - reflexivity.
  - reflexivity.
  - lia.
  - lia.
Defined.

(** The attention type [concat] with the default attention hidden size
    of -1. *)
Lemma init_rejects_witness :
  __init__ "<pad>" "<bos>" example_encoder 2 4 example_char2idx 0 "concat" (-1)
    example_embedding example_rnn example_concat_layer example_concat_layer
    example_concat_layer example_concat_layer example_concat_layer
    example_output_proj
  = None.
Proof.
  apply init_rejects. right. left. split; [reflexivity|lia].
Defined.

Lemma forward_output_shape_witness :
  exists lp st,
    forward (example_decoder "dot") [2%Z] example_state [1%Z] example_states
      = Some (lp, st) /\
    length lp = length [2%Z] /\
    Forall (fun row : list R =>
              Z.of_nat (length row) = vocab_size (example_decoder "dot")) lp /\
    exists embedded_char hidden_state,
      mapM (embed (embedding (example_decoder "dot"))) [2%Z]
        = Some embedded_char /\
      length embedded_char = length [2%Z] /\
      rnn (example_decoder "dot") (map (fun e => [e]) embedded_char)
        example_state = Some (hidden_state, st).
Proof.
  do 2 eexists. split; [reflexivity|].
  apply (@forward_output_shape (example_decoder "dot") [2%Z] example_state
           [1%Z] example_states).
  - reflexivity.
  - reflexivity.
Defined.

(** A character id of 7 with an embedding table of four rows. *)
Lemma forward_rejects_unknown_id_witness :
  forward (example_decoder "dot") [7%Z] example_state [1%Z] example_states
  = None.
Proof.
  apply (@forward_rejects_unknown_id (example_decoder "dot") [7%Z]
           example_state [1%Z] example_states 7%Z).
  - left. reflexivity.
  - right. simpl. lia.
Defined.

(** Three lengths for a batch of two characters. *)
Lemma forward_rejects_mismatched_encoder_lens_witness :
  forward (example_decoder "dot") [2%Z; 3%Z] example_state [1%Z; 1%Z; 1%Z]
    example_states
  = None.
Proof.
  apply (@forward_rejects_mismatched_encoder_lens (example_decoder "dot")
           [2%Z; 3%Z] example_state [1%Z; 1%Z; 1%Z] example_states).
  - discriminate.
  - discriminate.
  - discriminate.
Defined.

(** *** The log-probabilities as a distribution *)

(** A mask of ones over more than two symbols keeps an allowed symbol
    when two positions are cleared. *)
Lemma cleared_twice_has_unmasked (n p b : Z) (m0 m1 m2 : list bool) :
  (2 < n)%Z ->
  ones n = Some m0 ->
  setitem m0 p false = Some m1 ->
  setitem m1 b false = Some m2 ->
  MaskedNorm.has_unmasked m2 = true.
Proof.
  intros Hn H0 H1 H2.
  destruct (@cleared_twice_exact _ _ _ _ _ _ H0 H1 H2)
    as (kp & kb & _ & _ & L & Hj).
  assert (G : exists j, j < length m2 /\ Nat.eqb j kp || Nat.eqb j kb = false).
  { destruct (Nat.eqb 0 kp || Nat.eqb 0 kb) eqn:E0;
      [|exists 0; split; [lia|exact E0]].
    destruct (Nat.eqb 1 kp || Nat.eqb 1 kb) eqn:E1;
      [|exists 1; split; [lia|exact E1]].
    exists 2. split; [lia|].
    apply orb_true_iff in E0. apply orb_true_iff in E1.
    rewrite !Nat.eqb_eq in E0, E1.
    apply orb_false_iff. rewrite !Nat.eqb_neq. lia. }
  destruct G as (j & Hlt & Hfree).
  specialize (Hj j Hlt). rewrite Hfree in Hj. simpl in Hj.
  unfold MaskedNorm.has_unmasked. apply existsb_exists.
  exists true. split; [apply (nth_error_In _ _ Hj)|reflexivity].
Qed.

(** X20. For a decoder built by [__init__] over more than two symbols, every
    row of log-probabilities that [forward] returns is a distribution
    over the allowed symbols: the exponentials of its entries at the
    unmasked positions add up to one.  The normalization is the one of
    the masked log-softmax primitive; that an allowed symbol is left
    comes from the mask [__init__] builds. *)
Theorem forward_output_distribution (PAD BOS : string)
    (encoder : VideoEncoder.t) (cd : nat) (vs : Z) (d : dict) (dr : Q)
    (att : string) (ahs : Z) (emb : tensor2)
    (rnn_layer : tensor3 -> rnn_state -> option (tensor3 * rnn_state))
    (p1 p2 p3 p4 cl ol : Linear) (obj : Checkpoint.component t)
    (input_ : list Z) (previous_state : rnn_state) (encoder_lens : list Z)
    (encoder_hidden_states : tensor3) (lp : tensor2) (st : rnn_state) :
  __init__ PAD BOS encoder cd vs d dr att ahs emb rnn_layer p1 p2 p3 p4 cl ol
    = Some obj ->
  (2 < vs)%Z ->
  forward (Checkpoint.state_dict obj) input_ previous_state encoder_lens
    encoder_hidden_states = Some (lp, st) ->
  Forall (fun row =>
            rsum (map exp (MaskedNorm.unmasked
                             (output_mask (Checkpoint.state_dict obj)) row))
            = 1%R) lp.
Proof.
  intros Hinit Hvs H.
  apply init_mask in Hinit. destruct Hinit as [Hm Hv].
  assert (Hun : MaskedNorm.has_unmasked
                  (output_mask (Checkpoint.state_dict obj)) = true).
  { unfold reserved_mask in Hm.
    apply bind_Some in Hm. destruct Hm as (m0 & H0 & Hm).
    apply bind_Some in Hm. destruct Hm as (pad & _ & Hm).
    apply bind_Some in Hm. destruct Hm as (m1 & H1 & Hm).
    apply bind_Some in Hm. destruct Hm as (bos & _ & H2).
    apply (@cleared_twice_has_unmasked _ _ _ _ _ _ Hvs H0 H1 H2). }
  assert (Hlen : Z.of_nat (length (output_mask (Checkpoint.state_dict obj)))
                 = vocab_size (Checkpoint.state_dict obj)).
  { apply reserved_mask_spec in Hm.
    destruct Hm as (pad & bos & _ & _ & L & _). rewrite Hv. exact L. }
  apply forward_output in H. destruct H as (logits & m & Hmask & Hlp).
  apply (expand_rows_exact _ _ Hlen) in Hmask. subst m.
  unfold MaskedNorm.masked_log_softmax in Hlp.
  apply Forall_forall. intros row Hrow.
  apply In_nth_error in Hrow. destruct Hrow as [b Hb].
  rewrite (zip_strict_nth_error _ _ _ b Hlp) in Hb.
  destruct (nth_error logits b) as [x|]; [|discriminate].
  destruct (nth_error (repeat (output_mask (Checkpoint.state_dict obj))
                         (length input_)) b) as [mr|] eqn:Emr; [|discriminate].
  apply nth_error_repeat in Emr. subst mr.
  unfold MaskedNorm.checked_row in Hb.
  destruct (Nat.eqb (length x)
              (length (output_mask (Checkpoint.state_dict obj)))) eqn:E;
    [|discriminate].
  inversion Hb; subst row. apply Nat.eqb_eq in E.
  apply (MaskedNormFacts.masked_log_softmax_row_spec _ _ E Hun).
Qed.

Lemma forward_output_distribution_witness :
  exists lp st,
    forward (example_decoder "dot") [2%Z] example_state [1%Z] example_states
      = Some (lp, st) /\
    Forall (fun row =>
              rsum (map exp (MaskedNorm.unmasked
                               (output_mask (example_decoder "dot")) row))
              = 1%R) lp.
Proof.
  do 2 eexists. split; [reflexivity|].
  eapply (@forward_output_distribution "<pad>" "<bos>" example_encoder 2 4
           example_char2idx 0 "dot" (-1) example_embedding example_rnn
           example_concat_layer example_concat_layer example_concat_layer
           example_concat_layer example_concat_layer example_output_proj
           (Checkpoint.init (example_decoder "dot"))
           [2%Z] example_state [1%Z] example_states).
  - reflexivity.
  - lia.
  - reflexivity.
Defined.

End CharDecodingStepFacts.

(** ** Facts: the reserved symbols in the output distributions *)

Module ReservedFacts.
Import Tensor NN TensorFacts NNFacts Reserved.

Lemma masked_at_intro (row : vec) (mask : list bool) (i : Z) (k : nat) :
  wrap_index (length mask) i = Some k ->
  length row = length mask -> nth_error row k = Some MaskedNorm.neg_sentinel ->
  masked_at row i.
Proof.
  intros Hw Hl Hn. exists k. rewrite Hl. split; assumption.
Qed.

(** C2. For an encoder built by [__init__] with CTC and a decoder built
    by [__init__], the reserved symbols have indices in the vocabulary,
    every row of the encoder's [output_log_probs], for every batch element
    and timestep, holds the zero-probability sentinel at the indices
    [char2idx[PAD] + 1] and [char2idx[BOS] + 1], and every row of the
    decoder step's [output_log_probs] holds it at [char2idx[PAD]] and
    [char2idx[BOS]], whatever the inputs and the weights. *)
Theorem reserved_symbols_masked (PAD BOS : string)
    (frame_dim hidden_size : nat) (frame_processing rnn_type : string)
    (num_layers : nat) (bidirectional : bool) (rnn_dropout : Q)
    (vocab_size : Z) (char2idx : dict)
    (rnn_layer : list tensor2 -> list tensor2 * rnn_state) (proj : Linear)
    (video_encoder : Checkpoint.component VideoEncoder.t)
    (encoder : VideoEncoder.t) (char_dim : nat) (dec_vocab_size : Z)
    (dec_char2idx : dict) (dec_dropout : Q) (attention_type : string)
    (attn_hidden_size : Z) (embedding_weight : tensor2)
    (dec_rnn : tensor3 -> rnn_state -> option (tensor3 * rnn_state))
    (p1 p2 p3 p4 concat_l output_l : Linear)
    (decoding_step : Checkpoint.component CharDecodingStep.t) :
  VideoEncoder.__init__ PAD BOS frame_dim hidden_size frame_processing rnn_type
    num_layers bidirectional rnn_dropout true vocab_size (Some char2idx)
    rnn_layer proj = Some video_encoder ->
  CharDecodingStep.__init__ PAD BOS encoder char_dim dec_vocab_size dec_char2idx
    dec_dropout attention_type attn_hidden_size embedding_weight dec_rnn
    p1 p2 p3 p4 concat_l output_l = Some decoding_step ->
  exists pad bos dec_pad dec_bos,
    getitem char2idx PAD = Some pad /\ getitem char2idx BOS = Some bos /\
    getitem dec_char2idx PAD = Some dec_pad /\
    getitem dec_char2idx BOS = Some dec_bos /\
    (forall frames frame_lens lp hs fs,
       VideoEncoder.forward (Checkpoint.state_dict video_encoder) frames frame_lens
         = Some (Some lp, hs, fs) ->
       forall b seq t row,
         nth_error lp b = Some seq -> nth_error seq t = Some row ->
         masked_at row (pad + 1) /\ masked_at row (bos + 1)) /\
    (forall input_ previous_state encoder_lens encoder_hidden_states lp st,
       CharDecodingStep.forward (Checkpoint.state_dict decoding_step) input_
         previous_state encoder_lens encoder_hidden_states = Some (lp, st) ->
       forall b row,
         nth_error lp b = Some row ->
         masked_at row dec_pad /\ masked_at row dec_bos).
Proof.
  intros Henc Hdec.
  apply VideoEncoderFacts.init_ctc in Henc.
  destruct Henc as (head & Hattr & Hctc & Hhead).
  apply VideoEncoderFacts.ctc_attributes_spec in Hattr.
  destruct Hattr as (pad & bos & Hpad & Hbos & Hlen & kp & kb & Wp & Wb & Np & Nb).
  apply CharDecodingStepFacts.init_mask in Hdec. destruct Hdec as (Hmask & Hvs).
  apply CharDecodingStepFacts.reserved_mask_spec in Hmask.
  destruct Hmask
    as (dpad & dbos & Hdpad & Hdbos & Hdlen & dkp & dkb & Wdp & Wdb & Ndp & Ndb).
  exists pad, bos, dpad, dbos.
  split; [exact Hpad|]. split; [exact Hbos|].
  split; [exact Hdpad|]. split; [exact Hdbos|]. split.
  - intros frames frame_lens lp hs fs Hfwd b seq t row Hb Ht.
    apply VideoEncoderFacts.forward_reaches_head in Hfwd.
    destruct Hfwd as (hs0 & fs0 & Hhd).
    assert (E1 : length row = length (VideoEncoder.output_mask head) /\
                 nth_error row kp = Some MaskedNorm.neg_sentinel)
      by (eapply VideoEncoderFacts.ctc_head_masked; eassumption).
    assert (E2 : length row = length (VideoEncoder.output_mask head) /\
                 nth_error row kb = Some MaskedNorm.neg_sentinel)
      by (eapply VideoEncoderFacts.ctc_head_masked; eassumption).
    destruct E1 as [L1 N1]. destruct E2 as [_ N2].
    split; eapply masked_at_intro; eassumption.
  - intros input_ previous_state encoder_lens ehs lp st Hfwd b row Hb.
    rewrite <- Hvs in Hdlen.
    assert (E1 : length row
                 = length (CharDecodingStep.output_mask
                             (Checkpoint.state_dict decoding_step)) /\
                 nth_error row dkp = Some MaskedNorm.neg_sentinel)
      by (eapply CharDecodingStepFacts.forward_masked; eassumption).
    assert (E2 : length row
                 = length (CharDecodingStep.output_mask
                             (Checkpoint.state_dict decoding_step)) /\
                 nth_error row dkb = Some MaskedNorm.neg_sentinel)
      by (eapply CharDecodingStepFacts.forward_masked; eassumption).
    destruct E1 as [L1 N1]. destruct E2 as [_ N2].
    split; eapply masked_at_intro; eassumption.
Qed.

(** C2 at the example encoder with CTC and the example decoder. *)
Lemma reserved_symbols_masked_witness :
  exists pad bos dec_pad dec_bos,
    getitem VideoEncoder.example_ctc_dict "<pad>" = Some pad /\
    getitem VideoEncoder.example_ctc_dict "<bos>" = Some bos /\
    getitem CharDecodingStep.example_char2idx "<pad>" = Some dec_pad /\
    getitem CharDecodingStep.example_char2idx "<bos>" = Some dec_bos /\
    (forall frames frame_lens lp hs fs,
       VideoEncoder.forward
         (Checkpoint.state_dict (Checkpoint.init VideoEncoder.example_ctc_encoder))
         frames frame_lens = Some (Some lp, hs, fs) ->
       forall b seq t row,
         nth_error lp b = Some seq -> nth_error seq t = Some row ->
         masked_at row (pad + 1) /\ masked_at row (bos + 1)) /\
    (forall input_ previous_state encoder_lens encoder_hidden_states lp st,
       CharDecodingStep.forward
         (Checkpoint.state_dict
            (Checkpoint.init (CharDecodingStep.example_decoder "dot")))
         input_ previous_state encoder_lens encoder_hidden_states = Some (lp, st) ->
       forall b row,
         nth_error lp b = Some row ->
         masked_at row dec_pad /\ masked_at row dec_bos).
Proof.
  apply (@reserved_symbols_masked "<pad>" "<bos>"
           2 2 "flatten" "RNN" 1 true 0 4 VideoEncoder.example_ctc_dict
           VideoEncoder.example_rnn VideoEncoder.example_ctc_proj
           (Checkpoint.init VideoEncoder.example_ctc_encoder)
           CharDecodingStep.example_encoder 2 4 CharDecodingStep.example_char2idx
           0 "dot" (-1) CharDecodingStep.example_embedding
           CharDecodingStep.example_rnn
           CharDecodingStep.example_concat_layer
           CharDecodingStep.example_concat_layer
           CharDecodingStep.example_concat_layer
           CharDecodingStep.example_concat_layer
           CharDecodingStep.example_concat_layer
           CharDecodingStep.example_output_proj
           (Checkpoint.init (CharDecodingStep.example_decoder "dot"))).
  - reflexivity.
  - reflexivity.
Defined.

End ReservedFacts.
